(** * World Cup 2026 draw simulator: the draw engine and its invariants

    A shallow embedding of [code/config.py] and [code/simulator.py]:
    the confederation checker, the group availability resolver, the
    single-draw engine with its restart loop, and the mass-simulation
    driver, followed by the properties of the draw that the
    specification states. *)

From Stdlib Require Import ZArith Lia.
From stdpp Require Import base option list sets gmap strings sorting.

Set Warnings "-clear-no-such-hyp".

Open Scope string_scope.
Open Scope list_scope.
Open Scope nat_scope.

(** ** config.py *)

Definition NUM_GROUPS : nat := 12.
Definition TEAMS_PER_GROUP : nat := 4.
Definition NUM_POTS : nat := 4.
Definition TEAMS_PER_POT : nat := 12.

Definition GROUPS : list string :=
  ["A"; "B"; "C"; "D"; "E"; "F"; "G"; "H"; "I"; "J"; "K"; "L"].

Definition MAX_UEFA_PER_GROUP : nat := 2.
Definition MAX_OTHER_CONF_PER_GROUP : nat := 1.

(** A Python dict literal keeps its insertion order, and
    [FIXED_HOSTS.items()] walks it in that order. *)
Definition FIXED_HOSTS : list (string * string) :=
  [("Mexico", "A"); ("Canada", "B"); ("United States", "D")].

Definition NUM_SIMULATIONS : Z := 100000.
Definition MAX_ATTEMPTS_PER_SIMULATION : Z := 1000.
Definition TARGET_TEAM : string := "Argentina".

(** ** Python containers *)

(** [groups_formed] is a dict from group letter to the list of its
    occupants.  It is built by a comprehension over [GROUPS] and later walked
    with [.items()], so its key order is kept: an association list. *)
Definition groups_dict : Type := list (string * list string).

(** [d.get(k)] on an ordered dict: the entry of the first (only) key [k]. *)
Fixpoint dict_lookup (d : groups_dict) (k : string) : option (list string) :=
  match d with
  | [] => None
  | (k', v) :: d' => if String.eqb k' k then Some v else dict_lookup d' k
  end.

(** [d[k].append(x)]: the list stored under [k] grows at its end, the key
    keeps its place. [None] is Python's [KeyError]. *)
Fixpoint dict_append (d : groups_dict) (k x : string) : option groups_dict :=
  match d with
  | [] => None
  | (k', v) :: d' =>
      if String.eqb k' k then Some ((k', v ++ [x]) :: d')
      else (λ d'', (k', v) :: d'') <$> dict_append d' k x
  end.

Definition dict_keys (d : groups_dict) : list string := d.*1.

(** [conf_dict.get(team, [])] *)
Definition conf_get (conf_dict : gmap string (list string)) (team : string)
  : list string :=
  default [] (conf_dict !! team).

(** [conf_counter[conf] += 1] on a [defaultdict(int)]. *)
Definition counter_incr (conf_counter : gmap string nat) (conf : string)
  : gmap string nat :=
  <[conf := S (default 0 (conf_counter !! conf))]> conf_counter.

(** Reading [conf_counter[conf]] on a [defaultdict(int)]: a missing key is
    stored with the default 0 and 0 is returned. *)
Definition counter_read (conf_counter : gmap string nat) (conf : string)
  : nat * gmap string nat :=
  match conf_counter !! conf with
  | Some n => (n, conf_counter)
  | None => (0, <[conf := 0]> conf_counter)
  end.

(** ** A state monad for code that receives mutable objects *)

Definition St (S A : Type) : Type := S → A * S.

Definition st_ret {S A} (a : A) : St S A := λ s, (a, s).
Definition st_bind {S A B} (m : St S A) (k : A → St S B) : St S B :=
  λ s, let (a, s') := m s in k a s'.
Definition st_gets {S A} (f : S → A) : St S A := λ s, (f s, s).

Notation "x ←ₛ m ; k" := (st_bind m (λ x, k))
  (at level 100, m at next level, right associativity, k at level 200).

(** [for x in xs: acc = body x acc] *)
Fixpoint st_foreach {S A B} (xs : list A) (acc : B) (body : A → B → St S B)
  : St S B :=
  match xs with
  | [] => st_ret acc
  | x :: xs' => acc' ←ₛ body x acc; st_foreach xs' acc' body
  end.

(** ** simulator.py: can_team_go_to_group *)

(** The two dict arguments of the checker, passed by reference. *)
Record CheckerArgs : Type := {
  arg_groups_formed : groups_dict;
  arg_conf_dict : gmap string (list string);
}.

(** The second loop of the checker: every confederation of the candidate
    against its cap. *)
Fixpoint check_caps (team_confederations : list string)
    (conf_counter : gmap string nat) : bool :=
  match team_confederations with
  | [] => true
  | conf :: rest =>
      let (n, conf_counter') := counter_read conf_counter conf in
      if String.eqb conf "UEFA" then
        if (MAX_UEFA_PER_GROUP <=? n)%nat then false
        else check_caps rest conf_counter'
      else
        if (MAX_OTHER_CONF_PER_GROUP <=? n)%nat then false
        else check_caps rest conf_counter'
  end.

Definition can_team_go_to_group_st (team group : string)
  : St CheckerArgs bool :=
  team_confederations ←ₛ st_gets (λ a, conf_get (arg_conf_dict a) team);
  match team_confederations with
  | [] => st_ret true
  | _ =>
      teams_in_group ←ₛ
        st_gets (λ a, default [] (dict_lookup (arg_groups_formed a) group));
      conf_counter ←ₛ
        st_foreach teams_in_group (∅ : gmap string nat)
          (λ existing_team conf_counter,
             existing_confs ←ₛ
               st_gets (λ a, conf_get (arg_conf_dict a) existing_team);
             st_ret (foldl counter_incr conf_counter existing_confs));
      st_ret (check_caps team_confederations conf_counter)
  end.

Definition can_team_go_to_group (team group : string)
    (groups_formed : groups_dict) (conf_dict : gmap string (list string))
  : bool :=
  (can_team_go_to_group_st team group
     {| arg_groups_formed := groups_formed; arg_conf_dict := conf_dict |}).1.

(** ** simulator.py: get_available_groups_for_team *)

(** [group in groups_filled_by_pot.get(pot_name, set())] *)
Definition filled_for (groups_filled_by_pot : gmap string (gset string))
    (pot_name : string) : gset string :=
  default ∅ (groups_filled_by_pot !! pot_name).

Fixpoint available_loop (groups : list string) (team pot_name : string)
    (groups_formed : groups_dict)
    (groups_filled_by_pot : gmap string (gset string))
    (conf_dict : gmap string (list string))
    (available_groups : list string) : list string :=
  match groups with
  | [] => available_groups
  | group :: rest =>
      if bool_decide (group ∈ filled_for groups_filled_by_pot pot_name) then
        available_loop rest team pot_name groups_formed groups_filled_by_pot
          conf_dict available_groups
      else if can_team_go_to_group team group groups_formed conf_dict then
        available_loop rest team pot_name groups_formed groups_filled_by_pot
          conf_dict (available_groups ++ [group])
      else
        available_loop rest team pot_name groups_formed groups_filled_by_pot
          conf_dict available_groups
  end.

Definition get_available_groups_for_team (team pot_name : string)
    (groups_formed : groups_dict)
    (groups_filled_by_pot : gmap string (gset string))
    (conf_dict : gmap string (list string)) : list string :=
  available_loop GROUPS team pot_name groups_formed groups_filled_by_pot
    conf_dict [].

(** ** The [random] module

    The engine draws its randomness from Python's [random] module:
    [random.shuffle(x)] permutes the list [x] in place and
    [random.choice(seq)] returns an element of the non-empty [seq].  The
    generator's state is threaded explicitly; a [RandomSource] gives the two
    operations the engine uses. *)

Class RandomSource (R : Type) : Type := {
  shuffle : list string → R → list string * R;
  choice : list string → R → string * R;
}.

Class RandomSourceLawful (R : Type) `{RandomSource R} : Prop := {
  shuffle_perm : ∀ l r, (shuffle l r).1 ≡ₚ l;
  choice_elem : ∀ l r, l ≠ [] → (choice l r).1 ∈ l;
}.

(** A source that leaves every list in its order and always picks the first
    candidate. *)
Definition always_first (R : Type) `{RandomSource R} : Prop :=
  (∀ l r, (shuffle l r).1 = l) ∧ (∀ x l r, (choice (x :: l) r).1 = x).

(** ** simulator.py: simulate_single_draw *)

Inductive exn : Type := KeyError | IndexError.

(** How a loop of the engine ends: it ran through, it hit [break] on a team
    without available group, or an exception left it. *)
Inductive outcome (A : Type) : Type :=
  | Ok (a : A)
  | DeadEnd
  | Raised (e : exn).
Arguments Ok {A} a.
Arguments DeadEnd {A}.
Arguments Raised {A} e.

(** What a function call yields. *)
Inductive py_result (A : Type) : Type :=
  | Return (a : A)
  | Raise (e : exn).
Arguments Return {A} a.
Arguments Raise {A} e.

Record DrawState : Type := {
  groups_formed : groups_dict;
  groups_filled_by_pot : gmap string (gset string);
}.

(** [{group: [] for group in GROUPS}] and the four empty sets. *)
Definition init_state : DrawState := {|
  groups_formed := (λ group, (group, [])) <$> GROUPS;
  groups_filled_by_pot :=
    {[ "Pot 1" := ∅; "Pot 2" := ∅; "Pot 3" := ∅; "Pot 4" := ∅ ]};
|}.

(** [groups_filled_by_pot[pot_name].add(group)]; [None] is [KeyError]. *)
Definition filled_add (filled : gmap string (gset string))
    (pot_name group : string) : option (gmap string (gset string)) :=
  s ← filled !! pot_name; Some (<[pot_name := s ∪ {[group]}]> filled).

(** The two statements that commit a placement:
    [groups_formed[g].append(team)] and
    [groups_filled_by_pot[pot_name].add(g)]. *)
Definition place (team pot_name assigned_group : string) (st : DrawState)
  : option DrawState :=
  gf ← dict_append (groups_formed st) assigned_group team;
  filled ← filled_add (groups_filled_by_pot st) pot_name assigned_group;
  Some {| groups_formed := gf; groups_filled_by_pot := filled |}.

(** [l.remove(x)] where [x in l]: the first occurrence goes. *)
Fixpoint remove_first (x : string) (l : list string) : list string :=
  match l with
  | [] => []
  | y :: l' => if String.eqb y x then l' else y :: remove_first x l'
  end.

(** [for host, fixed_group in FIXED_HOSTS.items(): ...] *)
Fixpoint assign_fixed_hosts (hosts : list (string * string))
    (pot1_teams : list string) (st : DrawState)
  : option (list string * DrawState) :=
  match hosts with
  | [] => Some (pot1_teams, st)
  | (host, fixed_group) :: rest =>
      if bool_decide (host ∈ pot1_teams) then
        st' ← place host "Pot 1" fixed_group st;
        assign_fixed_hosts rest (remove_first host pot1_teams) st'
      else assign_fixed_hosts rest pot1_teams st
  end.

Section Engine.
Context {R : Type} `{RandomSource R}.
Variable conf_dict : gmap string (list string).
Variable pot_dict : gmap string (list string).

(** [for team in pot_teams: ...], the placement loop of one pot. *)
Fixpoint assign_teams (pot_name : string) (pot_teams : list string)
    (st : DrawState) (r : R) : outcome DrawState * R :=
  match pot_teams with
  | [] => (Ok st, r)
  | team :: rest =>
      let available :=
        get_available_groups_for_team team pot_name (groups_formed st)
          (groups_filled_by_pot st) conf_dict in
      match available with
      | [] => (DeadEnd, r)
      | _ :: _ =>
          let (assigned_group, r') := choice available r in
          match place team pot_name assigned_group st with
          | None => (Raised KeyError, r')
          | Some st' => assign_teams pot_name rest st' r'
          end
      end
  end.

(** [for pot_name in ['Pot 4', 'Pot 3', 'Pot 2']: ...] *)
Fixpoint draw_pots (pot_names : list string) (st : DrawState) (r : R)
  : outcome DrawState * R :=
  match pot_names with
  | [] => (Ok st, r)
  | pot_name :: rest =>
      match pot_dict !! pot_name with
      | None => (Raised KeyError, r)
      | Some teams =>
          let (pot_teams, r1) := shuffle teams r in
          match assign_teams pot_name pot_teams st r1 with
          | (Ok st', r2) => draw_pots rest st' r2
          | other => other
          end
      end
  end.

(** One pass through the body of [for attempt in range(max_attempts)]. *)
Definition draw_attempt (r : R) : outcome groups_dict * R :=
  match pot_dict !! "Pot 1" with
  | None => (Raised KeyError, r)
  | Some pot1 =>
      match assign_fixed_hosts FIXED_HOSTS pot1 init_state with
      | None => (Raised KeyError, r)
      | Some (pot1_teams, st1) =>
          let (pot1_teams', r1) := shuffle pot1_teams r in
          match assign_teams "Pot 1" pot1_teams' st1 r1 with
          | (Ok st2, r2) =>
              match draw_pots ["Pot 4"; "Pot 3"; "Pot 2"] st2 r2 with
              | (Ok st3, r3) => (Ok (groups_formed st3), r3)
              | (DeadEnd, r3) => (DeadEnd, r3)
              | (Raised e, r3) => (Raised e, r3)
              end
          | (DeadEnd, r2) => (DeadEnd, r2)
          | (Raised e, r2) => (Raised e, r2)
          end
      end
  end.

(** [for attempt in range(n): ...] then [return None]. *)
Fixpoint attempts_loop (n : nat) (r : R)
  : py_result (option groups_dict) * R :=
  match n with
  | O => (Return None, r)
  | S n' =>
      match draw_attempt r with
      | (Ok groups, r') => (Return (Some groups), r')
      | (DeadEnd, r') => attempts_loop n' r'
      | (Raised e, r') => (Raise e, r')
      end
  end.

(** The generator state at the start of attempt [i]. *)
Fixpoint attempt_rng (i : nat) (r : R) : R :=
  match i with
  | O => r
  | S i' => attempt_rng i' (draw_attempt r).2
  end.

End Engine.

(** [df_pots] is a parameter of the Python function that its body never
    reads; [range(max_attempts)] is empty for a negative bound. *)
Definition simulate_single_draw {R : Type} `{RandomSource R}
    (df_pots : list (string * string))
    (conf_dict pot_dict : gmap string (list string))
    (max_attempts : Z) (r : R) : py_result (option groups_dict) * R :=
  attempts_loop conf_dict pot_dict (Z.to_nat max_attempts) r.

(** ** simulator.py: run_mass_simulation *)

(** [df_pots[df_pots['Team'] == team]['Pot'].values[0]]: the pot of the first
    row of the table whose team is [team]; [None] is the [IndexError] of
    taking element 0 of an empty selection. *)
Fixpoint pot_of (df_pots : list (string * string)) (team : string)
  : option string :=
  match df_pots with
  | [] => None
  | (team', pot) :: rows =>
      if String.eqb team' team then Some pot else pot_of rows team
  end.

(** The key of the frequency table: [(pot2_team, pot3_team, pot4_team)],
    each of them a team or Python's [None]. *)
Definition combination : Type := option string * option string * option string.

(** [for team in teams: ...] with the four variables [pot1_team] ..
    [pot4_team]. *)
Fixpoint identify_pots (df_pots : list (string * string))
    (teams : list string)
    (found : option string * option string * option string * option string)
  : option (option string * option string * option string * option string) :=
  match teams with
  | [] => Some found
  | team :: rest =>
      pot ← pot_of df_pots team;
      let '(pot1_team, pot2_team, pot3_team, pot4_team) := found in
      identify_pots df_pots rest
        (if String.eqb pot "Pot 1" then
           (Some team, pot2_team, pot3_team, pot4_team)
         else if String.eqb pot "Pot 2" then
           (pot1_team, Some team, pot3_team, pot4_team)
         else if String.eqb pot "Pot 3" then
           (pot1_team, pot2_team, Some team, pot4_team)
         else if String.eqb pot "Pot 4" then
           (pot1_team, pot2_team, pot3_team, Some team)
         else found)
  end.

(** [combinations_counter[combination] += 1] on a [defaultdict(int)]. *)
Definition combination_incr (combinations_counter : gmap combination nat)
    (key : combination) : gmap combination nat :=
  <[key := S (default 0 (combinations_counter !! key))]> combinations_counter.

(** [for group, teams in result.items(): if target_team in teams: ...; break];
    [None] is the [IndexError] of the pot lookup. *)
Fixpoint count_target_group (items : groups_dict)
    (df_pots : list (string * string)) (target_team : string)
    (combinations_counter : gmap combination nat)
  : option (gmap combination nat) :=
  match items with
  | [] => Some combinations_counter
  | (group, teams) :: rest =>
      if bool_decide (target_team ∈ teams) then
        '(pot1_team, pot2_team, pot3_team, pot4_team) ←
          identify_pots df_pots teams (None, None, None, None);
        Some (combination_incr combinations_counter
                (pot2_team, pot3_team, pot4_team))
      else count_target_group rest df_pots target_team combinations_counter
  end.

(** The dict the driver returns; [total_time] is wall-clock time and is left
    out, as is the console report. *)
Record SimulationResults : Type := {
  combinations : gmap combination nat;
  successful : nat;
  failed : nat;
}.

(** [if result:] on the value [simulate_single_draw] returned: [None] and the
    empty dict are false. *)
Definition truthy (result : option groups_dict) : bool :=
  match result with
  | Some (_ :: _) => true
  | _ => false
  end.

Section Driver.
Context {R : Type} `{RandomSource R}.
Variable df_pots : list (string * string).
Variable conf_dict : gmap string (list string).
Variable pot_dict : gmap string (list string).
Variable target_team : string.

(** One pass through the body of [for i in range(1, num_simulations + 1)]. *)
Definition simulation_step (acc : SimulationResults) (r : R)
  : py_result SimulationResults * R :=
  match simulate_single_draw df_pots conf_dict pot_dict
          MAX_ATTEMPTS_PER_SIMULATION r with
  | (Raise e, r') => (Raise e, r')
  | (Return result, r') =>
      if truthy result then
        match count_target_group (default [] result) df_pots target_team
                (combinations acc) with
        | None => (Raise IndexError, r')
        | Some combinations_counter =>
            (Return {| combinations := combinations_counter;
                       successful := S (successful acc);
                       failed := failed acc |}, r')
        end
      else
        (Return {| combinations := combinations acc;
                   successful := successful acc;
                   failed := S (failed acc) |}, r')
  end.

Fixpoint simulation_loop (n : nat) (acc : SimulationResults) (r : R)
  : py_result SimulationResults * R :=
  match n with
  | O => (Return acc, r)
  | S n' =>
      match simulation_step acc r with
      | (Return acc', r') => simulation_loop n' acc' r'
      | (Raise e, r') => (Raise e, r')
      end
  end.

End Driver.

(** [range(1, num_simulations + 1)] has [num_simulations] elements, none for
    a negative bound. *)
Definition run_mass_simulation {R : Type} `{RandomSource R}
    (df_pots : list (string * string))
    (conf_dict pot_dict : gmap string (list string))
    (num_simulations : Z) (target_team : string) (r : R)
  : py_result SimulationResults * R :=
  simulation_loop df_pots conf_dict pot_dict target_team
    (Z.to_nat num_simulations)
    {| combinations := ∅; successful := 0; failed := 0 |} r.

(** The sum of all counts of a frequency table. *)
Definition table_total (m : gmap combination nat) : nat :=
  map_fold (λ _ v total, v + total) 0 m.

(** ** Sample data and a first-candidate source *)

#[export] Instance first_pick : RandomSource unit := {|
  shuffle l r := (l, r);
  choice l r := (hd "" l, r);
|}.

(** A source whose state counts the calls made to it and which always
    answers with the first candidate. *)
#[export] Instance counting_first_pick : RandomSource nat := {|
  shuffle l n := (l, S n);
  choice l n := (hd "" l, S n);
|}.

Definition sample_confs : gmap string (list string) :=
  list_to_map
    [("Canada", ["CONCACAF"]); ("Mexico", ["CONCACAF"]);
     ("United States", ["CONCACAF"]); ("Spain", ["UEFA"]);
     ("Argentina", ["CONMEBOL"]); ("France", ["UEFA"]);
     ("England", ["UEFA"]); ("Brazil", ["CONMEBOL"]);
     ("Portugal", ["UEFA"]); ("Netherlands", ["UEFA"]);
     ("Belgium", ["UEFA"]); ("Germany", ["UEFA"]);
     ("Croatia", ["UEFA"]); ("Morocco", ["CAF"]); ("Colombia", ["CONMEBOL"]);
     ("Uruguay", ["CONMEBOL"]); ("Switzerland", ["UEFA"]); ("Japan", ["AFC"]);
     ("Senegal", ["CAF"]); ("Iran", ["AFC"]); ("South Korea", ["AFC"]);
     ("Ecuador", ["CONMEBOL"]); ("Austria", ["UEFA"]); ("Australia", ["AFC"]);
     ("Norway", ["UEFA"]); ("Panama", ["CONCACAF"]); ("Egypt", ["CAF"]);
     ("Algeria", ["CAF"]); ("Scotland", ["UEFA"]); ("Paraguay", ["CONMEBOL"]);
     ("Tunisia", ["CAF"]); ("Ivory Coast", ["CAF"]); ("Uzbekistan", ["AFC"]);
     ("Qatar", ["AFC"]); ("Saudi Arabia", ["AFC"]); ("South Africa", ["CAF"]);
     ("Jordan", ["AFC"]); ("Cape Verde", ["CAF"]); ("Ghana", ["CAF"]);
     ("Curacao", ["CONCACAF"]); ("Haiti", ["CONCACAF"]);
     ("New Zealand", ["OFC"]); ("Playoff A", ["UEFA"]);
     ("Playoff B", ["UEFA"]); ("Playoff C", ["UEFA"]); ("Playoff D", ["UEFA"]);
     ("Playoff 1", ["CONCACAF"; "OFC"]); ("Playoff 2", ["CONMEBOL"; "AFC"])].

Definition sample_pot1 : list string :=
  ["United States"; "Netherlands"; "Mexico"; "Argentina"; "Belgium"; "Spain";
   "England"; "France"; "Portugal"; "Canada"; "Germany"; "Brazil"].
Definition sample_pot2 : list string :=
  ["Croatia"; "Senegal"; "Austria"; "Australia"; "Iran"; "Colombia"; "Japan";
   "Morocco"; "South Korea"; "Switzerland"; "Uruguay"; "Ecuador"].
Definition sample_pot3 : list string :=
  ["Norway"; "Saudi Arabia"; "Uzbekistan"; "South Africa"; "Tunisia";
   "Paraguay"; "Panama"; "Algeria"; "Qatar"; "Egypt"; "Scotland";
   "Ivory Coast"].
Definition sample_pot4 : list string :=
  ["Playoff B"; "Playoff C"; "Curacao"; "New Zealand"; "Playoff D";
   "Playoff 1"; "Cape Verde"; "Playoff 2"; "Ghana"; "Jordan"; "Playoff A";
   "Haiti"].

(** With this order of the teams the first-candidate draw goes through. *)
Definition sample_pots : gmap string (list string) :=
  {[ "Pot 1" := sample_pot1; "Pot 2" := sample_pot2;
     "Pot 3" := sample_pot3; "Pot 4" := sample_pot4 ]}.

(** The same teams in an order on which the first-candidate draw gets
    stuck (Pot 2 runs out of admissible groups). *)
Definition stuck_pots : gmap string (list string) :=
  {[ "Pot 1" := ["Canada"; "Mexico"; "United States"; "Spain"; "Argentina";
                 "France"; "England"; "Brazil"; "Portugal"; "Netherlands";
                 "Belgium"; "Germany"];
     "Pot 2" := ["Croatia"; "Morocco"; "Colombia"; "Uruguay"; "Switzerland";
                 "Japan"; "Senegal"; "Iran"; "South Korea"; "Ecuador";
                 "Austria"; "Australia"];
     "Pot 3" := ["Norway"; "Panama"; "Egypt"; "Algeria"; "Scotland";
                 "Paraguay"; "Tunisia"; "Ivory Coast"; "Uzbekistan"; "Qatar";
                 "Saudi Arabia"; "South Africa"];
     "Pot 4" := ["Jordan"; "Cape Verde"; "Ghana"; "Curacao"; "Haiti";
                 "New Zealand"; "Playoff A"; "Playoff B"; "Playoff C";
                 "Playoff D"; "Playoff 1"; "Playoff 2"] ]}.

(** The team table the sample pots come from. *)
Definition sample_df_pots : list (string * string) :=
  ((λ t, (t, "Pot 1")) <$> sample_pot1) ++ ((λ t, (t, "Pot 2")) <$> sample_pot2)
  ++ ((λ t, (t, "Pot 3")) <$> sample_pot3)
  ++ ((λ t, (t, "Pot 4")) <$> sample_pot4).

(** The draw the first-candidate source produces on the sample data: the
    hosts go to A, B and D, the other teams of Pot 1 to the free groups in
    alphabetical order, then Pot 4, Pot 3 and Pot 2 each to the first group
    that is free for the pot and admissible. *)
Definition sample_draw : groups_dict :=
  [("A", ["Mexico"; "Playoff B"; "Norway"; "Senegal"]);
   ("B", ["Canada"; "Playoff C"; "Saudi Arabia"; "Croatia"]);
   ("C", ["Netherlands"; "Curacao"; "Uzbekistan"; "Austria"]);
   ("D", ["United States"; "New Zealand"; "South Africa"; "Australia"]);
   ("E", ["Argentina"; "Playoff D"; "Tunisia"; "Iran"]);
   ("F", ["Belgium"; "Playoff 1"; "Paraguay"; "Japan"]);
   ("G", ["Spain"; "Cape Verde"; "Panama"; "Colombia"]);
   ("H", ["England"; "Playoff 2"; "Algeria"; "Switzerland"]);
   ("I", ["France"; "Ghana"; "Qatar"; "Uruguay"]);
   ("J", ["Portugal"; "Jordan"; "Egypt"; "Ecuador"]);
   ("K", ["Germany"; "Playoff A"; "Ivory Coast"; "South Korea"]);
   ("L", ["Brazil"; "Haiti"; "Scotland"; "Morocco"])].

(** Pots in which the host Mexico sits in Pot 2 (Croatia takes its place in
    Pot 1). *)
Definition host_in_pot2_pots : gmap string (list string) :=
  {[ "Pot 1" := ["Canada"; "England"; "Netherlands"; "United States";
                 "Germany"; "France"; "Belgium"; "Portugal"; "Spain";
                 "Croatia"; "Argentina"; "Brazil"];
     "Pot 2" := ["Australia"; "Iran"; "Mexico"; "Ecuador"; "South Korea";
                 "Colombia"; "Senegal"; "Uruguay"; "Japan"; "Switzerland";
                 "Morocco"; "Austria"];
     "Pot 3" := ["Paraguay"; "Egypt"; "South Africa"; "Qatar"; "Scotland";
                 "Saudi Arabia"; "Algeria"; "Norway"; "Ivory Coast";
                 "Tunisia"; "Uzbekistan"; "Panama"];
     "Pot 4" := ["Playoff C"; "Curacao"; "Haiti"; "Playoff 1"; "New Zealand";
                 "Cape Verde"; "Playoff B"; "Playoff 2"; "Jordan";
                 "Playoff D"; "Playoff A"; "Ghana"] ]}.

(** The first-candidate draw on these pots: only Canada and the United
    States are seeded; Mexico is drawn with Pot 2 and lands in group G. *)
Definition host_in_pot2_draw : groups_dict :=
  [("A", ["England"; "Playoff C"; "Paraguay"; "Australia"]);
   ("B", ["Canada"; "New Zealand"; "Egypt"; "Iran"]);
   ("C", ["Netherlands"; "Curacao"; "South Africa"; "Ecuador"]);
   ("D", ["United States"; "Cape Verde"; "Qatar"; "Colombia"]);
   ("E", ["Germany"; "Haiti"; "Scotland"; "South Korea"]);
   ("F", ["France"; "Playoff 1"; "Saudi Arabia"; "Senegal"]);
   ("G", ["Belgium"; "Playoff B"; "Algeria"; "Mexico"]);
   ("H", ["Portugal"; "Playoff 2"; "Norway"; "Morocco"]);
   ("I", ["Spain"; "Jordan"; "Ivory Coast"; "Uruguay"]);
   ("J", ["Croatia"; "Playoff D"; "Tunisia"; "Japan"]);
   ("K", ["Argentina"; "Playoff A"; "Uzbekistan"; "Switzerland"]);
   ("L", ["Brazil"; "Ghana"; "Panama"; "Austria"])].

(** A small instance of the same kind: one team in Pot 1 and the three
    hosts behind Japan in Pot 2. *)
Definition small_pots : gmap string (list string) :=
  {[ "Pot 1" := ["Spain"];
     "Pot 2" := ["Japan"; "Mexico"; "Canada"; "United States"];
     "Pot 3" := []; "Pot 4" := [] ]}.

Definition small_draw : groups_dict :=
  [("A", ["Spain"; "Japan"]); ("B", ["Mexico"]); ("C", ["Canada"]);
   ("D", ["United States"]); ("E", []); ("F", []); ("G", []); ("H", []);
   ("I", []); ("J", []); ("K", []); ("L", [])].

(** What the driver returns after 3 runs on the sample data for a tracked
    team that is in no pot. *)
Definition untracked_results : SimulationResults :=
  {| combinations := ∅; successful := 3; failed := 0 |}.

(** What the driver returns after 3 runs on the sample data for the tracked
    team Argentina (group E of [sample_draw]). *)
Definition sample_results : SimulationResults :=
  {| combinations := {[ (Some "Iran", Some "Tunisia", Some "Playoff D") := 3 ]};
     successful := 3; failed := 0 |}.

(** ** Specification-side notions *)

(** How often the label [conf] occurs among the confederation lists of the
    occupants: the value the checker's [conf_counter] holds for it. *)
Definition label_count (conf_dict : gmap string (list string))
    (occupants : list string) (conf : string) : nat :=
  length (filter (λ c, c = conf) (occupants ≫= conf_get conf_dict)).

(** How many occupants carry the label [conf]. *)
Definition teams_carrying (conf_dict : gmap string (list string))
    (occupants : list string) (conf : string) : nat :=
  length (filter (λ team, conf ∈ conf_get conf_dict team) occupants).

Definition conf_cap (conf : string) : nat :=
  if decide (conf = "UEFA") then MAX_UEFA_PER_GROUP
  else MAX_OTHER_CONF_PER_GROUP.

(** The occupants of a group, [groups_formed.get(group, [])]. *)
Definition occupants (groups_formed : groups_dict) (group : string)
  : list string :=
  default [] (dict_lookup groups_formed group).

Definition counter_val (conf_counter : gmap string nat) (conf : string) : nat :=
  default 0 (conf_counter !! conf).

(** A group is open for a team of a pot when the pot has not filled it and
    the checker admits the team. *)
Definition open_for (team pot_name : string) (groups_formed : groups_dict)
    (groups_filled_by_pot : gmap string (gset string))
    (conf_dict : gmap string (list string)) (group : string) : Prop :=
  (group ∉ filled_for groups_filled_by_pot pot_name)
  ∧ can_team_go_to_group team group groups_formed conf_dict = true.

#[export] Instance open_for_dec team pot_name gf filled conf_dict group :
  Decision (open_for team pot_name gf filled conf_dict group).
Proof. unfold open_for. apply _. Defined.

(** ** Invariants of a draw attempt *)

(** No group holds more teams of a label than the label's cap. *)
Definition caps_ok (conf_dict : gmap string (list string))
    (formed : groups_dict) : Prop :=
  ∀ group conf,
    teams_carrying conf_dict (occupants formed group) conf ≤ conf_cap conf.

(** [phase pot_name b placed st]: state [st] is reached from [b] by placing
    the teams [placed], all as teams of pot [pot_name], each into a group of
    [GROUPS] the pot had not filled before. *)
Record phase (pot_name : string) (b : DrawState) (placed : list string)
    (st : DrawState) : Prop := {
  phase_keys :
    dict_keys (groups_formed st) = dict_keys (groups_formed b);
  phase_dom :
    dom (groups_filled_by_pot st) = dom (groups_filled_by_pot b);
  phase_other : ∀ p, p ≠ pot_name →
    filled_for (groups_filled_by_pot st) p
    = filled_for (groups_filled_by_pot b) p;
  phase_base : filled_for (groups_filled_by_pot b) pot_name
               ⊆ filled_for (groups_filled_by_pot st) pot_name;
  phase_in_groups : ∀ g,
    g ∈ filled_for (groups_filled_by_pot st) pot_name →
    g ∉ filled_for (groups_filled_by_pot b) pot_name → g ∈ GROUPS;
  phase_size :
    size (filled_for (groups_filled_by_pot st) pot_name)
    = size (filled_for (groups_filled_by_pot b) pot_name) + length placed;
  phase_new : ∀ g,
    g ∈ filled_for (groups_filled_by_pot st) pot_name →
    g ∉ filled_for (groups_filled_by_pot b) pot_name →
    ∃ t, t ∈ placed
         ∧ occupants (groups_formed st) g
           = occupants (groups_formed b) g ++ [t];
  phase_old : ∀ g,
    g ∈ filled_for (groups_filled_by_pot b) pot_name
    ∨ g ∉ filled_for (groups_filled_by_pot st) pot_name →
    occupants (groups_formed st) g = occupants (groups_formed b) g;
  phase_cover : ∀ t, t ∈ placed →
    ∃ g, g ∈ GROUPS
         ∧ occupants (groups_formed st) g
           = occupants (groups_formed b) g ++ [t];
}.

(** Shuffle the teams of a pot and place them one by one. *)
Definition fill_pot {R : Type} `{RandomSource R}
    (conf_dict : gmap string (list string)) (pot_name : string)
    (teams : list string) (st : DrawState) (r : R) : outcome DrawState * R :=
  let (pot_teams, r1) := shuffle teams r in
  assign_teams conf_dict pot_name pot_teams st r1.

(** The stages of an attempt that ran through: the hosts, then the pots in
    the order 1, 4, 3, 2, each starting from the state and the generator the
    stage before it left. *)
Inductive attempt_stages {R : Type} `{RandomSource R}
    (conf_dict pot_dict : gmap string (list string)) (r : R)
  : groups_dict → R → Prop :=
  | AttemptStages pot1 pot4 pot3 pot2 rest seeded after1 after4 after3 after2
        r1 r4 r3 r2 :
      pot_dict !! "Pot 1" = Some pot1 →
      pot_dict !! "Pot 4" = Some pot4 →
      pot_dict !! "Pot 3" = Some pot3 →
      pot_dict !! "Pot 2" = Some pot2 →
      assign_fixed_hosts FIXED_HOSTS pot1 init_state = Some (rest, seeded) →
      fill_pot conf_dict "Pot 1" rest seeded r = (Ok after1, r1) →
      fill_pot conf_dict "Pot 4" pot4 after1 r1 = (Ok after4, r4) →
      fill_pot conf_dict "Pot 3" pot3 after4 r4 = (Ok after3, r3) →
      fill_pot conf_dict "Pot 2" pot2 after3 r3 = (Ok after2, r2) →
      attempt_stages conf_dict pot_dict r (groups_formed after2) r2.

(** The stage at which an attempt gets stuck: a pot whose placement loop
    breaks after the stages before it ran through. *)
Inductive attempt_stuck {R : Type} `{RandomSource R}
    (conf_dict pot_dict : gmap string (list string)) (r : R) : R → Prop :=
  | StuckPot1 pot1 rest seeded r1 :
      pot_dict !! "Pot 1" = Some pot1 →
      assign_fixed_hosts FIXED_HOSTS pot1 init_state = Some (rest, seeded) →
      fill_pot conf_dict "Pot 1" rest seeded r = (DeadEnd, r1) →
      attempt_stuck conf_dict pot_dict r r1
  | StuckPot4 pot1 pot4 rest seeded after1 r1 r4 :
      pot_dict !! "Pot 1" = Some pot1 →
      pot_dict !! "Pot 4" = Some pot4 →
      assign_fixed_hosts FIXED_HOSTS pot1 init_state = Some (rest, seeded) →
      fill_pot conf_dict "Pot 1" rest seeded r = (Ok after1, r1) →
      fill_pot conf_dict "Pot 4" pot4 after1 r1 = (DeadEnd, r4) →
      attempt_stuck conf_dict pot_dict r r4
  | StuckPot3 pot1 pot4 pot3 rest seeded after1 after4 r1 r4 r3 :
      pot_dict !! "Pot 1" = Some pot1 →
      pot_dict !! "Pot 4" = Some pot4 →
      pot_dict !! "Pot 3" = Some pot3 →
      assign_fixed_hosts FIXED_HOSTS pot1 init_state = Some (rest, seeded) →
      fill_pot conf_dict "Pot 1" rest seeded r = (Ok after1, r1) →
      fill_pot conf_dict "Pot 4" pot4 after1 r1 = (Ok after4, r4) →
      fill_pot conf_dict "Pot 3" pot3 after4 r4 = (DeadEnd, r3) →
      attempt_stuck conf_dict pot_dict r r3
  | StuckPot2 pot1 pot4 pot3 pot2 rest seeded after1 after4 after3
        r1 r4 r3 r2 :
      pot_dict !! "Pot 1" = Some pot1 →
      pot_dict !! "Pot 4" = Some pot4 →
      pot_dict !! "Pot 3" = Some pot3 →
      pot_dict !! "Pot 2" = Some pot2 →
      assign_fixed_hosts FIXED_HOSTS pot1 init_state = Some (rest, seeded) →
      fill_pot conf_dict "Pot 1" rest seeded r = (Ok after1, r1) →
      fill_pot conf_dict "Pot 4" pot4 after1 r1 = (Ok after4, r4) →
      fill_pot conf_dict "Pot 3" pot3 after4 r4 = (Ok after3, r3) →
      fill_pot conf_dict "Pot 2" pot2 after3 r3 = (DeadEnd, r2) →
      attempt_stuck conf_dict pot_dict r r2.

(** What an attempt that ran through has established. *)
Inductive attempt_summary
    (conf_dict pot_dict : gmap string (list string)) : groups_dict → Prop :=
  | AttemptSummary pot1 pot4 pot3 pot2 placed1 placed4 placed3 placed2
        after1 after4 after3 after2 :
      pot_dict !! "Pot 1" = Some pot1 →
      pot_dict !! "Pot 4" = Some pot4 →
      pot_dict !! "Pot 3" = Some pot3 →
      pot_dict !! "Pot 2" = Some pot2 →
      placed1 ≡ₚ pot1 → placed4 ≡ₚ pot4 →
      placed3 ≡ₚ pot3 → placed2 ≡ₚ pot2 →
      phase "Pot 1" init_state placed1 after1 →
      phase "Pot 4" after1 placed4 after4 →
      phase "Pot 3" after4 placed3 after3 →
      phase "Pot 2" after3 placed2 after2 →
      caps_ok conf_dict (groups_formed after2) →
      (∀ host g, (host, g) ∈ FIXED_HOSTS → host ∈ pot1 →
         [host] `prefix_of` occupants (groups_formed after2) g) →
      attempt_summary conf_dict pot_dict (groups_formed after2).

(** The placement loop of a pot meets a team without available group: the
    teams before it were placed, and the resolver returns the empty list
    for it. *)
Definition dead_end_at {R : Type} `{RandomSource R}
    (conf_dict : gmap string (list string)) (pot_name : string)
    (pot_teams : list string) (st : DrawState) (r r' : R) : Prop :=
  ∃ before team after st0,
    pot_teams = before ++ team :: after
    ∧ assign_teams conf_dict pot_name before st r = (Ok st0, r')
    ∧ get_available_groups_for_team team pot_name (groups_formed st0)
        (groups_filled_by_pot st0) conf_dict = [].

(** Which group lists of an assignment come from which pot, in the order in
    which the pots were drawn. *)
Definition drawn_in_order (pot_dict : gmap string (list string))
    (formed : groups_dict) (group : string) : Prop :=
  ∃ pot1 pot4 pot3 pot2 seg1 seg4 seg3 seg2,
    pot_dict !! "Pot 1" = Some pot1 ∧ pot_dict !! "Pot 4" = Some pot4
    ∧ pot_dict !! "Pot 3" = Some pot3 ∧ pot_dict !! "Pot 2" = Some pot2
    ∧ occupants formed group = seg1 ++ seg4 ++ seg3 ++ seg2
    ∧ (length seg1 ≤ 1 ∧ length seg4 ≤ 1 ∧ length seg3 ≤ 1 ∧ length seg2 ≤ 1)
    ∧ (∀ t, t ∈ seg1 → t ∈ pot1) ∧ (∀ t, t ∈ seg4 → t ∈ pot4)
    ∧ (∀ t, t ∈ seg3 → t ∈ pot3) ∧ (∀ t, t ∈ seg2 → t ∈ pot2).

(** ** Further notions for the engine *)

(** All teams of an assignment, group after group. *)
Definition all_occupants (formed : groups_dict) : list string :=
  formed ≫= snd.

(** The draw state has the twelve groups as keys and a filled set for each
    of the four pots. *)
Definition well_keyed (st : DrawState) : Prop :=
  dict_keys (groups_formed st) = GROUPS
  ∧ ∀ pot_name, pot_name ∈ ["Pot 1"; "Pot 2"; "Pot 3"; "Pot 4"] →
      pot_name ∈ dom (groups_filled_by_pot st).

(** A key of the frequency table names a team of Pot 2, of Pot 3 and of
    Pot 4. *)
Definition key_from_pots (pot2 pot3 pot4 : list string) (key : combination)
  : Prop :=
  ∃ t2 t3 t4, key = (Some t2, Some t3, Some t4)
              ∧ t2 ∈ pot2 ∧ t3 ∈ pot3 ∧ t4 ∈ pot4.

(** ** data_loader.py

    A DataFrame of two string columns is the list of its rows: [(Team, Pot)]
    for the pots table, [(Team, Confederation)] for the confederations
    table. *)

(** [Series.unique()]: the distinct values in the order of their first
    appearance. *)
Fixpoint unique_from (seen : gset string) (values : list string)
  : list string :=
  match values with
  | [] => []
  | x :: rest =>
      if bool_decide (x ∈ seen) then unique_from seen rest
      else x :: unique_from ({[x]} ∪ seen) rest
  end.

Definition unique (values : list string) : list string :=
  unique_from ∅ values.

(** [df[df['Team'] == team]['Confederation'].tolist()] *)
Definition confederations_of (df_confederations : list (string * string))
    (team : string) : list string :=
  (filter (λ row, row.1 = team) df_confederations).*2.

(** [df[df['Pot'] == pot]['Team'].tolist()] *)
Definition teams_of_pot (df_pots : list (string * string)) (pot : string)
  : list string :=
  (filter (λ row, row.2 = pot) df_pots).*1.

Definition create_confederation_dict
    (df_confederations : list (string * string))
  : gmap string (list string) :=
  foldl (λ conf_dict team,
           <[team := confederations_of df_confederations team]> conf_dict)
    ∅ (unique df_confederations.*1).

Definition create_pot_dict (df_pots : list (string * string))
  : gmap string (list string) :=
  foldl (λ pot_dict pot, <[pot := teams_of_pot df_pots pot]> pot_dict)
    ∅ (unique df_pots.*2).

(** The last loop of [validate_data]: every fixed host must occur in the
    Team column; [None] is the [ValueError] raised otherwise. *)
Fixpoint verify_fixed_hosts (hosts : list (string * string))
    (df_pots : list (string * string)) : option unit :=
  match hosts with
  | [] => Some ()
  | (host, group) :: rest =>
      if bool_decide (host ∈ df_pots.*1) then verify_fixed_hosts rest df_pots
      else None
  end.

(** [validate_data] without its console report: [Some true] when it
    returns, [None] when it raises [ValueError] (a pot team without
    confederation, or a fixed host that is in no pot). *)
Definition validate_data (df_pots df_confederations : list (string * string))
  : option bool :=
  let teams_pots_set : gset string := list_to_set (unique df_pots.*1) in
  let teams_conf_set : gset string :=
    list_to_set (unique df_confederations.*1) in
  let missing_teams := teams_pots_set ∖ teams_conf_set in
  if bool_decide (0 < size missing_teams) then None
  else
    _ ← verify_fixed_hosts FIXED_HOSTS df_pots;
    Some true.

(** A small pots table and its confederations table; the play-off team has
    two confederation rows. *)
Definition small_df_pots : list (string * string) :=
  [("Mexico", "Pot 1"); ("Canada", "Pot 1"); ("United States", "Pot 1");
   ("Spain", "Pot 1"); ("Japan", "Pot 2"); ("Playoff 1", "Pot 4")].

Definition small_df_confederations : list (string * string) :=
  [("Mexico", "CONCACAF"); ("Canada", "CONCACAF");
   ("United States", "CONCACAF"); ("Spain", "UEFA"); ("Japan", "AFC");
   ("Playoff 1", "CONCACAF"); ("Playoff 1", "OFC")].

(** The pots table gives every team of the four pots of [pot_dict] the pot
    that lists it. *)
Definition table_agrees (df_pots : list (string * string))
    (pot_dict : gmap string (list string)) : Prop :=
  ∀ pot_name teams team,
    pot_name ∈ ["Pot 1"; "Pot 2"; "Pot 3"; "Pot 4"] →
    pot_dict !! pot_name = Some teams →
    team ∈ teams →
    pot_of df_pots team = Some pot_name.

(** * Properties *)

(** ** Runs on the sample data *)

Lemma sample_draw_run :
  simulate_single_draw sample_df_pots sample_confs sample_pots
    MAX_ATTEMPTS_PER_SIMULATION tt = (Return (Some sample_draw), tt).
Proof. vm_compute. reflexivity. Qed.

Lemma stuck_pots_run :
  draw_attempt sample_confs stuck_pots tt = (DeadEnd, tt)
  ∧ simulate_single_draw sample_df_pots sample_confs stuck_pots 3 tt
    = (Return None, tt).
Proof. split; vm_compute; reflexivity. Qed.

Lemma host_in_pot2_run :
  simulate_single_draw [] sample_confs host_in_pot2_pots 1 tt
  = (Return (Some host_in_pot2_draw), tt).
Proof. vm_compute. reflexivity. Qed.

Lemma small_pots_run :
  simulate_single_draw [] sample_confs small_pots 1 tt
  = (Return (Some small_draw), tt).
Proof. vm_compute. reflexivity. Qed.

Lemma untracked_run :
  run_mass_simulation sample_df_pots sample_confs sample_pots 3 "Atlantis" tt
  = (Return untracked_results, tt).
Proof. vm_compute. reflexivity. Qed.

Lemma sample_results_run :
  run_mass_simulation sample_df_pots sample_confs sample_pots 3 "Argentina" tt
  = (Return sample_results, tt).
Proof. vm_compute. reflexivity. Qed.

(** ** The checker *)

Lemma counter_incr_val cc conf c :
  counter_val (counter_incr cc conf) c
  = counter_val cc c + (if decide (conf = c) then 1 else 0).
Proof.
  unfold counter_val, counter_incr.
  destruct (decide (conf = c)) as [->|Hne].
  - rewrite lookup_insert_eq. simpl. lia.
  - rewrite lookup_insert_ne by done. lia.
Qed.

Lemma counter_incr_fold confs : ∀ cc c,
  counter_val (foldl counter_incr cc confs) c
  = counter_val cc c + length (filter (λ c', c' = c) confs).
Proof.
  induction confs as [|conf confs IH]; intros cc c; simpl.
  - lia.
  - rewrite IH, counter_incr_val, filter_cons.
    destruct (decide (conf = c)); simpl; lia.
Qed.

Lemma counter_read_fst cc conf : (counter_read cc conf).1 = counter_val cc conf.
Proof.
  unfold counter_read, counter_val. by destruct (cc !! conf).
Qed.

Lemma counter_read_snd cc conf c :
  counter_val (counter_read cc conf).2 c = counter_val cc c.
Proof.
  unfold counter_read, counter_val.
  destruct (cc !! conf) eqn:E; simpl; [done|].
  destruct (decide (conf = c)) as [->|Hne].
  - by rewrite lookup_insert_eq, E.
  - by rewrite lookup_insert_ne.
Qed.

Lemma check_caps_spec confs : ∀ cc,
  check_caps confs cc = true
  ↔ ∀ conf, conf ∈ confs → counter_val cc conf < conf_cap conf.
Proof.
  induction confs as [|conf confs IH]; intros cc; cbn [check_caps].
  - split; [intros _ c Hc; by apply elem_of_nil in Hc | done].
  - pose proof (counter_read_fst cc conf) as Hn.
    pose proof (counter_read_snd cc conf) as Hcc.
    destruct (counter_read cc conf) as [n cc']; cbn [fst snd] in *.
    assert (Hrest : check_caps confs cc' = true
                    ↔ ∀ c, c ∈ confs → counter_val cc c < conf_cap c).
    { rewrite IH. by setoid_rewrite Hcc. }
    assert (Hhead : ∀ cap, conf_cap conf = cap →
              (if (cap <=? n)%nat then false else check_caps confs cc') = true
              ↔ ∀ c, c ∈ conf :: confs → counter_val cc c < conf_cap c).
    { intros cap Hcap. destruct (Nat.leb_spec cap n) as [Hle|Hlt].
      - split; [done|]. intros Hall.
        assert (counter_val cc conf < conf_cap conf) by (apply Hall; left).
        lia.
      - rewrite Hrest. split.
        + intros Hall c [->|Hc]%elem_of_cons; [lia | auto].
        + intros Hall c Hc. apply Hall. by right. }
    unfold conf_cap in Hhead at 1.
    destruct (String.eqb_spec conf "UEFA") as [HU|HU];
      destruct (decide (conf = "UEFA")); try done; by apply Hhead.
Qed.

Lemma st_bind_run {S A B} (m : St S A) (k : A → St S B) s :
  st_bind m k s = let (a, s') := m s in k a s'.
Proof. reflexivity. Qed.

Lemma count_loop_spec conf_dict (a : CheckerArgs) teams : ∀ cc,
  arg_conf_dict a = conf_dict →
  ∃ cc', st_foreach teams cc
           (λ existing_team conf_counter,
              existing_confs ←ₛ
                st_gets (λ a, conf_get (arg_conf_dict a) existing_team);
              st_ret (foldl counter_incr conf_counter existing_confs)) a
         = (cc', a)
         ∧ ∀ c, counter_val cc' c = counter_val cc c + label_count conf_dict teams c.
Proof.
  intros cc <-. revert cc.
  induction teams as [|team teams IH]; intros cc.
  - exists cc. split; [done|]. intros c. unfold label_count. simpl. lia.
  - destruct (IH (foldl counter_incr cc (conf_get (arg_conf_dict a) team)))
      as (cc' & Hrun & Hval).
    exists cc'. split.
    + cbn [st_foreach]. unfold st_bind at 1. unfold st_bind at 1.
      unfold st_gets, st_ret. exact Hrun.
    + intros c. rewrite Hval, counter_incr_fold. unfold label_count.
      cbn [mbind list_bind]. rewrite filter_app, length_app. lia.
Qed.

Lemma can_team_go_to_group_st_run team group (a : CheckerArgs) :
  can_team_go_to_group_st team group a
  = (can_team_go_to_group team group (arg_groups_formed a) (arg_conf_dict a), a).
Proof.
  assert (Hsnd : (can_team_go_to_group_st team group a).2 = a).
  { unfold can_team_go_to_group_st, st_bind at 1, st_gets at 1.
    destruct (conf_get (arg_conf_dict a) team) as [|c confs]; [done|].
    unfold st_bind at 1, st_gets at 1.
    destruct (count_loop_spec (arg_conf_dict a) a
                (default [] (dict_lookup (arg_groups_formed a) group))
                ∅ eq_refl) as (cc' & Hrun & _).
    rewrite st_bind_run, Hrun. done. }
  unfold can_team_go_to_group. destruct a as [gf cd]; simpl in *.
  destruct (can_team_go_to_group_st team group _) as [b a']; simpl in *.
  by subst.
Qed.

Lemma can_team_go_to_group_spec team group groups_formed conf_dict :
  can_team_go_to_group team group groups_formed conf_dict = true
  ↔ ∀ conf, conf ∈ conf_get conf_dict team →
      label_count conf_dict (occupants groups_formed group) conf < conf_cap conf.
Proof.
  unfold can_team_go_to_group, can_team_go_to_group_st.
  unfold st_bind at 1, st_gets at 1. cbn [arg_conf_dict].
  destruct (conf_get conf_dict team) as [|c confs] eqn:Hconfs.
  { split; [|done]. intros _ conf Hc. by apply elem_of_nil in Hc. }
  unfold st_bind at 1, st_gets at 1. cbn [arg_groups_formed].
  set (a := {| arg_groups_formed := groups_formed; arg_conf_dict := conf_dict |}).
  destruct (count_loop_spec conf_dict a
              (default [] (dict_lookup groups_formed group)) ∅ eq_refl)
    as (cc' & Hrun & Hval).
  rewrite st_bind_run, Hrun. unfold st_ret. cbn [fst].
  rewrite check_caps_spec. unfold occupants.
  assert (Hv : ∀ c, counter_val cc' c
                 = label_count conf_dict
                     (default [] (dict_lookup groups_formed group)) c).
  { intros c'. rewrite Hval. unfold counter_val. by rewrite lookup_empty. }
  by setoid_rewrite Hv.
Qed.

(** ** The ordered dict *)

Lemma dict_lookup_keys d k : is_Some (dict_lookup d k) ↔ k ∈ dict_keys d.
Proof.
  unfold dict_keys. induction d as [|[k' v] d IH]; csimpl.
  - split; [by intros [? ?] | by intros ?%elem_of_nil].
  - destruct (String.eqb_spec k' k) as [->|Hne].
    + split; [intros _; left | eauto].
    + rewrite IH. split; [by right|].
      intros [?|?]%elem_of_cons; [congruence | done].
Qed.

Lemma dict_append_Some d k x :
  k ∈ dict_keys d → is_Some (dict_append d k x).
Proof.
  unfold dict_keys. induction d as [|[k' v] d IH]; csimpl.
  - by intros ?%elem_of_nil.
  - intros Hk. destruct (String.eqb_spec k' k) as [->|Hne]; [eauto|].
    apply elem_of_cons in Hk as [?|Hk]; [congruence|].
    destruct (IH Hk) as [d' ->]. csimpl. eauto.
Qed.

Lemma dict_append_keys d k x d' :
  dict_append d k x = Some d' → dict_keys d' = dict_keys d ∧ k ∈ dict_keys d.
Proof.
  unfold dict_keys. revert d'.
  induction d as [|[k' v] d IH]; intros d'; csimpl; [done|].
  destruct (String.eqb_spec k' k) as [->|Hne].
  - intros [= <-]. csimpl. split; [done | left].
  - destruct (dict_append d k x) as [d''|] eqn:E; csimpl; [|done].
    intros [= <-]. destruct (IH d'' eq_refl) as [Heq ?]. csimpl.
    rewrite Heq. split; [done | by right].
Qed.

Lemma dict_append_lookup d k x d' k' :
  dict_append d k x = Some d' →
  dict_lookup d' k'
  = if decide (k' = k) then (λ v, v ++ [x]) <$> dict_lookup d k
    else dict_lookup d k'.
Proof.
  revert d'. induction d as [|[k0 v] d IH]; intros d'; simpl; [done|].
  destruct (String.eqb_spec k0 k) as [->|Hne].
  - intros [= <-]. simpl. destruct (decide (k' = k)) as [->|Hne'].
    + by rewrite String.eqb_refl.
    + destruct (String.eqb_spec k k'); [congruence | done].
  - destruct (dict_append d k x) as [d''|] eqn:E; simpl; [|done].
    intros [= <-]. simpl. specialize (IH d'' eq_refl).
    destruct (String.eqb_spec k0 k') as [->|Hne'].
    + destruct (decide (k' = k)); [congruence | done].
    + exact IH.
Qed.

Lemma occupants_append d k x d' k' :
  dict_append d k x = Some d' →
  occupants d' k' = if decide (k' = k) then occupants d k ++ [x]
                    else occupants d k'.
Proof.
  intros Happ. unfold occupants. rewrite (dict_append_lookup _ _ _ _ _ Happ).
  destruct (decide (k' = k)) as [->|]; [|done].
  apply dict_append_keys in Happ as [_ Hk].
  apply dict_lookup_keys in Hk as [v ->]. done.
Qed.

Lemma dict_lookup_occupants d k :
  k ∈ dict_keys d → dict_lookup d k = Some (occupants d k).
Proof.
  intros [v Hv]%dict_lookup_keys. unfold occupants. by rewrite Hv.
Qed.

Lemma elem_of_remove_first_ne x y l :
  x ≠ y → y ∈ remove_first x l ↔ y ∈ l.
Proof.
  intros Hne. induction l as [|z l IH]; simpl; [done|].
  destruct (String.eqb_spec z x) as [->|Hzx].
  - rewrite elem_of_cons. split; [by right|]. by intros [?|?].
  - rewrite !elem_of_cons, IH. done.
Qed.

Lemma remove_first_perm x l : x ∈ l → l ≡ₚ x :: remove_first x l.
Proof.
  induction l as [|z l IH]; simpl.
  - by intros ?%elem_of_nil.
  - destruct (String.eqb_spec z x) as [->|Hzx]; [done|].
    intros [?|Hin]%elem_of_cons; [congruence|].
    etrans; [apply Permutation_skip, (IH Hin) | apply Permutation_swap].
Qed.

(** ** The resolver *)

Lemma available_loop_filter team pot_name gf filled conf_dict groups :
  ∀ acc,
  available_loop groups team pot_name gf filled conf_dict acc
  = acc ++ filter (open_for team pot_name gf filled conf_dict) groups.
Proof.
  induction groups as [|g groups IH]; intros acc; simpl.
  - by rewrite app_nil_r.
  - rewrite filter_cons. case_bool_decide as Hfilled.
    + rewrite IH. destruct (decide _) as [[? _]|_]; done.
    + destruct (can_team_go_to_group team g gf conf_dict) eqn:Hcan.
      * rewrite IH. destruct (decide _) as [_|Hno].
        -- by rewrite <- app_assoc.
        -- exfalso. by apply Hno.
      * rewrite IH. destruct (decide _) as [[_ ?]|_]; [congruence | done].
Qed.

Lemma get_available_filter team pot_name gf filled conf_dict :
  get_available_groups_for_team team pot_name gf filled conf_dict
  = filter (open_for team pot_name gf filled conf_dict) GROUPS.
Proof. unfold get_available_groups_for_team. by rewrite available_loop_filter. Qed.

Lemma elem_of_get_available team pot_name gf filled conf_dict g :
  g ∈ get_available_groups_for_team team pot_name gf filled conf_dict
  ↔ g ∈ GROUPS ∧ (g ∉ filled_for filled pot_name)
    ∧ can_team_go_to_group team g gf conf_dict = true.
Proof.
  rewrite get_available_filter.
  rewrite (list_elem_of_filter (open_for team pot_name gf filled conf_dict)).
  unfold open_for. tauto.
Qed.

Lemma GROUPS_NoDup : NoDup GROUPS.
Proof. compute_done. Qed.

Lemma GROUPS_sorted :
  StronglySorted (λ g g', String.leb g g' = true) GROUPS.
Proof.
  unfold GROUPS. repeat (constructor; [|repeat constructor; done]). constructor.
Qed.

Lemma filter_head_least {A} (Rel : relation A) (P : A → Prop)
    `{∀ x, Decision (P x)} (l : list A) first rest :
  StronglySorted Rel l →
  filter P l = first :: rest →
  ∀ x, x ∈ l → P x → x = first ∨ Rel first x.
Proof.
  induction 1 as [|y l Hsorted IH Hall]; [done|].
  rewrite filter_cons. destruct (decide (P y)) as [Hy|Hy].
  - intros [= <- _] x [->|Hx]%elem_of_cons _; [by left|].
    right. rewrite Forall_forall in Hall. by apply Hall.
  - intros Hfilter x [->|Hx]%elem_of_cons Hpx; [done | by apply IH].
Qed.

(** C3: the checker admits a team exactly when the team carries no label
    (it is absent from [conf_dict] or has an empty list there), or every
    label it carries is counted among the group's occupants fewer than 2
    times for UEFA and fewer than 1 time otherwise; and the call leaves
    both dict arguments as they were. *)
Theorem can_team_go_to_group_iff team group groups_formed conf_dict :
  let a := {| arg_groups_formed := groups_formed;
              arg_conf_dict := conf_dict |} in
  (can_team_go_to_group team group groups_formed conf_dict = true
   ↔ conf_get conf_dict team = []
     ∨ ∀ conf, conf ∈ conf_get conf_dict team →
         (conf = "UEFA" →
          label_count conf_dict (occupants groups_formed group) conf < 2)
         ∧ (conf ≠ "UEFA" →
            label_count conf_dict (occupants groups_formed group) conf < 1))
  ∧ (conf_dict !! team = None → conf_get conf_dict team = [])
  ∧ (can_team_go_to_group_st team group a).2 = a.
Proof.
  intros a. split; [|split].
  - rewrite can_team_go_to_group_spec. unfold conf_cap. split.
    + intros Hall. right. intros conf Hconf. specialize (Hall conf Hconf).
      destruct (decide (conf = "UEFA")); split; intros ?; done.
    + intros [Hempty|Hall] conf Hconf.
      * rewrite Hempty in Hconf. by apply elem_of_nil in Hconf.
      * destruct (Hall conf Hconf) as [HU HO].
        destruct (decide (conf = "UEFA")); [by apply HU | by apply HO].
  - intros Hnone. unfold conf_get. by rewrite Hnone.
  - by rewrite can_team_go_to_group_st_run.
Qed.

(** C5: the resolver returns exactly the group labels of [GROUPS] (there are
    12) that the team's pot has not filled and that the checker admits for
    the team against the group's occupants; the result is empty exactly
    when no group qualifies, which does happen. *)
Theorem get_available_groups_for_team_exact team pot_name formed filled
    conf_dict :
  let available :=
    get_available_groups_for_team team pot_name formed filled conf_dict in
  (∀ group, group ∈ available
            ↔ group ∈ GROUPS
              ∧ (group ∉ filled_for filled pot_name)
              ∧ can_team_go_to_group team group formed conf_dict = true)
  ∧ length GROUPS = 12
  ∧ (available = []
     ↔ ∀ group, group ∈ GROUPS →
         group ∈ filled_for filled pot_name
         ∨ can_team_go_to_group team group formed conf_dict = false)
  ∧ get_available_groups_for_team "Spain" "Pot 1" (groups_formed init_state)
      {[ "Pot 1" := list_to_set GROUPS ]} sample_confs = [].
Proof.
  intros available. split; [|split; [|split]].
  - intros group. apply elem_of_get_available.
  - done.
  - split.
    + intros Hnil group Hgroup.
      destruct (decide (group ∈ filled_for filled pot_name))
        as [?|Hnot]; [by left|].
      destruct (can_team_go_to_group team group formed conf_dict) eqn:E;
        [|by right].
      assert (group ∈ available) as Hin by by apply elem_of_get_available.
      rewrite Hnil in Hin. by apply elem_of_nil in Hin.
    + intros Hall. destruct available as [|g l] eqn:E; [done|].
      assert (g ∈ available) as Hin by (rewrite E; left).
      apply elem_of_get_available in Hin as (Hg & Hnot & Hcan).
      destruct (Hall g Hg); [done | congruence].
  - vm_compute. done.
Qed.

(** C10: the resolver's result has no duplicates and lists its groups in the
    order of [GROUPS] (it is [GROUPS] filtered in one pass), so the head of a
    non-empty result is the alphabetically earliest group that is unfilled
    for the pot and admissible for the team. *)
Theorem get_available_groups_for_team_ordered team pot_name formed filled
    conf_dict :
  let available :=
    get_available_groups_for_team team pot_name formed filled conf_dict in
  NoDup available
  ∧ sublist available GROUPS
  ∧ available
    = filter (open_for team pot_name formed filled conf_dict) GROUPS
  ∧ ∀ first rest, available = first :: rest →
      ∀ group, group ∈ GROUPS →
        group ∉ filled_for filled pot_name →
        can_team_go_to_group team group formed conf_dict = true →
        String.leb first group = true.
Proof.
  intros available. subst available. rewrite get_available_filter.
  split; [|split; [|split]].
  - apply NoDup_filter, GROUPS_NoDup.
  - apply sublist_filter.
  - done.
  - intros first rest Hhead group Hgroup Hnot Hcan.
    destruct (filter_head_least _ _ _ _ _ GROUPS_sorted Hhead group Hgroup)
      as [->|Hle]; [by split | | done].
    assert (Hrefl : Forall (λ g, String.leb g g = true) GROUPS)
      by compute_done.
    rewrite Forall_forall in Hrefl. apply Hrefl.
    assert (first ∈ filter (open_for team pot_name formed filled conf_dict) GROUPS) as Hin.
    { rewrite Hhead. left. }
    apply list_elem_of_filter in Hin. tauto.
Qed.

(** ** Placements and the phase of a pot *)

Lemma place_spec team pot_name g st st' :
  place team pot_name g st = Some st' →
  dict_keys (groups_formed st') = dict_keys (groups_formed st)
  ∧ g ∈ dict_keys (groups_formed st)
  ∧ (∀ g', occupants (groups_formed st') g'
           = if decide (g' = g) then occupants (groups_formed st) g ++ [team]
             else occupants (groups_formed st) g')
  ∧ dom (groups_filled_by_pot st') = dom (groups_filled_by_pot st)
  ∧ pot_name ∈ dom (groups_filled_by_pot st)
  ∧ (∀ p, filled_for (groups_filled_by_pot st') p
          = if decide (p = pot_name)
            then filled_for (groups_filled_by_pot st) pot_name ∪ {[g]}
            else filled_for (groups_filled_by_pot st) p).
Proof.
  unfold place, filled_add. destruct st as [gf filled]; simpl.
  destruct (dict_append gf g team) as [gf'|] eqn:Happ; simpl; [|done].
  destruct (filled !! pot_name) as [s|] eqn:Hs; simpl; [|done].
  intros [= <-]. simpl.
  destruct (dict_append_keys _ _ _ _ Happ) as [Hkeys Hg].
  split; [done|]. split; [done|]. split.
  { intros g'. by apply occupants_append. }
  split.
  { rewrite dom_insert_L. apply elem_of_dom_2 in Hs.
    apply subseteq_union_1_L. by apply singleton_subseteq_l. }
  split.
  { by apply elem_of_dom_2 in Hs. }
  intros p. unfold filled_for. destruct (decide (p = pot_name)) as [->|Hne].
  - by rewrite lookup_insert_eq, Hs.
  - by rewrite lookup_insert_ne.
Qed.

Lemma place_is_Some team pot_name g st :
  g ∈ dict_keys (groups_formed st) →
  pot_name ∈ dom (groups_filled_by_pot st) →
  is_Some (place team pot_name g st).
Proof.
  intros Hg [s Hs]%elem_of_dom. unfold place, filled_add.
  destruct (dict_append_Some _ _ team Hg) as [gf' ->]. simpl.
  rewrite Hs. simpl. eauto.
Qed.

Lemma phase_refl pot_name b : phase pot_name b [] b.
Proof.
  split.
  - done.
  - done.
  - done.
  - done.
  - done.
  - simpl. lia.
  - intros g Hin Hnot. done.
  - done.
  - intros t Ht. by apply elem_of_nil in Ht.
Qed.

Lemma phase_step pot_name b placed st team g st' :
  phase pot_name b placed st →
  g ∈ GROUPS →
  g ∉ filled_for (groups_filled_by_pot st) pot_name →
  place team pot_name g st = Some st' →
  phase pot_name b (placed ++ [team]) st'.
Proof.
  intros [Hkeys Hdom Hother Hbase Hin Hsize Hnew Hold Hcover] Hg Hfree Hplace.
  destruct (place_spec _ _ _ _ _ Hplace)
    as (Hkeys' & _ & Hocc & Hdom' & _ & Hfilled).
  assert (Hnotb : g ∉ filled_for (groups_filled_by_pot b) pot_name)
    by set_solver.
  split.
  - congruence.
  - congruence.
  - intros p Hp. rewrite Hfilled. destruct (decide (p = pot_name)); [done|].
    by apply Hother.
  - rewrite Hfilled. destruct (decide (pot_name = pot_name)); [|done].
    set_solver.
  - intros g'. rewrite Hfilled.
    destruct (decide (pot_name = pot_name)); [|done].
    intros [Hg'|Hg']%elem_of_union Hnb; [by apply Hin|].
    apply elem_of_singleton in Hg'. by subst.
  - rewrite Hfilled. destruct (decide (pot_name = pot_name)); [|done].
    rewrite size_union by set_solver.
    rewrite size_singleton, length_app, Hsize. simpl. lia.
  - intros g'. rewrite Hfilled, Hocc.
    destruct (decide (pot_name = pot_name)); [|done].
    intros Hg' Hnb. destruct (decide (g' = g)) as [->|Hne].
    + exists team. split; [apply elem_of_app; right; left|].
      by rewrite (Hold g) by by right.
    + apply elem_of_union in Hg' as [Hg'|Hg']; [|set_solver].
      destruct (Hnew g' Hg' Hnb) as (t & Ht & Heq).
      exists t. split; [apply elem_of_app; by left | done].
  - intros g'. rewrite Hfilled, Hocc.
    destruct (decide (pot_name = pot_name)); [|done].
    intros Hcase. destruct (decide (g' = g)) as [->|Hne].
    + destruct Hcase as [?|Hcase]; [done|]. set_solver.
    + apply Hold. destruct Hcase as [?|Hcase]; [by left|]. right. set_solver.
  - intros t [Ht|Ht]%elem_of_app.
    + destruct (Hcover t Ht) as (g' & Hg' & Heq). exists g'.
      split; [done|]. rewrite Hocc.
      destruct (decide (g' = g)) as [->|Hne]; [|done].
      rewrite (Hold g) in Heq by by right.
      exfalso. apply (f_equal length) in Heq. rewrite length_app in Heq.
      simpl in Heq. lia.
    + apply list_elem_of_singleton in Ht as ->. exists g. split; [done|].
      rewrite Hocc. destruct (decide (g = g)); [|done].
      by rewrite (Hold g) by by right.
Qed.

(** When the pot started on no filled group and has placed as many teams as
    there are groups, every group received exactly one of them. *)
Lemma phase_full pot_name b placed st :
  phase pot_name b placed st →
  filled_for (groups_filled_by_pot b) pot_name = ∅ →
  length placed = length GROUPS →
  ∀ g, g ∈ GROUPS →
    ∃ t, t ∈ placed
         ∧ occupants (groups_formed st) g
           = occupants (groups_formed b) g ++ [t].
Proof.
  intros Hph Hempty Hlen g Hg.
  assert (Hall : filled_for (groups_filled_by_pot st) pot_name
                 = list_to_set GROUPS).
  { apply set_subseteq_size_eq.
    - intros g' Hg'. apply elem_of_list_to_set.
      apply (phase_in_groups _ _ _ _ Hph); [done|]. rewrite Hempty. set_solver.
    - rewrite size_list_to_set by apply GROUPS_NoDup.
      rewrite (phase_size _ _ _ _ Hph), Hempty, size_empty. lia. }
  apply (phase_new _ _ _ _ Hph).
  - rewrite Hall. by apply elem_of_list_to_set.
  - rewrite Hempty. set_solver.
Qed.

(** ** Confederation caps *)

Lemma teams_carrying_snoc conf_dict l team conf :
  teams_carrying conf_dict (l ++ [team]) conf
  = teams_carrying conf_dict l conf
    + (if decide (conf ∈ conf_get conf_dict team) then 1 else 0).
Proof.
  unfold teams_carrying. rewrite filter_app, length_app. f_equal.
  rewrite filter_cons, filter_nil. by destruct (decide _).
Qed.

Lemma label_count_cons conf_dict team l conf :
  label_count conf_dict (team :: l) conf
  = length (filter (λ c, c = conf) (conf_get conf_dict team))
    + label_count conf_dict l conf.
Proof.
  unfold label_count. cbn [mbind list_bind]. by rewrite filter_app, length_app.
Qed.

Lemma teams_carrying_le_label_count conf_dict l conf :
  teams_carrying conf_dict l conf ≤ label_count conf_dict l conf.
Proof.
  induction l as [|team l IH]; [done|].
  rewrite label_count_cons. unfold teams_carrying in *.
  rewrite filter_cons. destruct (decide _) as [Hin|Hnot]; simpl; [|lia].
  assert (1 ≤ length (filter (λ c, c = conf) (conf_get conf_dict team))).
  { assert (conf ∈ filter (λ c, c = conf) (conf_get conf_dict team)) as Hc
      by by apply list_elem_of_filter.
    destruct (filter (λ c, c = conf) (conf_get conf_dict team));
      [by apply elem_of_nil in Hc | simpl; lia]. }
  lia.
Qed.

Lemma conf_cap_pos conf : 1 ≤ conf_cap conf.
Proof.
  unfold conf_cap, MAX_UEFA_PER_GROUP, MAX_OTHER_CONF_PER_GROUP.
  destruct (decide _); lia.
Qed.

Lemma caps_step conf_dict team pot_name g st st' :
  caps_ok conf_dict (groups_formed st) →
  can_team_go_to_group team g (groups_formed st) conf_dict = true →
  place team pot_name g st = Some st' →
  caps_ok conf_dict (groups_formed st').
Proof.
  intros Hcaps Hcan Hplace group conf.
  destruct (place_spec _ _ _ _ _ Hplace) as (_ & _ & Hocc & _).
  rewrite Hocc. destruct (decide (group = g)) as [->|Hne]; [|apply Hcaps].
  rewrite teams_carrying_snoc.
  destruct (decide (conf ∈ conf_get conf_dict team)) as [Hin|Hnot].
  - rewrite can_team_go_to_group_spec in Hcan. specialize (Hcan conf Hin).
    pose proof (teams_carrying_le_label_count conf_dict
                  (occupants (groups_formed st) g) conf). lia.
  - specialize (Hcaps g conf). lia.
Qed.

Lemma occupants_init g : occupants (groups_formed init_state) g = [].
Proof.
  unfold occupants, init_state. cbn [groups_formed].
  induction GROUPS as [|g' gs IH]; [done|].
  rewrite fmap_cons. cbn [dict_lookup]. by destruct (String.eqb g' g).
Qed.

(** A state reached from the empty groups within the first pot's phase has
    at most one team per group, which no cap forbids. *)
Lemma caps_after_first_phase conf_dict placed st :
  phase "Pot 1" init_state placed st →
  caps_ok conf_dict (groups_formed st).
Proof.
  intros Hph group conf.
  destruct (decide (group ∈ filled_for (groups_filled_by_pot st) "Pot 1"))
    as [Hin|Hnot].
  - destruct (phase_new _ _ _ _ Hph group Hin) as (t & _ & ->).
    { unfold filled_for. simpl. rewrite lookup_insert_eq. set_solver. }
    rewrite occupants_init. simpl. unfold teams_carrying.
    rewrite filter_cons, filter_nil. pose proof (conf_cap_pos conf).
    destruct (decide _); simpl; lia.
  - rewrite (phase_old _ _ _ _ Hph group) by by right.
    rewrite occupants_init. unfold teams_carrying. simpl. lia.
Qed.

(** ** The placement loop of one pot *)

Section EngineFacts.
Context {R : Type} `{!RandomSource R} `{!RandomSourceLawful R}.
Variable conf_dict : gmap string (list string).
Variable pot_dict : gmap string (list string).

Lemma assign_teams_ind pot_name (I : list string → DrawState → Prop) :
  (∀ placed team st g st',
      I placed st →
      g ∈ get_available_groups_for_team team pot_name (groups_formed st)
            (groups_filled_by_pot st) conf_dict →
      place team pot_name g st = Some st' →
      I (placed ++ [team]) st') →
  ∀ teams placed st r st' r',
    I placed st →
    assign_teams conf_dict pot_name teams st r = (Ok st', r') →
    I (placed ++ teams) st'.
Proof.
  intros Hstep. induction teams as [|team teams IH];
    intros placed st r st' r' HI; simpl.
  - intros [= <- _]. by rewrite app_nil_r.
  - destruct (get_available_groups_for_team _ _ _ _ _) as [|g0 gs] eqn:Hav;
      [done|].
    pose proof (choice_elem (g0 :: gs) r) as Hin.
    destruct (choice (g0 :: gs) r) as [g r1]. simpl in Hin.
    destruct (place team pot_name g st) as [st1|] eqn:Hplace; [|done].
    intros Hrun. rewrite cons_middle, app_assoc.
    apply (IH _ st1 r1 st' r'); [|done].
    apply (Hstep placed team st g st1); [done | | done].
    rewrite Hav. by apply Hin.
Qed.

Lemma assign_teams_phase pot_name b teams placed st r st' r' :
  phase pot_name b placed st →
  assign_teams conf_dict pot_name teams st r = (Ok st', r') →
  phase pot_name b (placed ++ teams) st'.
Proof.
  apply (assign_teams_ind pot_name (λ placed st, phase pot_name b placed st)).
  intros placed0 team st0 g st1 Hph Hav Hplace.
  apply elem_of_get_available in Hav as (Hg & Hfree & _).
  by apply (phase_step _ _ _ st0 team g).
Qed.

Lemma assign_teams_caps pot_name teams st r st' r' :
  caps_ok conf_dict (groups_formed st) →
  assign_teams conf_dict pot_name teams st r = (Ok st', r') →
  caps_ok conf_dict (groups_formed st').
Proof.
  intros Hcaps Hrun.
  apply (assign_teams_ind pot_name
           (λ _ st, caps_ok conf_dict (groups_formed st))
           (λ placed0 team st0 g st1 Hc Hav Hplace,
              caps_step conf_dict team pot_name g st0 st1 Hc
                (proj2 (proj2 (proj1 (elem_of_get_available _ _ _ _ _ _) Hav)))
                Hplace)
           teams [] st r st' r' Hcaps Hrun).
Qed.

End EngineFacts.

(** ** Placing the fixed hosts *)

Lemma assign_fixed_hosts_spec hosts : ∀ pot1 st placed b,
  NoDup hosts.*1 → NoDup hosts.*2 →
  (∀ g, g ∈ hosts.*2 →
        g ∈ GROUPS ∧ g ∉ filled_for (groups_filled_by_pot st) "Pot 1") →
  dict_keys (groups_formed b) = GROUPS →
  "Pot 1" ∈ dom (groups_filled_by_pot b) →
  phase "Pot 1" b placed st →
  ∃ hs rest st',
    assign_fixed_hosts hosts pot1 st = Some (rest, st')
    ∧ phase "Pot 1" b (placed ++ hs) st'
    ∧ pot1 ≡ₚ hs ++ rest
    ∧ (∀ host g, (host, g) ∈ hosts → host ∈ pot1 →
         occupants (groups_formed st') g
         = occupants (groups_formed st) g ++ [host])
    ∧ (∀ g, g ∉ hosts.*2 →
         occupants (groups_formed st') g = occupants (groups_formed st) g
         ∧ (g ∈ filled_for (groups_filled_by_pot st') "Pot 1"
            ↔ g ∈ filled_for (groups_filled_by_pot st) "Pot 1")).
Proof.
  induction hosts as [|[host g] hosts IH];
    intros pot1 st placed b Hnd1 Hnd2 Hfree Hkeys Hdom Hph.
  - exists [], pot1, st. rewrite app_nil_r. split; [done|]. split; [done|].
    split; [done|]. split; [|done].
    intros host g Hin. by apply elem_of_nil in Hin.
  - rewrite fmap_cons in Hnd1, Hnd2, Hfree. cbn [fst snd] in *.
    apply NoDup_cons in Hnd1 as [Hhost Hnd1].
    apply NoDup_cons in Hnd2 as [Hg Hnd2].
    cbn [assign_fixed_hosts]. case_bool_decide as Hin.
    + destruct (Hfree g) as [HgG Hgfree]; [left|].
      destruct (place_is_Some host "Pot 1" g st) as [st1 Hplace].
      { rewrite (phase_keys _ _ _ _ Hph), Hkeys. done. }
      { by rewrite (phase_dom _ _ _ _ Hph). }
      rewrite Hplace. cbn [mbind option_bind].
      destruct (place_spec _ _ _ _ _ Hplace)
        as (_ & _ & Hocc & _ & _ & Hfilled).
      pose proof (phase_step _ _ _ _ _ _ _ Hph HgG Hgfree Hplace) as Hph1.
      destruct (IH (remove_first host pot1) st1 (placed ++ [host]) b)
        as (hs & rest & st' & Hrun & Hph' & Hperm & Hhosts & Hframe);
        [done | done | | done | done | done |].
      { intros g' Hg'. destruct (Hfree g') as [? ?]; [by right|].
        split; [done|]. rewrite Hfilled.
        destruct (decide ("Pot 1" = "Pot 1")); [|done].
        intros [?|Heq%elem_of_singleton]%elem_of_union; [done|].
        by subst. }
      exists (host :: hs), rest, st'. split; [done|]. split.
      { by rewrite cons_middle, app_assoc. }
      split.
      { rewrite (remove_first_perm host pot1 Hin). simpl. by rewrite Hperm. }
      split.
      * intros host0 g0 [[= -> ->]|Hin0]%elem_of_cons Hpot.
        -- destruct (Hframe g Hg) as [-> _]. rewrite Hocc.
           by destruct (decide (g = g)).
        -- assert (host ≠ host0).
           { intros ->. apply Hhost.
             apply list_elem_of_fmap. by exists (host0, g0). }
           assert (g0 ≠ g).
           { intros ->. apply Hg.
             apply list_elem_of_fmap. by exists (host0, g). }
           rewrite (Hhosts host0 g0 Hin0)
             by by apply elem_of_remove_first_ne.
           rewrite Hocc. by destruct (decide (g0 = g)).
      * intros g' Hg'. apply not_elem_of_cons in Hg' as [Hne Hg'].
        destruct (Hframe g' Hg') as [-> ->]. rewrite Hocc, Hfilled.
        destruct (decide (g' = g)); [done|].
        destruct (decide ("Pot 1" = "Pot 1")); [|done].
        split; [done|]. set_solver.
    + destruct (IH pot1 st placed b)
        as (hs & rest & st' & Hrun & Hph' & Hperm & Hhosts & Hframe);
        [done | done | | done | done | done |].
      { intros g' Hg'. apply Hfree. by right. }
      exists hs, rest, st'. split; [done|]. split; [done|]. split; [done|].
      split.
      * intros host0 g0 [[= -> ->]|Hin0]%elem_of_cons Hpot; [done|].
        by apply Hhosts.
      * intros g' Hg'. apply not_elem_of_cons in Hg' as [Hne Hg'].
        by apply Hframe.
Qed.

Lemma init_state_filled pot_name :
  filled_for (groups_filled_by_pot init_state) pot_name = ∅.
Proof.
  unfold filled_for, init_state. cbn [groups_filled_by_pot].
  destruct (_ !! pot_name) as [s|] eqn:E; [|done]. simpl.
  repeat (apply lookup_insert_Some in E as [[_ <-]|[_ E]]; [done|]).
  by apply lookup_singleton_Some in E as [_ <-].
Qed.

Lemma init_state_keys : dict_keys (groups_formed init_state) = GROUPS.
Proof. reflexivity. Qed.

Lemma init_state_dom pot_name :
  pot_name ∈ ["Pot 1"; "Pot 2"; "Pot 3"; "Pot 4"] →
  pot_name ∈ dom (groups_filled_by_pot init_state).
Proof.
  intros Hin. unfold init_state. cbn [groups_filled_by_pot].
  rewrite !dom_insert_L. set_solver.
Qed.

(** The seed placement from the empty state: it always succeeds, and puts
    every host that is listed in Pot 1 alone into its group. *)
Lemma seed_placement pot1 :
  ∃ hs rest st1,
    assign_fixed_hosts FIXED_HOSTS pot1 init_state = Some (rest, st1)
    ∧ phase "Pot 1" init_state hs st1
    ∧ pot1 ≡ₚ hs ++ rest
    ∧ ∀ host g, (host, g) ∈ FIXED_HOSTS → host ∈ pot1 →
        occupants (groups_formed st1) g = [host].
Proof.
  destruct (assign_fixed_hosts_spec FIXED_HOSTS pot1 init_state [] init_state)
    as (hs & rest & st1 & Hrun & Hph & Hperm & Hhosts & _).
  - compute_done.
  - compute_done.
  - intros g Hg. rewrite init_state_filled. split; [|set_solver].
    revert g Hg. apply Forall_forall. compute_done.
  - apply init_state_keys.
  - apply init_state_dom. left.
  - apply phase_refl.
  - exists hs, rest, st1. split; [done|]. split; [done|]. split; [done|].
    intros host g Hin Hpot. rewrite (Hhosts host g Hin Hpot).
    by rewrite occupants_init.
Qed.

(** ** One attempt, stage by stage *)

Section AttemptStages.
Context {R : Type} `{!RandomSource R}.
Variable conf_dict : gmap string (list string).
Variable pot_dict : gmap string (list string).

Lemma draw_pots_cons pot_name rest st r :
  draw_pots conf_dict pot_dict (pot_name :: rest) st r
  = match pot_dict !! pot_name with
    | None => (Raised KeyError, r)
    | Some teams =>
        match fill_pot conf_dict pot_name teams st r with
        | (Ok st', r2) => draw_pots conf_dict pot_dict rest st' r2
        | other => other
        end
    end.
Proof.
  cbn [draw_pots]. unfold fill_pot.
  destruct (pot_dict !! pot_name) as [teams|]; [|done].
  by destruct (shuffle teams r).
Qed.

Lemma draw_attempt_unfold r :
  draw_attempt conf_dict pot_dict r
  = match pot_dict !! "Pot 1" with
    | None => (Raised KeyError, r)
    | Some pot1 =>
        match assign_fixed_hosts FIXED_HOSTS pot1 init_state with
        | None => (Raised KeyError, r)
        | Some (rest, seeded) =>
            match fill_pot conf_dict "Pot 1" rest seeded r with
            | (Ok after1, r1) =>
                match draw_pots conf_dict pot_dict
                        ["Pot 4"; "Pot 3"; "Pot 2"] after1 r1 with
                | (Ok after2, r2) => (Ok (groups_formed after2), r2)
                | (DeadEnd, r2) => (DeadEnd, r2)
                | (Raised e, r2) => (Raised e, r2)
                end
            | (DeadEnd, r1) => (DeadEnd, r1)
            | (Raised e, r1) => (Raised e, r1)
            end
        end
    end.
Proof.
  unfold draw_attempt, fill_pot.
  destruct (pot_dict !! "Pot 1") as [pot1|]; [|done].
  destruct (assign_fixed_hosts FIXED_HOSTS pot1 init_state)
    as [[rest seeded]|]; [|done].
  by destruct (shuffle rest r).
Qed.

Lemma draw_attempt_Ok r formed r' :
  draw_attempt conf_dict pot_dict r = (Ok formed, r')
  ↔ attempt_stages conf_dict pot_dict r formed r'.
Proof.
  rewrite draw_attempt_unfold. split.
  - destruct (pot_dict !! "Pot 1") as [pot1|] eqn:E1; [|done].
    destruct (assign_fixed_hosts FIXED_HOSTS pot1 init_state)
      as [[rest seeded]|] eqn:Es; [|done].
    destruct (fill_pot conf_dict "Pot 1" rest seeded r)
      as [[after1| |e] r1] eqn:F1; [|done..].
    rewrite draw_pots_cons.
    destruct (pot_dict !! "Pot 4") as [pot4|] eqn:E4; [|done].
    destruct (fill_pot conf_dict "Pot 4" pot4 after1 r1)
      as [[after4| |e] r4] eqn:F4; [|done..].
    rewrite draw_pots_cons.
    destruct (pot_dict !! "Pot 3") as [pot3|] eqn:E3; [|done].
    destruct (fill_pot conf_dict "Pot 3" pot3 after4 r4)
      as [[after3| |e] r3] eqn:F3; [|done..].
    rewrite draw_pots_cons.
    destruct (pot_dict !! "Pot 2") as [pot2|] eqn:E2; [|done].
    destruct (fill_pot conf_dict "Pot 2" pot2 after3 r3)
      as [[after2| |e] r2] eqn:F2; [|done..].
    cbn [draw_pots]. intros [= <- <-]. by econstructor.
  - intros [pot1 pot4 pot3 pot2 rest seeded after1 after4 after3 after2
              r1 r4 r3 r2 E1 E4 E3 E2 Es F1 F4 F3 F2].
    rewrite E1, Es, F1, draw_pots_cons, E4, F4, draw_pots_cons, E3, F3,
      draw_pots_cons, E2, F2. done.
Qed.

Lemma draw_attempt_DeadEnd r r' :
  draw_attempt conf_dict pot_dict r = (DeadEnd, r')
  ↔ attempt_stuck conf_dict pot_dict r r'.
Proof.
  rewrite draw_attempt_unfold. split.
  - destruct (pot_dict !! "Pot 1") as [pot1|] eqn:E1; [|done].
    destruct (assign_fixed_hosts FIXED_HOSTS pot1 init_state)
      as [[rest seeded]|] eqn:Es; [|done].
    destruct (fill_pot conf_dict "Pot 1" rest seeded r)
      as [[after1| |e] r1] eqn:F1; [| |done].
    2:{ intros [= <-]. by eapply StuckPot1. }
    rewrite draw_pots_cons.
    destruct (pot_dict !! "Pot 4") as [pot4|] eqn:E4; [|done].
    destruct (fill_pot conf_dict "Pot 4" pot4 after1 r1)
      as [[after4| |e] r4] eqn:F4; [| |done].
    2:{ intros [= <-]. by eapply StuckPot4. }
    rewrite draw_pots_cons.
    destruct (pot_dict !! "Pot 3") as [pot3|] eqn:E3; [|done].
    destruct (fill_pot conf_dict "Pot 3" pot3 after4 r4)
      as [[after3| |e] r3] eqn:F3; [| |done].
    2:{ intros [= <-]. by eapply StuckPot3. }
    rewrite draw_pots_cons.
    destruct (pot_dict !! "Pot 2") as [pot2|] eqn:E2; [|done].
    destruct (fill_pot conf_dict "Pot 2" pot2 after3 r3)
      as [[after2| |e] r2] eqn:F2; [done| |done].
    intros [= <-]. by eapply StuckPot2.
  - intros [pot1 rest seeded r1 E1 Es F1
           |pot1 pot4 rest seeded after1 r1 r4 E1 E4 Es F1 F4
           |pot1 pot4 pot3 rest seeded after1 after4 r1 r4 r3
              E1 E4 E3 Es F1 F4 F3
           |pot1 pot4 pot3 pot2 rest seeded after1 after4 after3
              r1 r4 r3 r2 E1 E4 E3 E2 Es F1 F4 F3 F2].
    + by rewrite E1, Es, F1.
    + by rewrite E1, Es, F1, draw_pots_cons, E4, F4.
    + by rewrite E1, Es, F1, draw_pots_cons, E4, F4, draw_pots_cons, E3, F3.
    + by rewrite E1, Es, F1, draw_pots_cons, E4, F4, draw_pots_cons, E3, F3,
        draw_pots_cons, E2, F2.
Qed.

End AttemptStages.

Lemma phase_prefix pot_name b placed st g :
  phase pot_name b placed st →
  ∃ seg, occupants (groups_formed st) g = occupants (groups_formed b) g ++ seg
         ∧ length seg ≤ 1 ∧ ∀ t, t ∈ seg → t ∈ placed.
Proof.
  intros Hph.
  destruct (decide (g ∈ filled_for (groups_filled_by_pot st) pot_name))
    as [Hin|Hnot];
    [destruct (decide (g ∈ filled_for (groups_filled_by_pot b) pot_name))
       as [Hb|Hb]|].
  - exists []. rewrite app_nil_r. split; [|split; [simpl; lia|]].
    + apply (phase_old _ _ _ _ Hph). by left.
    + intros t Ht. by apply elem_of_nil in Ht.
  - destruct (phase_new _ _ _ _ Hph g Hin Hb) as (t & Ht & Heq).
    exists [t]. split; [done|]. split; [simpl; lia|].
    by intros t' ->%list_elem_of_singleton.
  - exists []. rewrite app_nil_r. split; [|split; [simpl; lia|]].
    + apply (phase_old _ _ _ _ Hph). by right.
    + intros t Ht. by apply elem_of_nil in Ht.
Qed.

Lemma phase_prefix_of pot_name b placed st g :
  phase pot_name b placed st →
  occupants (groups_formed b) g `prefix_of` occupants (groups_formed st) g.
Proof.
  intros Hph. destruct (phase_prefix _ _ _ _ g Hph) as (seg & Heq & _).
  by exists seg.
Qed.

Section AttemptFacts.
Context {R : Type} `{!RandomSource R} `{!RandomSourceLawful R}.
Variable conf_dict : gmap string (list string).
Variable pot_dict : gmap string (list string).

Lemma fill_pot_phase pot_name b teams placed st r st' r' :
  phase pot_name b placed st →
  fill_pot conf_dict pot_name teams st r = (Ok st', r') →
  ∃ sh, sh ≡ₚ teams ∧ phase pot_name b (placed ++ sh) st'.
Proof.
  intros Hph. unfold fill_pot. pose proof (shuffle_perm teams r) as Hperm.
  destruct (shuffle teams r) as [sh r1]. simpl in Hperm. intros Hrun.
  exists sh. split; [done|]. by eapply assign_teams_phase.
Qed.

Lemma fill_pot_caps pot_name teams st r st' r' :
  caps_ok conf_dict (groups_formed st) →
  fill_pot conf_dict pot_name teams st r = (Ok st', r') →
  caps_ok conf_dict (groups_formed st').
Proof.
  intros Hcaps. unfold fill_pot. destruct (shuffle teams r) as [sh r1].
  by eapply assign_teams_caps.
Qed.

Lemma attempt_stages_summary r formed r' :
  attempt_stages conf_dict pot_dict r formed r' →
  attempt_summary conf_dict pot_dict formed.
Proof.
  intros [pot1 pot4 pot3 pot2 rest seeded after1 after4 after3 after2
            r1 r4 r3 r2 E1 E4 E3 E2 Es F1 F4 F3 F2].
  destruct (seed_placement pot1)
    as (hs & rest' & seeded' & Hseed & Hph0 & Hperm0 & Hhosts).
  rewrite Es in Hseed. injection Hseed as <- <-.
  destruct (fill_pot_phase _ _ _ _ _ _ _ _ Hph0 F1) as (sh1 & Hp1 & Hph1).
  destruct (fill_pot_phase _ _ _ _ _ _ _ _ (phase_refl "Pot 1" seeded) F1)
    as (sh1' & Hp1' & Hph1').
  destruct (fill_pot_phase _ _ _ _ _ _ _ _ (phase_refl "Pot 4" after1) F4)
    as (sh4 & Hp4 & Hph4).
  destruct (fill_pot_phase _ _ _ _ _ _ _ _ (phase_refl "Pot 3" after4) F3)
    as (sh3 & Hp3 & Hph3).
  destruct (fill_pot_phase _ _ _ _ _ _ _ _ (phase_refl "Pot 2" after3) F2)
    as (sh2 & Hp2 & Hph2).
  simpl in Hph4, Hph3, Hph2.
  apply (AttemptSummary conf_dict pot_dict pot1 pot4 pot3 pot2
           (hs ++ sh1) sh4 sh3 sh2 after1 after4 after3 after2);
    try done.
  - by rewrite Hp1, Hperm0.
  - eapply fill_pot_caps; [|exact F2].
    eapply fill_pot_caps; [|exact F3].
    eapply fill_pot_caps; [|exact F4].
    by eapply caps_after_first_phase.
  - intros host g Hin Hpot.
    rewrite <- (Hhosts host g Hin Hpot).
    etrans; [by eapply phase_prefix_of|].
    etrans; [by eapply phase_prefix_of|].
    etrans; [by eapply phase_prefix_of|].
    by eapply phase_prefix_of.
Qed.

Lemma attempts_loop_Some n : ∀ r formed r',
  attempts_loop conf_dict pot_dict n r = (Return (Some formed), r')
  ↔ ∃ i, i < n
         ∧ (∀ j, j < i →
              (draw_attempt conf_dict pot_dict
                 (attempt_rng conf_dict pot_dict j r)).1 = DeadEnd)
         ∧ draw_attempt conf_dict pot_dict
             (attempt_rng conf_dict pot_dict i r) = (Ok formed, r').
Proof.
  induction n as [|n IH]; intros r formed r'; cbn [attempts_loop].
  - split; [done|]. intros (i & Hi & _). lia.
  - destruct (draw_attempt conf_dict pot_dict r) as [[formed0| |e] r0] eqn:E.
    + split.
      * intros [= <- <-]. exists 0. split; [lia|]. split; [intros; lia|].
        done.
      * intros (i & _ & Hdead & Hok). destruct i as [|i].
        -- simpl in Hok. rewrite E in Hok. by injection Hok as <- <-.
        -- specialize (Hdead 0 ltac:(lia)). simpl in Hdead.
           by rewrite E in Hdead.
    + rewrite IH. split.
      * intros (i & Hi & Hdead & Hok). exists (S i). split; [lia|].
        cbn [attempt_rng]. rewrite E. cbn [snd]. split; [|done].
        intros [|j] Hj; [simpl; by rewrite E|].
        cbn [attempt_rng]. rewrite E. apply Hdead. lia.
      * intros (i & Hi & Hdead & Hok). destruct i as [|i].
        -- simpl in Hok. by rewrite E in Hok.
        -- exists i. split; [lia|]. cbn [attempt_rng] in Hok.
           rewrite E in Hok. split; [|done].
           intros j Hj. specialize (Hdead (S j) ltac:(lia)).
           cbn [attempt_rng] in Hdead. by rewrite E in Hdead.
    + split; [done|]. intros (i & _ & Hdead & Hok). destruct i as [|i].
      * simpl in Hok. by rewrite E in Hok.
      * specialize (Hdead 0 ltac:(lia)). simpl in Hdead.
        by rewrite E in Hdead.
Qed.

Lemma simulate_single_draw_summary df_pots max_attempts r formed r' :
  simulate_single_draw df_pots conf_dict pot_dict max_attempts r
  = (Return (Some formed), r') →
  attempt_summary conf_dict pot_dict formed.
Proof.
  unfold simulate_single_draw. intros (i & _ & _ & Hok)%attempts_loop_Some.
  eapply attempt_stages_summary. by apply draw_attempt_Ok.
Qed.

End AttemptFacts.

(** ** Successful draws *)

Lemma first_pick_lawful : RandomSourceLawful unit.
Proof.
  split.
  - intros l r. done.
  - intros [|x l] r Hne; [done|]. simpl. left.
Qed.

#[export] Existing Instance first_pick_lawful.

Lemma phase_other_empty pot_name b placed st p :
  phase pot_name b placed st → p ≠ pot_name →
  filled_for (groups_filled_by_pot b) p = ∅ →
  filled_for (groups_filled_by_pot st) p = ∅.
Proof. intros Hph Hne <-. by apply (phase_other _ _ _ _ Hph). Qed.

(** C1: in the assignment a successful [simulate_single_draw] returns, when
    each of the four pots holds 12 teams, the dict has exactly the 12 groups
    as keys and each group holds exactly four teams: one of Pot 1, one of
    Pot 4, one of Pot 3 and one of Pot 2 (in this order of placement). *)
Theorem successful_draw_groups_complete {R : Type} `{!RandomSource R}
    `{!RandomSourceLawful R} df_pots conf_dict pot_dict max_attempts (r : R)
    formed r' pot1 pot2 pot3 pot4 group :
  pot_dict !! "Pot 1" = Some pot1 → pot_dict !! "Pot 2" = Some pot2 →
  pot_dict !! "Pot 3" = Some pot3 → pot_dict !! "Pot 4" = Some pot4 →
  length pot1 = TEAMS_PER_POT → length pot2 = TEAMS_PER_POT →
  length pot3 = TEAMS_PER_POT → length pot4 = TEAMS_PER_POT →
  simulate_single_draw df_pots conf_dict pot_dict max_attempts r
  = (Return (Some formed), r') →
  group ∈ GROUPS →
  dict_keys formed = GROUPS
  ∧ length GROUPS = NUM_GROUPS
  ∧ ∃ t1 t4 t3 t2,
      dict_lookup formed group = Some [t1; t4; t3; t2]
      ∧ length [t1; t4; t3; t2] = TEAMS_PER_GROUP
      ∧ t1 ∈ pot1 ∧ t4 ∈ pot4 ∧ t3 ∈ pot3 ∧ t2 ∈ pot2.
Proof.
  intros E1 E2 E3 E4 L1 L2 L3 L4 Hrun Hgroup.
  apply simulate_single_draw_summary in Hrun.
  destruct Hrun as [p1 p4 p3 p2 placed1 placed4 placed3 placed2
                      after1 after4 after3 after2 E1' E4' E3' E2'
                      Hp1 Hp4 Hp3 Hp2 Hph1 Hph4 Hph3 Hph2 _ _].
  assert (p1 = pot1) as -> by congruence.
  assert (p2 = pot2) as -> by congruence.
  assert (p3 = pot3) as -> by congruence.
  assert (p4 = pot4) as -> by congruence.
  assert (Hkeys : dict_keys (groups_formed after2) = GROUPS).
  { rewrite (phase_keys _ _ _ _ Hph2), (phase_keys _ _ _ _ Hph3),
      (phase_keys _ _ _ _ Hph4), (phase_keys _ _ _ _ Hph1).
    apply init_state_keys. }
  split; [done|]. split; [done|].
  destruct (phase_full _ _ _ _ Hph1) with (g := group)
    as (t1 & Ht1 & Ho1); [apply init_state_filled | | done |].
  { rewrite Hp1, L1. done. }
  destruct (phase_full _ _ _ _ Hph4) with (g := group)
    as (t4 & Ht4 & Ho4); [| | done |].
  { eapply phase_other_empty; [exact Hph1|done|apply init_state_filled]. }
  { rewrite Hp4, L4. done. }
  destruct (phase_full _ _ _ _ Hph3) with (g := group)
    as (t3 & Ht3 & Ho3); [| | done |].
  { eapply phase_other_empty; [exact Hph4|done|].
    eapply phase_other_empty; [exact Hph1|done|apply init_state_filled]. }
  { rewrite Hp3, L3. done. }
  destruct (phase_full _ _ _ _ Hph2) with (g := group)
    as (t2 & Ht2 & Ho2); [| | done |].
  { eapply phase_other_empty; [exact Hph3|done|].
    eapply phase_other_empty; [exact Hph4|done|].
    eapply phase_other_empty; [exact Hph1|done|apply init_state_filled]. }
  { rewrite Hp2, L2. done. }
  exists t1, t4, t3, t2.
  rewrite dict_lookup_occupants by (rewrite Hkeys; done).
  rewrite Ho2, Ho3, Ho4, Ho1, occupants_init.
  split; [done|]. split; [done|].
  rewrite <- Hp1, <- Hp4, <- Hp3, <- Hp2. done.
Qed.

Lemma successful_draw_groups_complete_witness :
  dict_keys sample_draw = GROUPS
  ∧ length GROUPS = NUM_GROUPS
  ∧ ∃ t1 t4 t3 t2,
      dict_lookup sample_draw "E" = Some [t1; t4; t3; t2]
      ∧ length [t1; t4; t3; t2] = TEAMS_PER_GROUP
      ∧ t1 ∈ sample_pot1 ∧ t4 ∈ sample_pot4
      ∧ t3 ∈ sample_pot3 ∧ t2 ∈ sample_pot2.
Proof.
  apply (successful_draw_groups_complete (R := unit) sample_df_pots
           sample_confs sample_pots MAX_ATTEMPTS_PER_SIMULATION tt
           sample_draw tt sample_pot1 sample_pot2 sample_pot3 sample_pot4 "E").
  - vm_compute; reflexivity.
  - vm_compute; reflexivity.
  - vm_compute; reflexivity.
  - vm_compute; reflexivity.
  - reflexivity.
  - reflexivity.
  - reflexivity.
  - reflexivity.
  - vm_compute; reflexivity.
  - unfold GROUPS. set_solver.
Defined.

(** C2: in the assignment a successful [simulate_single_draw] returns, every
    group (the groups of the fixed hosts included) holds at most 2 teams
    that carry the UEFA label and at most 1 team that carries any other
    label; a team with two labels counts for each of them. *)
Theorem successful_draw_respects_caps {R : Type} `{!RandomSource R}
    `{!RandomSourceLawful R} df_pots conf_dict pot_dict max_attempts (r : R)
    formed r' group teams conf :
  simulate_single_draw df_pots conf_dict pot_dict max_attempts r
  = (Return (Some formed), r') →
  dict_lookup formed group = Some teams →
  teams_carrying conf_dict teams "UEFA" ≤ 2
  ∧ (conf ≠ "UEFA" → teams_carrying conf_dict teams conf ≤ 1).
Proof.
  intros Hrun Hteams.
  apply simulate_single_draw_summary in Hrun.
  destruct Hrun as [? ? ? ? ? ? ? ? ? ? ? after2 _ _ _ _ _ _ _ _ _ _ _ _
                      Hcaps _].
  assert (Hocc : occupants (groups_formed after2) group = teams).
  { unfold occupants. by rewrite Hteams. }
  split.
  - specialize (Hcaps group "UEFA"). by rewrite Hocc in Hcaps.
  - intros Hne. specialize (Hcaps group conf). rewrite Hocc in Hcaps.
    unfold conf_cap in Hcaps. by destruct (decide (conf = "UEFA")).
Qed.

Lemma successful_draw_respects_caps_witness :
  teams_carrying sample_confs
    ["Belgium"; "Playoff 1"; "Paraguay"; "Japan"] "UEFA" ≤ 2
  ∧ ("OFC" ≠ "UEFA" →
     teams_carrying sample_confs
       ["Belgium"; "Playoff 1"; "Paraguay"; "Japan"] "OFC" ≤ 1).
Proof.
  apply (successful_draw_respects_caps (R := unit) sample_df_pots
           sample_confs sample_pots MAX_ATTEMPTS_PER_SIMULATION tt
           sample_draw tt "F").
  - vm_compute; reflexivity.
  - vm_compute; reflexivity.
Defined.

(** ** Fixed hosts *)

Lemma attempt_summary_keys conf_dict pot_dict formed :
  attempt_summary conf_dict pot_dict formed → dict_keys formed = GROUPS.
Proof.
  intros [? ? ? ? ? ? ? ? ? ? ? ? _ _ _ _ _ _ _ _ Hph1 Hph4 Hph3 Hph2 _ _].
  rewrite (phase_keys _ _ _ _ Hph2), (phase_keys _ _ _ _ Hph3),
    (phase_keys _ _ _ _ Hph4), (phase_keys _ _ _ _ Hph1).
  apply init_state_keys.
Qed.

Lemma FIXED_HOSTS_groups host group :
  (host, group) ∈ FIXED_HOSTS → group ∈ GROUPS.
Proof.
  revert host group.
  assert (Forall (λ hg, hg.2 ∈ GROUPS) FIXED_HOSTS) as Hall by compute_done.
  rewrite Forall_forall in Hall. intros host group Hin. apply (Hall _ Hin).
Qed.

(** C4, as the specification states it, fails: with Mexico listed in Pot 2
    the draw goes through and Mexico is not in group A. *)
Lemma fixed_host_outside_pot1_not_mandated :
  ¬ (∀ df_pots conf_dict pot_dict max_attempts (r : unit) formed r' host group,
       simulate_single_draw df_pots conf_dict pot_dict max_attempts r
       = (Return (Some formed), r') →
       (host, group) ∈ FIXED_HOSTS →
       host ∈ occupants formed group).
Proof.
  intros Hclaim.
  specialize (Hclaim [] sample_confs host_in_pot2_pots 1%Z tt
                host_in_pot2_draw tt "Mexico" "A").
  assert ("Mexico" ∈ occupants host_in_pot2_draw "A") as Hin.
  { apply Hclaim; [exact host_in_pot2_run | left]. }
  apply (bool_decide_pack _) in Hin. vm_compute in Hin. exact Hin.
Qed.

(** The same on the small instance: Spain and Japan share group A, Mexico
    follows in group B. *)
Lemma fixed_host_outside_pot1_small :
  simulate_single_draw [] sample_confs small_pots 1 tt
  = (Return (Some small_draw), tt)
  ∧ ("Mexico", "A") ∈ FIXED_HOSTS
  ∧ occupants small_draw "A" = ["Spain"; "Japan"]
  ∧ occupants small_draw "B" = ["Mexico"].
Proof.
  split; [exact small_pots_run|]. split; [left|]. split; reflexivity.
Qed.

(** C4, amended: every fixed host that is listed in Pot 1 is placed into its
    mandated group, alone, by a step that takes no generator and cannot
    fail; the first random operation of the attempt, the shuffle of the
    rest of Pot 1, starts from the generator state the attempt was given;
    and in every successful draw such a host is the first occupant of its
    mandated group. *)
Theorem fixed_hosts_of_pot1_seeded {R : Type} `{!RandomSource R}
    `{!RandomSourceLawful R} df_pots conf_dict pot_dict max_attempts
    pot1 host group :
  pot_dict !! "Pot 1" = Some pot1 →
  (host, group) ∈ FIXED_HOSTS →
  host ∈ pot1 →
  (∃ rest seeded,
      assign_fixed_hosts FIXED_HOSTS pot1 init_state = Some (rest, seeded)
      ∧ occupants (groups_formed seeded) group = [host]
      ∧ group ∈ filled_for (groups_filled_by_pot seeded) "Pot 1"
      ∧ ∀ r : R,
          draw_attempt conf_dict pot_dict r
          = match fill_pot conf_dict "Pot 1" rest seeded r with
            | (Ok after1, r1) =>
                match draw_pots conf_dict pot_dict
                        ["Pot 4"; "Pot 3"; "Pot 2"] after1 r1 with
                | (Ok after2, r2) => (Ok (groups_formed after2), r2)
                | (DeadEnd, r2) => (DeadEnd, r2)
                | (Raised e, r2) => (Raised e, r2)
                end
            | (DeadEnd, r1) => (DeadEnd, r1)
            | (Raised e, r1) => (Raised e, r1)
            end)
  ∧ ∀ (r : R) formed r',
      simulate_single_draw df_pots conf_dict pot_dict max_attempts r
      = (Return (Some formed), r') →
      ∃ others, dict_lookup formed group = Some (host :: others).
Proof.
  intros E1 Hhost Hpot. split.
  - destruct (seed_placement pot1)
      as (hs & rest & seeded & Hseed & Hph & _ & Hhosts).
    exists rest, seeded. split; [done|].
    pose proof (Hhosts host group Hhost Hpot) as Hocc.
    split; [done|]. split.
    + destruct (decide (group ∈ filled_for (groups_filled_by_pot seeded)
                                  "Pot 1")) as [?|Hnot]; [done|].
      rewrite (phase_old _ _ _ _ Hph group), occupants_init in Hocc
        by by right.
      done.
    + intros r. by rewrite draw_attempt_unfold, E1, Hseed.
  - intros r formed r' Hrun.
    apply simulate_single_draw_summary in Hrun.
    pose proof (attempt_summary_keys _ _ _ Hrun) as Hkeys.
    destruct Hrun as [p1 ? ? ? ? ? ? ? ? ? ? after2 E1' _ _ _ _ _ _ _ _ _ _ _
                        _ Hhosts].
    assert (p1 = pot1) as -> by congruence.
    destruct (Hhosts host group Hhost Hpot) as [others Hocc].
    exists others. rewrite dict_lookup_occupants, Hocc; [done|].
    rewrite Hkeys. by eapply FIXED_HOSTS_groups.
Qed.

Lemma fixed_hosts_of_pot1_seeded_witness :
  (∃ rest seeded,
      assign_fixed_hosts FIXED_HOSTS sample_pot1 init_state
      = Some (rest, seeded)
      ∧ occupants (groups_formed seeded) "D" = ["United States"]
      ∧ "D" ∈ filled_for (groups_filled_by_pot seeded) "Pot 1"
      ∧ ∀ r : unit,
          draw_attempt sample_confs sample_pots r
          = match fill_pot sample_confs "Pot 1" rest seeded r with
            | (Ok after1, r1) =>
                match draw_pots sample_confs sample_pots
                        ["Pot 4"; "Pot 3"; "Pot 2"] after1 r1 with
                | (Ok after2, r2) => (Ok (groups_formed after2), r2)
                | (DeadEnd, r2) => (DeadEnd, r2)
                | (Raised e, r2) => (Raised e, r2)
                end
            | (DeadEnd, r1) => (DeadEnd, r1)
            | (Raised e, r1) => (Raised e, r1)
            end)
  ∧ ∀ (r : unit) formed r',
      simulate_single_draw sample_df_pots sample_confs sample_pots 1000 r
      = (Return (Some formed), r') →
      ∃ others, dict_lookup formed "D" = Some ("United States" :: others).
Proof.
  apply (fixed_hosts_of_pot1_seeded (R := unit) sample_df_pots sample_confs
           sample_pots 1000 sample_pot1 "United States" "D").
  - vm_compute; reflexivity.
  - unfold FIXED_HOSTS. set_solver.
  - unfold sample_pot1. set_solver.
Defined.

(** ** Dead ends and the attempt budget *)

Section Budget.
Context {R : Type} `{!RandomSource R}.
Variable conf_dict : gmap string (list string).
Variable pot_dict : gmap string (list string).

Lemma assign_teams_DeadEnd pot_name teams : ∀ st r r',
  assign_teams conf_dict pot_name teams st r = (DeadEnd, r')
  ↔ dead_end_at conf_dict pot_name teams st r r'.
Proof.
  unfold dead_end_at.
  induction teams as [|team teams IH]; intros st r r'; cbn [assign_teams].
  - split; [done|]. intros (before & t & after & st0 & Heq & _).
    by destruct before.
  - destruct (get_available_groups_for_team team pot_name _ _ _)
      as [|g0 gs] eqn:Hav.
    + split.
      * intros [= <-]. exists [], team, teams, st. done.
      * intros (before & t & after & st0 & Heq & Hrun & Hnone).
        destruct before as [|t0 before].
        -- simpl in Hrun. by injection Hrun as <- <-.
        -- injection Heq as <- ->. cbn [assign_teams] in Hrun.
           by rewrite Hav in Hrun.
    + destruct (choice (g0 :: gs) r) as [g r1] eqn:Hch.
      destruct (place team pot_name g st) as [st1|] eqn:Hplace.
      * rewrite IH. split.
        -- intros (before & t & after & st0 & -> & Hrun & Hnone).
           exists (team :: before), t, after, st0. split; [done|].
           cbn [assign_teams]. by rewrite Hav, Hch, Hplace.
        -- intros (before & t & after & st0 & Heq & Hrun & Hnone).
           destruct before as [|t0 before].
           ++ injection Heq as <- ->. simpl in Hrun.
              injection Hrun as <- <-. by rewrite Hav in Hnone.
           ++ injection Heq as <- ->. cbn [assign_teams] in Hrun.
              rewrite Hav, Hch, Hplace in Hrun.
              by exists before, t, after, st0.
      * split; [done|].
        intros (before & t & after & st0 & Heq & Hrun & Hnone).
        destruct before as [|t0 before].
        -- injection Heq as <- ->. simpl in Hrun.
           injection Hrun as <- <-. by rewrite Hav in Hnone.
        -- injection Heq as <- ->. cbn [assign_teams] in Hrun.
           by rewrite Hav, Hch, Hplace in Hrun.
Qed.

Lemma fill_pot_DeadEnd pot_name teams st r r' :
  fill_pot conf_dict pot_name teams st r = (DeadEnd, r') →
  ∃ pot_teams r1, dead_end_at conf_dict pot_name pot_teams st r1 r'.
Proof.
  unfold fill_pot. destruct (shuffle teams r) as [pot_teams r1].
  intros Hrun%assign_teams_DeadEnd. by exists pot_teams, r1.
Qed.

Lemma attempt_stuck_dead_end r r' :
  attempt_stuck conf_dict pot_dict r r' →
  ∃ pot_name pot_teams st r1,
    pot_name ∈ ["Pot 1"; "Pot 4"; "Pot 3"; "Pot 2"]
    ∧ dead_end_at conf_dict pot_name pot_teams st r1 r'.
Proof.
  intros [pot1 rest seeded r1 E1 Es F1
         |pot1 pot4 rest seeded after1 r1 r4 E1 E4 Es F1 F4
         |pot1 pot4 pot3 rest seeded after1 after4 r1 r4 r3
            E1 E4 E3 Es F1 F4 F3
         |pot1 pot4 pot3 pot2 rest seeded after1 after4 after3
            r1 r4 r3 r2 E1 E4 E3 E2 Es F1 F4 F3 F2].
  - apply fill_pot_DeadEnd in F1 as (ts & ra & Hdead).
    exists "Pot 1", ts, seeded, ra. split; [set_solver | done].
  - apply fill_pot_DeadEnd in F4 as (ts & ra & Hdead).
    exists "Pot 4", ts, after1, ra. split; [set_solver | done].
  - apply fill_pot_DeadEnd in F3 as (ts & ra & Hdead).
    exists "Pot 3", ts, after4, ra. split; [set_solver | done].
  - apply fill_pot_DeadEnd in F2 as (ts & ra & Hdead).
    exists "Pot 2", ts, after3, ra. split; [set_solver | done].
Qed.

Lemma attempts_loop_None n : ∀ r r',
  attempts_loop conf_dict pot_dict n r = (Return None, r')
  ↔ (∀ i, i < n →
       (draw_attempt conf_dict pot_dict
          (attempt_rng conf_dict pot_dict i r)).1 = DeadEnd)
    ∧ r' = attempt_rng conf_dict pot_dict n r.
Proof.
  induction n as [|n IH]; intros r r'; cbn [attempts_loop attempt_rng].
  - split.
    + intros [= <-]. split; [intros; lia | done].
    + by intros [_ ->].
  - destruct (draw_attempt conf_dict pot_dict r) as [[formed| |e] r0] eqn:E;
      cbn [snd].
    + split; [done|]. intros [Hdead _].
      specialize (Hdead 0 ltac:(lia)). simpl in Hdead. by rewrite E in Hdead.
    + rewrite IH. split.
      * intros [Hdead ->]. split; [|done].
        intros [|i] Hi; cbn [attempt_rng]; rewrite E; [done|].
        apply Hdead. lia.
      * intros [Hdead ->]. split; [|done].
        intros i Hi. specialize (Hdead (S i) ltac:(lia)).
        cbn [attempt_rng] in Hdead. by rewrite E in Hdead.
    + split; [done|]. intros [Hdead _].
      specialize (Hdead 0 ltac:(lia)). simpl in Hdead. by rewrite E in Hdead.
Qed.

End Budget.

Lemma attempt_summary_order conf_dict pot_dict formed group :
  attempt_summary conf_dict pot_dict formed →
  drawn_in_order pot_dict formed group.
Proof.
  intros [pot1 pot4 pot3 pot2 placed1 placed4 placed3 placed2
            after1 after4 after3 after2 E1 E4 E3 E2
            Hp1 Hp4 Hp3 Hp2 Hph1 Hph4 Hph3 Hph2 _ _].
  destruct (phase_prefix _ _ _ _ group Hph1) as (seg1 & Ho1 & L1 & M1).
  destruct (phase_prefix _ _ _ _ group Hph4) as (seg4 & Ho4 & L4 & M4).
  destruct (phase_prefix _ _ _ _ group Hph3) as (seg3 & Ho3 & L3 & M3).
  destruct (phase_prefix _ _ _ _ group Hph2) as (seg2 & Ho2 & L2 & M2).
  exists pot1, pot4, pot3, pot2, seg1, seg4, seg3, seg2.
  do 4 (split; [done|]). split.
  { rewrite Ho2, Ho3, Ho4, Ho1, occupants_init. simpl.
    by rewrite <- !app_assoc. }
  split; [done|].
  split; [intros t Ht; rewrite <- Hp1; by apply M1|].
  split; [intros t Ht; rewrite <- Hp4; by apply M4|].
  split; [intros t Ht; rewrite <- Hp3; by apply M3|].
  intros t Ht; rewrite <- Hp2; by apply M2.
Qed.

(** C6: an attempt runs through exactly when its stages succeed one after
    the other in the order hosts, Pot 1, Pot 4, Pot 3, Pot 2, each stage
    taking over the state and the generator of the stage before; it breaks
    off exactly when one of these pots, reached in this order, meets a dead
    end, and then the attempt yields nothing and the restart loop moves on;
    in the assignment of an attempt that ran through, every group lists its
    Pot 1 team before its Pot 4 team, then Pot 3, then Pot 2. *)
Theorem pots_drawn_in_fixed_order {R : Type} `{!RandomSource R}
    `{!RandomSourceLawful R} conf_dict pot_dict (r : R) :
  (∀ formed r',
      draw_attempt conf_dict pot_dict r = (Ok formed, r')
      ↔ attempt_stages conf_dict pot_dict r formed r')
  ∧ (∀ r',
      draw_attempt conf_dict pot_dict r = (DeadEnd, r')
      ↔ attempt_stuck conf_dict pot_dict r r')
  ∧ (∀ r' n,
      draw_attempt conf_dict pot_dict r = (DeadEnd, r') →
      attempts_loop conf_dict pot_dict (S n) r
      = attempts_loop conf_dict pot_dict n r')
  ∧ (∀ formed r' group,
      draw_attempt conf_dict pot_dict r = (Ok formed, r') →
      drawn_in_order pot_dict formed group).
Proof.
  split; [|split; [|split]].
  - intros formed r'. apply draw_attempt_Ok.
  - intros r'. apply draw_attempt_DeadEnd.
  - intros r' n Hdead. cbn [attempts_loop]. by rewrite Hdead.
  - intros formed r' group Hok. apply attempt_summary_order with conf_dict.
    eapply attempt_stages_summary. by apply draw_attempt_Ok.
Qed.

Lemma pots_drawn_in_fixed_order_witness :
  (∀ formed r',
      draw_attempt sample_confs sample_pots tt = (Ok formed, r')
      ↔ attempt_stages sample_confs sample_pots tt formed r')
  ∧ (∀ r',
      draw_attempt sample_confs sample_pots tt = (DeadEnd, r')
      ↔ attempt_stuck sample_confs sample_pots tt r')
  ∧ (∀ r' n,
      draw_attempt sample_confs sample_pots tt = (DeadEnd, r') →
      attempts_loop sample_confs sample_pots (S n) tt
      = attempts_loop sample_confs sample_pots n r')
  ∧ (∀ formed r' group,
      draw_attempt sample_confs sample_pots tt = (Ok formed, r') →
      drawn_in_order sample_pots formed group).
Proof.
  apply (pots_drawn_in_fixed_order (R := unit) sample_confs sample_pots tt).
Defined.

(** C7: [simulate_single_draw] returns [None] exactly when every one of the
    [max_attempts] attempts (none for a bound below 1) ends in a dead end,
    and then the generator has gone through exactly these attempts; a dead
    end is a pot stage, reached from the fresh empty state, at which the
    resolver finds no group for a team; an assignment is returned by an
    attempt within the budget, reached after dead ends only, and that
    attempt too started from the fresh empty state. *)
Theorem simulate_single_draw_None_iff {R : Type} `{!RandomSource R}
    df_pots conf_dict pot_dict max_attempts (r r' : R) :
  let n := Z.to_nat max_attempts in
  (simulate_single_draw df_pots conf_dict pot_dict max_attempts r
   = (Return None, r')
   ↔ (∀ i, i < n →
        (draw_attempt conf_dict pot_dict
           (attempt_rng conf_dict pot_dict i r)).1 = DeadEnd)
     ∧ r' = attempt_rng conf_dict pot_dict n r)
  ∧ (∀ r0 r1,
      draw_attempt conf_dict pot_dict r0 = (DeadEnd, r1) →
      attempt_stuck conf_dict pot_dict r0 r1
      ∧ ∃ pot_name pot_teams st ra,
          pot_name ∈ ["Pot 1"; "Pot 4"; "Pot 3"; "Pot 2"]
          ∧ dead_end_at conf_dict pot_name pot_teams st ra r1)
  ∧ (∀ formed,
      simulate_single_draw df_pots conf_dict pot_dict max_attempts r
      = (Return (Some formed), r') →
      ∃ i, i < n
           ∧ (∀ j, j < i →
                (draw_attempt conf_dict pot_dict
                   (attempt_rng conf_dict pot_dict j r)).1 = DeadEnd)
           ∧ attempt_stages conf_dict pot_dict
               (attempt_rng conf_dict pot_dict i r) formed r')
  ∧ ((max_attempts ≤ 0)%Z →
     simulate_single_draw df_pots conf_dict pot_dict max_attempts r
     = (Return None, r)).
Proof.
  intros n. unfold simulate_single_draw. fold n.
  split; [|split; [|split]].
  - apply attempts_loop_None.
  - intros r0 r1 Hdead%draw_attempt_DeadEnd. split; [done|].
    apply (attempt_stuck_dead_end _ _ _ _ Hdead).
  - intros formed (i & Hi & Hdead & Hok)%attempts_loop_Some.
    exists i. split; [done|]. split; [done|]. by apply draw_attempt_Ok.
  - intros Hle. subst n. by rewrite Z2Nat.nonpos.
Qed.

(** ** Determinism under a first-candidate source *)

Section FirstCandidate.
Context {R : Type} `{!RandomSource R}.
Hypothesis Hfirst : always_first R.
Variable conf_dict : gmap string (list string).
Variable pot_dict : gmap string (list string).

Lemma assign_teams_first pot_name teams : ∀ st (r : R),
  (assign_teams conf_dict pot_name teams st r).1
  = (assign_teams (R := unit) conf_dict pot_name teams st tt).1.
Proof.
  destruct Hfirst as [_ Hchoice].
  induction teams as [|team teams IH]; intros st r; cbn [assign_teams];
    [done|].
  destruct (get_available_groups_for_team team pot_name _ _ _)
    as [|g0 gs]; [done|].
  specialize (Hchoice g0 gs r).
  destruct (choice (g0 :: gs) r) as [g r1]. simpl in Hchoice. subst g.
  cbn [choice first_pick hd].
  destruct (place team pot_name g0 st) as [st1|]; [apply IH | done].
Qed.

Lemma fill_pot_first pot_name teams st (r : R) :
  (fill_pot conf_dict pot_name teams st r).1
  = (fill_pot (R := unit) conf_dict pot_name teams st tt).1.
Proof.
  unfold fill_pot. destruct Hfirst as [Hshuffle _].
  specialize (Hshuffle teams r).
  destruct (shuffle teams r) as [sh r1]. simpl in Hshuffle. subst sh.
  cbn [shuffle first_pick]. apply assign_teams_first.
Qed.

Lemma draw_pots_first pot_names : ∀ st (r : R),
  (draw_pots conf_dict pot_dict pot_names st r).1
  = (draw_pots (R := unit) conf_dict pot_dict pot_names st tt).1.
Proof.
  induction pot_names as [|pot_name pot_names IH]; intros st r; [done|].
  rewrite !draw_pots_cons.
  destruct (pot_dict !! pot_name) as [teams|]; [|done].
  pose proof (fill_pot_first pot_name teams st r) as Hfill.
  destruct (fill_pot conf_dict pot_name teams st r) as [o r1].
  destruct (fill_pot (R := unit) conf_dict pot_name teams st tt) as [o' []].
  simpl in Hfill. subst o'. destruct o as [st'| |e]; [apply IH | done..].
Qed.

Lemma draw_attempt_first (r : R) :
  (draw_attempt conf_dict pot_dict r).1
  = (draw_attempt (R := unit) conf_dict pot_dict tt).1.
Proof.
  rewrite !draw_attempt_unfold.
  destruct (pot_dict !! "Pot 1") as [pot1|]; [|done].
  destruct (assign_fixed_hosts FIXED_HOSTS pot1 init_state)
    as [[rest seeded]|]; [|done].
  pose proof (fill_pot_first "Pot 1" rest seeded r) as Hfill.
  destruct (fill_pot conf_dict "Pot 1" rest seeded r) as [o r1].
  destruct (fill_pot (R := unit) conf_dict "Pot 1" rest seeded tt)
    as [o' []].
  simpl in Hfill. subst o'. destruct o as [after1| |e]; [|done..].
  pose proof (draw_pots_first ["Pot 4"; "Pot 3"; "Pot 2"] after1 r1) as Hd.
  destruct (draw_pots conf_dict pot_dict _ after1 r1) as [o r2].
  destruct (draw_pots (R := unit) conf_dict pot_dict _ after1 tt)
    as [o' []].
  simpl in Hd. subst o'. by destruct o.
Qed.

Lemma attempts_loop_first n : ∀ r : R,
  (attempts_loop conf_dict pot_dict n r).1
  = (attempts_loop (R := unit) conf_dict pot_dict n tt).1.
Proof.
  induction n as [|n IH]; intros r; cbn [attempts_loop]; [done|].
  pose proof (draw_attempt_first r) as Hd.
  destruct (draw_attempt conf_dict pot_dict r) as [o r1].
  destruct (draw_attempt (R := unit) conf_dict pot_dict tt) as [o' []].
  simpl in Hd. subst o'. destruct o as [formed| |e]; [done | apply IH | done].
Qed.

End FirstCandidate.

(** C9: under any two randomness sources that leave every list in its order
    and always pick the first candidate, whatever their states, two calls
    of [simulate_single_draw] on the same data return the same result, in
    particular the same group assignment. *)
Theorem first_candidate_draws_agree {R1 R2 : Type}
    `{!RandomSource R1} `{!RandomSource R2}
    df_pots conf_dict pot_dict max_attempts (r1 : R1) (r2 : R2) :
  always_first R1 → always_first R2 →
  (simulate_single_draw df_pots conf_dict pot_dict max_attempts r1).1
  = (simulate_single_draw df_pots conf_dict pot_dict max_attempts r2).1.
Proof.
  intros H1 H2. unfold simulate_single_draw.
  rewrite (attempts_loop_first H1), (attempts_loop_first H2). done.
Qed.

Lemma first_candidate_draws_agree_witness :
  always_first unit ∧ always_first nat
  ∧ (simulate_single_draw sample_df_pots sample_confs sample_pots 5 tt).1
    = (simulate_single_draw sample_df_pots sample_confs sample_pots 5 7).1.
Proof.
  assert (H1 : always_first unit) by (split; reflexivity).
  assert (H2 : always_first nat) by (split; reflexivity).
  split; [exact H1|]. split; [exact H2|].
  apply (first_candidate_draws_agree sample_df_pots sample_confs sample_pots
           5 tt 7 H1 H2).
Defined.

(** ** The frequency table *)

Lemma table_total_insert (m : gmap combination nat) key n :
  m !! key = None → table_total (<[key := n]> m) = n + table_total m.
Proof.
  intros Hnone. unfold table_total.
  rewrite map_fold_insert_L; [done | | done].
  intros. lia.
Qed.

Lemma table_total_incr (m : gmap combination nat) key :
  table_total (combination_incr m key) = S (table_total m).
Proof.
  unfold combination_incr. destruct (m !! key) as [n|] eqn:E; simpl.
  - rewrite <- (insert_delete_id m key n E) at 2.
    rewrite <- insert_delete_eq.
    rewrite !table_total_insert by apply lookup_delete_eq. lia.
  - by rewrite table_total_insert.
Qed.

Lemma dict_lookup_elem d k v : dict_lookup d k = Some v → (k, v) ∈ d.
Proof.
  induction d as [|[k' v'] d IH]; simpl; [done|].
  destruct (String.eqb_spec k' k) as [->|Hne].
  - intros [= ->]. left.
  - intros Hd. right. by apply IH.
Qed.

Lemma count_target_group_found items df_pots target_team counter counter' :
  (∃ group teams, (group, teams) ∈ items ∧ target_team ∈ teams) →
  count_target_group items df_pots target_team counter = Some counter' →
  table_total counter' = S (table_total counter).
Proof.
  induction items as [|[g ts] items IH]; intros (group & teams & Hin & Ht).
  - by apply elem_of_nil in Hin.
  - cbn [count_target_group]. case_bool_decide as Hhere.
    + destruct (identify_pots df_pots ts (None, None, None, None))
        as [[[[p1 p2] p3] p4]|]; simpl; [|done].
      intros [= <-]. apply table_total_incr.
    + apply IH. exists group, teams. split; [|done].
      apply elem_of_cons in Hin as [[= -> ->]|Hin]; done.
Qed.

Lemma attempt_summary_covers conf_dict pot_dict formed pot_name teams team :
  attempt_summary conf_dict pot_dict formed →
  pot_name ∈ ["Pot 1"; "Pot 2"; "Pot 3"; "Pot 4"] →
  pot_dict !! pot_name = Some teams →
  team ∈ teams →
  ∃ group occupants_list, (group, occupants_list) ∈ formed
                          ∧ team ∈ occupants_list.
Proof.
  intros Hsum Hpot Hlookup Hteam.
  pose proof (attempt_summary_keys _ _ _ Hsum) as Hkeys.
  destruct Hsum as [pot1 pot4 pot3 pot2 placed1 placed4 placed3 placed2
                      after1 after4 after3 after2 E1 E4 E3 E2
                      Hp1 Hp4 Hp3 Hp2 Hph1 Hph4 Hph3 Hph2 _ _].
  assert (∃ group, group ∈ GROUPS
                   ∧ team ∈ occupants (groups_formed after2) group)
    as (group & Hgroup & Hin).
  { assert (Hgrow : ∀ (l1 l2 : list string), l1 `prefix_of` l2 →
                      team ∈ l1 → team ∈ l2).
    { intros l1 l2 [k ->] ?. apply elem_of_app. by left. }
    assert (Hlast : ∀ l : list string, team ∈ l ++ [team]).
    { intros l. apply elem_of_app. right. left. }
    repeat (apply elem_of_cons in Hpot as [->|Hpot]).
    - assert (teams = pot1) as -> by congruence.
      rewrite <- Hp1 in Hteam.
      destruct (phase_cover _ _ _ _ Hph1 team Hteam) as (g & Hg & Heq).
      exists g. split; [done|].
      apply (Hgrow _ _ (phase_prefix_of _ _ _ _ g Hph2)).
      apply (Hgrow _ _ (phase_prefix_of _ _ _ _ g Hph3)).
      apply (Hgrow _ _ (phase_prefix_of _ _ _ _ g Hph4)).
      rewrite Heq. apply Hlast.
    - assert (teams = pot2) as -> by congruence.
      rewrite <- Hp2 in Hteam.
      destruct (phase_cover _ _ _ _ Hph2 team Hteam) as (g & Hg & Heq).
      exists g. split; [done|]. rewrite Heq. apply Hlast.
    - assert (teams = pot3) as -> by congruence.
      rewrite <- Hp3 in Hteam.
      destruct (phase_cover _ _ _ _ Hph3 team Hteam) as (g & Hg & Heq).
      exists g. split; [done|].
      apply (Hgrow _ _ (phase_prefix_of _ _ _ _ g Hph2)).
      rewrite Heq. apply Hlast.
    - assert (teams = pot4) as -> by congruence.
      rewrite <- Hp4 in Hteam.
      destruct (phase_cover _ _ _ _ Hph4 team Hteam) as (g & Hg & Heq).
      exists g. split; [done|].
      apply (Hgrow _ _ (phase_prefix_of _ _ _ _ g Hph2)).
      apply (Hgrow _ _ (phase_prefix_of _ _ _ _ g Hph3)).
      rewrite Heq. apply Hlast.
    - by apply elem_of_nil in Hpot. }
  exists group, (occupants (groups_formed after2) group). split; [|done].
  apply dict_lookup_elem, dict_lookup_occupants. by rewrite Hkeys.
Qed.

Section DriverFacts.
Context {R : Type} `{!RandomSource R} `{!RandomSourceLawful R}.
Variable df_pots : list (string * string).
Variable conf_dict : gmap string (list string).
Variable pot_dict : gmap string (list string).
Variable target_team : string.

Lemma simulation_step_failed acc (r r1 : R) :
  simulate_single_draw df_pots conf_dict pot_dict
    MAX_ATTEMPTS_PER_SIMULATION r = (Return None, r1) →
  simulation_step df_pots conf_dict pot_dict target_team acc r
  = (Return {| combinations := combinations acc;
               successful := successful acc;
               failed := S (failed acc) |}, r1).
Proof. intros Hnone. unfold simulation_step. by rewrite Hnone. Qed.

Lemma simulation_step_totals pot_name teams acc (r : R) acc' r' :
  pot_name ∈ ["Pot 1"; "Pot 2"; "Pot 3"; "Pot 4"] →
  pot_dict !! pot_name = Some teams →
  target_team ∈ teams →
  simulation_step df_pots conf_dict pot_dict target_team acc r
  = (Return acc', r') →
  table_total (combinations acc') - successful acc'
  = table_total (combinations acc) - successful acc
  ∧ successful acc' - table_total (combinations acc')
    = successful acc - table_total (combinations acc)
  ∧ successful acc' + failed acc' = S (successful acc + failed acc).
Proof.
  intros Hpot Hlookup Htarget. unfold simulation_step.
  destruct (simulate_single_draw _ _ _ _ r) as [[result|e] r1] eqn:Hsim;
    [|done].
  destruct (truthy result) eqn:Htruthy.
  - destruct result as [formed|]; [|done]. cbn [default from_option id].
    destruct (count_target_group formed df_pots target_team
                (combinations acc)) as [counter|] eqn:Hcount; [|done].
    intros [= <- <-]. cbn [combinations successful failed].
    rewrite (count_target_group_found _ _ _ _ _ ltac:(
               eapply attempt_summary_covers;
               [by eapply simulate_single_draw_summary | done..]) Hcount).
    lia.
  - intros [= <- <-]. cbn [combinations successful failed]. lia.
Qed.

Lemma simulation_loop_totals pot_name teams n : ∀ acc (r : R) results r',
  pot_name ∈ ["Pot 1"; "Pot 2"; "Pot 3"; "Pot 4"] →
  pot_dict !! pot_name = Some teams →
  target_team ∈ teams →
  simulation_loop df_pots conf_dict pot_dict target_team n acc r
  = (Return results, r') →
  table_total (combinations acc) = successful acc →
  table_total (combinations results) = successful results
  ∧ successful results + failed results
    = successful acc + failed acc + n.
Proof.
  induction n as [|n IH]; intros acc r results r' Hpot Hlookup Htarget;
    cbn [simulation_loop].
  - intros [= <- <-] Hacc. split; [done | lia].
  - destruct (simulation_step _ _ _ _ acc r) as [[acc'|e] r1] eqn:Hstep;
      [|done].
    intros Hloop Hacc.
    destruct (simulation_step_totals _ _ _ _ _ _ Hpot Hlookup Htarget Hstep)
      as (H1 & H2 & H3).
    destruct (IH acc' r1 results r' Hpot Hlookup Htarget Hloop) as [? ?];
      [lia|]. split; [done | lia].
Qed.

End DriverFacts.

(** C8, as the specification states it, fails: for a tracked team that is in
    none of the pots every successful run is counted, but no combination
    is, so the table sums to 0 while the successful count is 3. *)
Lemma untracked_team_table_total_differs :
  ¬ (∀ df_pots conf_dict pot_dict num_simulations target_team (r : unit)
       results r',
       run_mass_simulation df_pots conf_dict pot_dict num_simulations
         target_team r = (Return results, r') →
       table_total (combinations results) = successful results).
Proof.
  intros Hclaim.
  specialize (Hclaim sample_df_pots sample_confs sample_pots 3%Z "Atlantis" tt
                untracked_results tt).
  assert (table_total (combinations untracked_results)
          = successful untracked_results) as Heq.
  { apply Hclaim. exact untracked_run. }
  vm_compute in Heq. discriminate Heq.
Qed.

(** C8, amended: when the tracked team is one of the teams of the four pots,
    after [run_mass_simulation] has completed its runs the counts of the
    frequency table sum to the successful count (and successful and failed
    runs together are all the runs); a run in which the engine returns
    [None] raises the failed count by one and leaves the table and the
    successful count as they were. *)
Theorem run_mass_simulation_totals {R : Type} `{!RandomSource R}
    `{!RandomSourceLawful R} df_pots conf_dict pot_dict num_simulations
    target_team (r : R) results r' pot_name teams :
  pot_name ∈ ["Pot 1"; "Pot 2"; "Pot 3"; "Pot 4"] →
  pot_dict !! pot_name = Some teams →
  target_team ∈ teams →
  run_mass_simulation df_pots conf_dict pot_dict num_simulations target_team r
  = (Return results, r') →
  table_total (combinations results) = successful results
  ∧ successful results + failed results = Z.to_nat num_simulations
  ∧ ∀ acc (r0 r1 : R),
      simulate_single_draw df_pots conf_dict pot_dict
        MAX_ATTEMPTS_PER_SIMULATION r0 = (Return None, r1) →
      simulation_step df_pots conf_dict pot_dict target_team acc r0
      = (Return {| combinations := combinations acc;
                   successful := successful acc;
                   failed := S (failed acc) |}, r1).
Proof.
  intros Hpot Hlookup Htarget Hrun. unfold run_mass_simulation in Hrun.
  destruct (simulation_loop_totals _ _ _ _ _ _ _ _ _ _ _ Hpot Hlookup Htarget
              Hrun) as [Htotal Hruns].
  { done. }
  split; [done|]. split; [simpl in Hruns; lia|].
  intros acc r0 r1. apply simulation_step_failed.
Qed.

Lemma run_mass_simulation_totals_witness :
  table_total (combinations sample_results) = successful sample_results
  ∧ successful sample_results + failed sample_results = Z.to_nat 3
  ∧ ∀ acc (r0 r1 : unit),
      simulate_single_draw sample_df_pots sample_confs sample_pots
        MAX_ATTEMPTS_PER_SIMULATION r0 = (Return None, r1) →
      simulation_step sample_df_pots sample_confs sample_pots "Argentina"
        acc r0
      = (Return {| combinations := combinations acc;
                   successful := successful acc;
                   failed := S (failed acc) |}, r1).
Proof.
  apply (run_mass_simulation_totals (R := unit) sample_df_pots sample_confs
           sample_pots 3 "Argentina" tt sample_results tt "Pot 1"
           sample_pot1).
  - set_solver.
  - vm_compute; reflexivity.
  - unfold sample_pot1. set_solver.
  - vm_compute; reflexivity.
Defined.

(** * Further properties *)

(** ** The checker and the resolver on their own *)

Lemma label_count_nil conf_dict conf : label_count conf_dict [] conf = 0.
Proof. reflexivity. Qed.

Lemma label_count_app conf_dict l1 l2 conf :
  label_count conf_dict (l1 ++ l2) conf
  = label_count conf_dict l1 conf + label_count conf_dict l2 conf.
Proof.
  induction l1 as [|t l1 IH]; [done|].
  rewrite <- app_comm_cons, !label_count_cons, IH. lia.
Qed.

Lemma can_team_go_to_group_occupants team group1 group2 formed1 formed2
    conf_dict :
  occupants formed1 group1 = occupants formed2 group2 →
  can_team_go_to_group team group1 formed1 conf_dict
  = can_team_go_to_group team group2 formed2 conf_dict.
Proof.
  intros Heq.
  pose proof (can_team_go_to_group_spec team group1 formed1 conf_dict) as H1.
  pose proof (can_team_go_to_group_spec team group2 formed2 conf_dict) as H2.
  rewrite Heq in H1.
  destruct (can_team_go_to_group team group1 formed1 conf_dict),
    (can_team_go_to_group team group2 formed2 conf_dict); try done.
  - symmetry. apply H2, H1. done.
  - apply H1, H2. done.
Qed.

(** X1: a group without occupants, be it listed with an empty list or not a
    key of [groups_formed] at all, admits every team, whatever its
    confederations. *)
Theorem can_team_go_to_group_empty_group team group formed conf_dict :
  dict_lookup formed group = None ∨ dict_lookup formed group = Some [] →
  can_team_go_to_group team group formed conf_dict = true.
Proof.
  intros Hempty. apply can_team_go_to_group_spec. intros conf _.
  assert (occupants formed group = []) as ->.
  { unfold occupants. by destruct Hempty as [-> | ->]. }
  rewrite label_count_nil. apply conf_cap_pos.
Qed.

Lemma can_team_go_to_group_empty_group_witness :
  can_team_go_to_group "Playoff 1" "Z" sample_draw sample_confs = true.
Proof.
  apply (can_team_go_to_group_empty_group "Playoff 1" "Z" sample_draw
           sample_confs).
  left. reflexivity.
Defined.

(** X2: appending a team to a group can only close the group: a team the
    checker admits to the group afterwards was admitted before, and the
    checker's answer for every other group stays the same. *)
Theorem can_team_go_to_group_after_append team group formed conf_dict g x
    formed' :
  dict_append formed g x = Some formed' →
  (can_team_go_to_group team g formed' conf_dict = true →
   can_team_go_to_group team g formed conf_dict = true)
  ∧ (group ≠ g →
     can_team_go_to_group team group formed' conf_dict
     = can_team_go_to_group team group formed conf_dict).
Proof.
  intros Happ. split.
  - rewrite !can_team_go_to_group_spec. intros Hall conf Hconf.
    specialize (Hall conf Hconf).
    rewrite (occupants_append _ _ _ _ g Happ) in Hall.
    destruct (decide (g = g)); [|done].
    rewrite label_count_app in Hall. lia.
  - intros Hne. apply can_team_go_to_group_occupants.
    rewrite (occupants_append _ _ _ _ group Happ).
    by destruct (decide (group = g)).
Qed.

Lemma can_team_go_to_group_after_append_witness :
  (can_team_go_to_group "Japan" "A"
     [("A", ["Mexico"; "Spain"]); ("B", [])] sample_confs = true →
   can_team_go_to_group "Japan" "A"
     [("A", ["Mexico"]); ("B", [])] sample_confs = true)
  ∧ ("B" ≠ "A" →
     can_team_go_to_group "Japan" "B"
       [("A", ["Mexico"; "Spain"]); ("B", [])] sample_confs
     = can_team_go_to_group "Japan" "B"
         [("A", ["Mexico"]); ("B", [])] sample_confs).
Proof.
  apply (can_team_go_to_group_after_append "Japan" "B"
           [("A", ["Mexico"]); ("B", [])] sample_confs "A" "Spain"
           [("A", ["Mexico"; "Spain"]); ("B", [])]).
  reflexivity.
Defined.

(** X3: for a team without confederation data (absent from [conf_dict]) the
    resolver returns all groups its pot has not filled, in the order of
    [GROUPS]: the confederation rules do not restrict it. *)
Theorem get_available_groups_unlisted_team team pot_name formed filled
    conf_dict :
  conf_dict !! team = None →
  get_available_groups_for_team team pot_name formed filled conf_dict
  = filter (λ g, g ∉ filled_for filled pot_name) GROUPS.
Proof.
  intros Hnone. rewrite get_available_filter. apply list_filter_iff.
  intros g. unfold open_for. split; [tauto|]. intros Hfree. split; [done|].
  apply can_team_go_to_group_spec. intros conf Hconf.
  unfold conf_get in Hconf. rewrite Hnone in Hconf.
  by apply elem_of_nil in Hconf.
Qed.

Lemma get_available_groups_unlisted_team_witness :
  get_available_groups_for_team "Atlantis" "Pot 2" sample_draw
    {[ "Pot 2" := {[ "A"; "C" ]} ]} sample_confs
  = filter (λ g, g ∉ filled_for ({[ "Pot 2" := {[ "A"; "C" ]} ]}
                                   : gmap string (gset string)) "Pot 2")
      GROUPS.
Proof.
  apply (get_available_groups_unlisted_team "Atlantis" "Pot 2" sample_draw
           {[ "Pot 2" := {[ "A"; "C" ]} ]} sample_confs).
  vm_compute. reflexivity.
Defined.

(** X4: once a team of a pot is placed into a group, the resolver offers
    that group to no further team of the same pot, and what it offers to a
    team of the pot can only shrink. *)
Theorem placed_group_no_longer_available team pot_name g st st' team'
    conf_dict :
  place team pot_name g st = Some st' →
  (g ∉ get_available_groups_for_team team' pot_name (groups_formed st')
         (groups_filled_by_pot st') conf_dict)
  ∧ ∀ g', g' ∈ get_available_groups_for_team team' pot_name
                 (groups_formed st') (groups_filled_by_pot st') conf_dict →
      g' ∈ get_available_groups_for_team team' pot_name (groups_formed st)
             (groups_filled_by_pot st) conf_dict.
Proof.
  intros Hplace.
  destruct (place_spec _ _ _ _ _ Hplace) as (_ & _ & Hocc & _ & _ & Hfilled).
  split.
  - rewrite elem_of_get_available, Hfilled.
    destruct (decide (pot_name = pot_name)); [|done].
    intros (_ & Hnot & _). apply Hnot. set_solver.
  - intros g'. rewrite !elem_of_get_available, Hfilled.
    destruct (decide (pot_name = pot_name)); [|done].
    intros (Hg & Hnot & Hcan). split; [done|]. split; [set_solver|].
    assert (g' ≠ g) as Hne by set_solver.
    rewrite <- Hcan. apply can_team_go_to_group_occupants.
    rewrite Hocc. by destruct (decide (g' = g)).
Qed.

Lemma placed_group_no_longer_available_witness :
  let st' := default init_state (place "Spain" "Pot 1" "C" init_state) in
  place "Spain" "Pot 1" "C" init_state = Some st'
  ∧ ("C" ∉ get_available_groups_for_team "France" "Pot 1"
             (groups_formed st') (groups_filled_by_pot st') sample_confs)
  ∧ ∀ g', g' ∈ get_available_groups_for_team "France" "Pot 1"
                 (groups_formed st') (groups_filled_by_pot st')
                 sample_confs →
      g' ∈ get_available_groups_for_team "France" "Pot 1"
             (groups_formed init_state) (groups_filled_by_pot init_state)
             sample_confs.
Proof.
  intros st'.
  assert (Hplace : place "Spain" "Pot 1" "C" init_state = Some st')
    by (vm_compute; reflexivity).
  split; [exact Hplace|].
  apply (placed_group_no_longer_available "Spain" "Pot 1" "C" init_state
           st' "France" sample_confs Hplace).
Defined.

(** ** Exceptions, pot sizes and the attempt budget *)

Lemma well_keyed_init : well_keyed init_state.
Proof. split; [apply init_state_keys | apply init_state_dom]. Qed.

Lemma phase_well_keyed pot_name b placed st :
  phase pot_name b placed st → well_keyed b → well_keyed st.
Proof.
  intros Hph [Hkeys Hdom]. split.
  - by rewrite (phase_keys _ _ _ _ Hph).
  - intros p Hp. rewrite (phase_dom _ _ _ _ Hph). by apply Hdom.
Qed.

Lemma place_well_keyed team pot_name g st st' :
  place team pot_name g st = Some st' → well_keyed st → well_keyed st'.
Proof.
  intros Hplace [Hkeys Hdom].
  destruct (place_spec _ _ _ _ _ Hplace) as (Hk & _ & _ & Hd & _).
  split; [congruence|]. intros p Hp. rewrite Hd. by apply Hdom.
Qed.

Lemma phase_at_most pot_name b placed st :
  phase pot_name b placed st →
  filled_for (groups_filled_by_pot b) pot_name = ∅ →
  length placed ≤ length GROUPS.
Proof.
  intros Hph Hempty.
  pose proof (phase_size _ _ _ _ Hph) as Hsize.
  rewrite Hempty, size_empty in Hsize. simpl in Hsize. rewrite <- Hsize.
  rewrite <- (size_list_to_set (C := gset string) GROUPS)
    by apply GROUPS_NoDup.
  apply subseteq_size. intros g Hg. apply elem_of_list_to_set.
  apply (phase_in_groups _ _ _ _ Hph); [done|]. rewrite Hempty. set_solver.
Qed.

Lemma dict_append_all_occupants d k x d' :
  dict_append d k x = Some d' → all_occupants d' ≡ₚ x :: all_occupants d.
Proof.
  unfold all_occupants. revert d'.
  induction d as [|[k' v] d IH]; intros d'; cbn [dict_append]; [done|].
  destruct (String.eqb k' k).
  - intros [= <-]. cbn [mbind list_bind snd].
    rewrite <- app_assoc. simpl.
    by rewrite <- Permutation_middle.
  - destruct (dict_append d k x) as [d''|]; [|done]. simpl.
    intros [= <-]. cbn [mbind list_bind snd].
    rewrite (IH d'' eq_refl). by rewrite <- Permutation_middle.
Qed.

Lemma place_all_occupants team pot_name g st st' :
  place team pot_name g st = Some st' →
  all_occupants (groups_formed st') ≡ₚ team :: all_occupants (groups_formed st).
Proof.
  unfold place. destruct (dict_append _ g team) as [gf|] eqn:Happ; [|done].
  simpl. destruct (filled_add _ pot_name g) as [f|]; [|done]. simpl.
  intros [= <-]. simpl. by apply dict_append_all_occupants in Happ.
Qed.

Lemma assign_fixed_hosts_all_occupants hosts : ∀ pot1 st rest st',
  assign_fixed_hosts hosts pot1 st = Some (rest, st') →
  all_occupants (groups_formed st') ++ rest
  ≡ₚ all_occupants (groups_formed st) ++ pot1.
Proof.
  induction hosts as [|[host g] hosts IH]; intros pot1 st rest st';
    cbn [assign_fixed_hosts].
  - by intros [= <- <-].
  - case_bool_decide as Hin; [|apply IH].
    destruct (place host "Pot 1" g st) as [st1|] eqn:Hplace; [|done].
    cbn [mbind option_bind]. intros Hrun%IH. rewrite Hrun.
    rewrite (place_all_occupants _ _ _ _ _ Hplace).
    rewrite (remove_first_perm host pot1 Hin) at 2.
    simpl. by rewrite <- Permutation_middle.
Qed.

Section EngineReturns.
Context {R : Type} `{!RandomSource R} `{!RandomSourceLawful R}.
Variable conf_dict : gmap string (list string).
Variable pot_dict : gmap string (list string).

Lemma assign_teams_returns pot_name teams : ∀ st (r : R),
  well_keyed st →
  pot_name ∈ ["Pot 1"; "Pot 2"; "Pot 3"; "Pot 4"] →
  match (assign_teams conf_dict pot_name teams st r).1 with
  | Ok st' => well_keyed st'
  | DeadEnd => True
  | Raised _ => False
  end.
Proof.
  induction teams as [|team teams IH]; intros st r Hwk Hpot;
    cbn [assign_teams]; [done|].
  destruct (get_available_groups_for_team team pot_name _ _ _)
    as [|g0 gs] eqn:Hav; [done|].
  pose proof (choice_elem (g0 :: gs) r) as Hin.
  destruct (choice (g0 :: gs) r) as [g r1]. simpl in Hin.
  assert (g ∈ GROUPS) as Hg.
  { assert (g ∈ get_available_groups_for_team team pot_name
                  (groups_formed st) (groups_filled_by_pot st) conf_dict)
      as Hmem by (rewrite Hav; by apply Hin).
    by apply elem_of_get_available in Hmem as [? _]. }
  destruct (place_is_Some team pot_name g st) as [st1 Hplace].
  { destruct Hwk as [-> _]. done. }
  { destruct Hwk as [_ Hdom]. by apply Hdom. }
  rewrite Hplace. apply IH; [|done]. by eapply place_well_keyed.
Qed.

Lemma fill_pot_returns pot_name teams st (r : R) :
  well_keyed st →
  pot_name ∈ ["Pot 1"; "Pot 2"; "Pot 3"; "Pot 4"] →
  match (fill_pot conf_dict pot_name teams st r).1 with
  | Ok st' => well_keyed st'
  | DeadEnd => True
  | Raised _ => False
  end.
Proof.
  intros Hwk Hpot. unfold fill_pot. destruct (shuffle teams r) as [sh r1].
  by apply assign_teams_returns.
Qed.

Lemma fill_pot_all_occupants pot_name teams st (r : R) st' r' :
  fill_pot conf_dict pot_name teams st r = (Ok st', r') →
  all_occupants (groups_formed st')
  ≡ₚ all_occupants (groups_formed st) ++ teams.
Proof.
  unfold fill_pot. pose proof (shuffle_perm teams r) as Hperm.
  destruct (shuffle teams r) as [sh r1]. simpl in Hperm. rewrite <- Hperm.
  clear Hperm. revert st r1.
  induction sh as [|team sh IH]; intros st r1; cbn [assign_teams].
  - intros [= <- _]. by rewrite app_nil_r.
  - destruct (get_available_groups_for_team team pot_name _ _ _)
      as [|g0 gs]; [done|].
    destruct (choice (g0 :: gs) r1) as [g r2].
    destruct (place team pot_name g st) as [st1|] eqn:Hplace; [|done].
    intros Hrun%IH. rewrite Hrun, (place_all_occupants _ _ _ _ _ Hplace).
    by rewrite <- Permutation_middle.
Qed.

Lemma draw_attempt_returns (r : R) :
  (∀ pot_name, pot_name ∈ ["Pot 1"; "Pot 2"; "Pot 3"; "Pot 4"] →
     is_Some (pot_dict !! pot_name)) →
  ∀ e r', draw_attempt conf_dict pot_dict r ≠ (Raised e, r').
Proof.
  intros Hpots e r'. rewrite draw_attempt_unfold.
  destruct (Hpots "Pot 1") as [pot1 E1]; [set_solver|].
  destruct (Hpots "Pot 2") as [pot2 E2]; [set_solver|].
  destruct (Hpots "Pot 3") as [pot3 E3]; [set_solver|].
  destruct (Hpots "Pot 4") as [pot4 E4]; [set_solver|].
  rewrite E1.
  destruct (seed_placement pot1) as (hs & rest & seeded & -> & Hph & _).
  pose proof (phase_well_keyed _ _ _ _ Hph well_keyed_init) as Hwk0.
  pose proof (fill_pot_returns "Pot 1" rest seeded r Hwk0 ltac:(set_solver))
    as H1.
  destruct (fill_pot conf_dict "Pot 1" rest seeded r) as [[after1| |e1] r1];
    [|done..].
  rewrite draw_pots_cons, E4.
  pose proof (fill_pot_returns "Pot 4" pot4 after1 r1 H1 ltac:(set_solver))
    as H4.
  destruct (fill_pot conf_dict "Pot 4" pot4 after1 r1)
    as [[after4| |e4] r4]; [|done..].
  rewrite draw_pots_cons, E3.
  pose proof (fill_pot_returns "Pot 3" pot3 after4 r4 H4 ltac:(set_solver))
    as H3.
  destruct (fill_pot conf_dict "Pot 3" pot3 after4 r4)
    as [[after3| |e3] r3]; [|done..].
  rewrite draw_pots_cons, E2.
  pose proof (fill_pot_returns "Pot 2" pot2 after3 r3 H3 ltac:(set_solver))
    as H2.
  destruct (fill_pot conf_dict "Pot 2" pot2 after3 r3)
    as [[after2| |e2] r2]; done.
Qed.

Lemma attempts_loop_returns n : ∀ r : R,
  (∀ pot_name, pot_name ∈ ["Pot 1"; "Pot 2"; "Pot 3"; "Pot 4"] →
     is_Some (pot_dict !! pot_name)) →
  ∃ result r', attempts_loop conf_dict pot_dict n r = (Return result, r').
Proof.
  induction n as [|n IH]; intros r Hpots; cbn [attempts_loop]; [by eauto|].
  pose proof (draw_attempt_returns r Hpots) as Hno.
  destruct (draw_attempt conf_dict pot_dict r) as [[formed| |e] r1].
  - by eauto.
  - by apply IH.
  - by destruct (Hno e r1).
Qed.

Lemma attempt_summary_sizes formed pot_name teams :
  attempt_summary conf_dict pot_dict formed →
  pot_name ∈ ["Pot 1"; "Pot 2"; "Pot 3"; "Pot 4"] →
  pot_dict !! pot_name = Some teams →
  length teams ≤ length GROUPS.
Proof.
  intros [pot1 pot4 pot3 pot2 placed1 placed4 placed3 placed2
            after1 after4 after3 after2 E1 E4 E3 E2
            Hp1 Hp4 Hp3 Hp2 Hph1 Hph4 Hph3 Hph2 _ _] Hpot Hlookup.
  repeat (apply elem_of_cons in Hpot as [->|Hpot]).
  - assert (teams = pot1) as -> by congruence. rewrite <- Hp1.
    apply (phase_at_most _ _ _ _ Hph1), init_state_filled.
  - assert (teams = pot2) as -> by congruence. rewrite <- Hp2.
    apply (phase_at_most _ _ _ _ Hph2).
    eapply phase_other_empty; [exact Hph3|done|].
    eapply phase_other_empty; [exact Hph4|done|].
    eapply phase_other_empty; [exact Hph1|done|apply init_state_filled].
  - assert (teams = pot3) as -> by congruence. rewrite <- Hp3.
    apply (phase_at_most _ _ _ _ Hph3).
    eapply phase_other_empty; [exact Hph4|done|].
    eapply phase_other_empty; [exact Hph1|done|apply init_state_filled].
  - assert (teams = pot4) as -> by congruence. rewrite <- Hp4.
    apply (phase_at_most _ _ _ _ Hph4).
    eapply phase_other_empty; [exact Hph1|done|apply init_state_filled].
  - by apply elem_of_nil in Hpot.
Qed.

Lemma attempt_stages_all_occupants (r : R) formed r' pot1 pot2 pot3 pot4 :
  pot_dict !! "Pot 1" = Some pot1 → pot_dict !! "Pot 2" = Some pot2 →
  pot_dict !! "Pot 3" = Some pot3 → pot_dict !! "Pot 4" = Some pot4 →
  attempt_stages conf_dict pot_dict r formed r' →
  all_occupants formed ≡ₚ pot1 ++ pot4 ++ pot3 ++ pot2.
Proof.
  intros E1 E2 E3 E4
    [p1 p4 p3 p2 rest seeded after1 after4 after3 after2
       r1 r4 r3 r2 E1' E4' E3' E2' Es F1 F4 F3 F2].
  assert (p1 = pot1) as -> by congruence.
  assert (p2 = pot2) as -> by congruence.
  assert (p3 = pot3) as -> by congruence.
  assert (p4 = pot4) as -> by congruence.
  rewrite (fill_pot_all_occupants _ _ _ _ _ _ F2),
    (fill_pot_all_occupants _ _ _ _ _ _ F3),
    (fill_pot_all_occupants _ _ _ _ _ _ F4),
    (fill_pot_all_occupants _ _ _ _ _ _ F1).
  apply assign_fixed_hosts_all_occupants in Es. simpl in Es.
  rewrite Es. by rewrite <- !app_assoc.
Qed.

End EngineReturns.

(** X5: when [pot_dict] holds the four pots, [simulate_single_draw] always
    returns (an assignment or [None]); no [KeyError] escapes it, whatever
    the teams, their confederations and the attempt budget are. *)
Theorem simulate_single_draw_returns {R : Type} `{!RandomSource R}
    `{!RandomSourceLawful R} df_pots conf_dict pot_dict max_attempts (r : R) :
  (∀ pot_name, pot_name ∈ ["Pot 1"; "Pot 2"; "Pot 3"; "Pot 4"] →
     is_Some (pot_dict !! pot_name)) →
  ∃ result r',
    simulate_single_draw df_pots conf_dict pot_dict max_attempts r
    = (Return result, r').
Proof. intros Hpots. by apply attempts_loop_returns. Qed.

Lemma stuck_pots_four pot_name :
  pot_name ∈ ["Pot 1"; "Pot 2"; "Pot 3"; "Pot 4"] →
  is_Some (stuck_pots !! pot_name).
Proof.
  intros Hpot. repeat (apply elem_of_cons in Hpot as [->|Hpot]);
    [vm_compute; eauto..|]. by apply elem_of_nil in Hpot.
Defined.

Lemma simulate_single_draw_returns_witness :
  ∃ result r',
    simulate_single_draw sample_df_pots sample_confs stuck_pots 2 tt
    = (Return result, r').
Proof.
  apply (simulate_single_draw_returns (R := unit) sample_df_pots sample_confs
           stuck_pots 2 tt stuck_pots_four).
Defined.

(** X6: when one of the four pots is missing from [pot_dict],
    [simulate_single_draw] never returns an assignment; when it is Pot 1
    and the budget allows an attempt, the first attempt raises [KeyError]
    before the generator is used. *)
Theorem simulate_single_draw_missing_pot {R : Type} `{!RandomSource R}
    df_pots conf_dict pot_dict max_attempts (r : R) pot_name :
  pot_name ∈ ["Pot 1"; "Pot 2"; "Pot 3"; "Pot 4"] →
  pot_dict !! pot_name = None →
  (∀ formed r',
     simulate_single_draw df_pots conf_dict pot_dict max_attempts r
     ≠ (Return (Some formed), r'))
  ∧ (pot_name = "Pot 1" → (0 < max_attempts)%Z →
     simulate_single_draw df_pots conf_dict pot_dict max_attempts r
     = (Raise KeyError, r)).
Proof.
  intros Hpot Hnone. split.
  - intros formed r' (i & _ & _ & Hok)%attempts_loop_Some.
    apply draw_attempt_Ok in Hok.
    destruct Hok as [? ? ? ? ? ? ? ? ? ? ? ? ? ? E1 E4 E3 E2 _ _ _ _ _].
    repeat (apply elem_of_cons in Hpot as [->|Hpot]); try congruence.
    by apply elem_of_nil in Hpot.
  - intros -> Hpos. unfold simulate_single_draw.
    destruct (Z.to_nat max_attempts) as [|n] eqn:Hn; [lia|].
    cbn [attempts_loop]. unfold draw_attempt. by rewrite Hnone.
Qed.

Lemma simulate_single_draw_missing_pot_witness :
  (∀ formed r',
     simulate_single_draw [] sample_confs
       ({[ "Pot 2" := sample_pot2 ]} : gmap string (list string)) 5 tt
     ≠ (Return (Some formed), r'))
  ∧ ("Pot 1" = "Pot 1" → (0 < 5)%Z →
     simulate_single_draw [] sample_confs
       ({[ "Pot 2" := sample_pot2 ]} : gmap string (list string)) 5 tt
     = (Raise KeyError, tt)).
Proof.
  apply (simulate_single_draw_missing_pot (R := unit) [] sample_confs
           {[ "Pot 2" := sample_pot2 ]} 5 tt "Pot 1").
  - set_solver.
  - vm_compute. reflexivity.
Defined.

(** X7: a pot with more than 12 teams cannot be placed: with the four pots
    present and one of them longer than the number of groups, every attempt
    ends in a dead end and [simulate_single_draw] returns [None]. *)
Theorem simulate_single_draw_overfull_pot {R : Type} `{!RandomSource R}
    `{!RandomSourceLawful R} df_pots conf_dict pot_dict max_attempts (r : R)
    pot_name teams :
  (∀ p, p ∈ ["Pot 1"; "Pot 2"; "Pot 3"; "Pot 4"] →
     is_Some (pot_dict !! p)) →
  pot_name ∈ ["Pot 1"; "Pot 2"; "Pot 3"; "Pot 4"] →
  pot_dict !! pot_name = Some teams →
  NUM_GROUPS < length teams →
  ∃ r', simulate_single_draw df_pots conf_dict pot_dict max_attempts r
        = (Return None, r').
Proof.
  intros Hpots Hpot Hlookup Hlong.
  destruct (attempts_loop_returns conf_dict pot_dict (Z.to_nat max_attempts)
              r Hpots) as (result & r' & Hrun).
  change (simulate_single_draw df_pots conf_dict pot_dict max_attempts r
          = (Return result, r')) in Hrun.
  destruct result as [formed|]; [|by eauto].
  pose proof (simulate_single_draw_summary _ _ _ _ _ _ _ Hrun) as Hsum.
  pose proof (attempt_summary_sizes _ _ _ _ _ Hsum Hpot Hlookup) as Hle.
  change (length GROUPS) with NUM_GROUPS in Hle. lia.
Qed.

(** Pots whose Pot 3 lists thirteen teams. *)
Lemma simulate_single_draw_overfull_pot_witness :
  let pots : gmap string (list string) :=
    <["Pot 3" := "Wales" :: sample_pot3]> sample_pots in
  ∃ r', simulate_single_draw sample_df_pots sample_confs pots 2 tt
        = (Return None, r').
Proof.
  intros pots.
  apply (simulate_single_draw_overfull_pot (R := unit) sample_df_pots
           sample_confs pots 2 tt "Pot 3" ("Wales" :: sample_pot3)).
  - intros p Hp. repeat (apply elem_of_cons in Hp as [->|Hp]);
      [vm_compute; eauto..|]. by apply elem_of_nil in Hp.
  - set_solver.
  - vm_compute. reflexivity.
  - vm_compute. lia.
Defined.

(** X8: the teams of a returned assignment, taken over all groups, are
    exactly the teams of the four pots, each as often as the pots list it:
    no team is dropped, placed twice or invented. *)
Theorem successful_draw_places_every_team {R : Type} `{!RandomSource R}
    `{!RandomSourceLawful R} df_pots conf_dict pot_dict max_attempts (r : R)
    formed r' pot1 pot2 pot3 pot4 :
  pot_dict !! "Pot 1" = Some pot1 → pot_dict !! "Pot 2" = Some pot2 →
  pot_dict !! "Pot 3" = Some pot3 → pot_dict !! "Pot 4" = Some pot4 →
  simulate_single_draw df_pots conf_dict pot_dict max_attempts r
  = (Return (Some formed), r') →
  all_occupants formed ≡ₚ pot1 ++ pot4 ++ pot3 ++ pot2.
Proof.
  intros E1 E2 E3 E4 (i & _ & _ & Hok)%attempts_loop_Some.
  apply draw_attempt_Ok in Hok.
  by eapply attempt_stages_all_occupants.
Qed.

Lemma successful_draw_places_every_team_witness :
  all_occupants sample_draw
  ≡ₚ sample_pot1 ++ sample_pot4 ++ sample_pot3 ++ sample_pot2.
Proof.
  apply (successful_draw_places_every_team (R := unit) sample_df_pots
           sample_confs sample_pots MAX_ATTEMPTS_PER_SIMULATION tt
           sample_draw tt sample_pot1 sample_pot2 sample_pot3 sample_pot4).
  - vm_compute; reflexivity.
  - vm_compute; reflexivity.
  - vm_compute; reflexivity.
  - vm_compute; reflexivity.
  - vm_compute; reflexivity.
Defined.

(** X9: a larger attempt budget never changes a result that a smaller one
    reached: an assignment found within [max1] attempts is returned
    unchanged, with the same generator state, under every budget above
    [max1]; and a call that gives up under the larger budget gives up under
    the smaller one. *)
Theorem larger_budget_keeps_result {R : Type} `{!RandomSource R}
    df_pots conf_dict pot_dict max1 max2 (r : R) :
  (max1 ≤ max2)%Z →
  (∀ formed r',
     simulate_single_draw df_pots conf_dict pot_dict max1 r
     = (Return (Some formed), r') →
     simulate_single_draw df_pots conf_dict pot_dict max2 r
     = (Return (Some formed), r'))
  ∧ (∀ r',
     simulate_single_draw df_pots conf_dict pot_dict max2 r
     = (Return None, r') →
     ∃ r'', simulate_single_draw df_pots conf_dict pot_dict max1 r
            = (Return None, r'')).
Proof.
  intros Hle. unfold simulate_single_draw. split.
  - intros formed r' (i & Hi & Hdead & Hok)%attempts_loop_Some.
    apply attempts_loop_Some. exists i. split; [lia | done].
  - intros r' [Hdead _]%attempts_loop_None. eexists.
    apply attempts_loop_None. split; [|reflexivity].
    intros i Hi. apply Hdead. lia.
Qed.

Lemma larger_budget_keeps_result_witness :
  (1 ≤ 1000)%Z
  ∧ (∀ formed r',
       simulate_single_draw sample_df_pots sample_confs sample_pots 1 tt
       = (Return (Some formed), r') →
       simulate_single_draw sample_df_pots sample_confs sample_pots 1000 tt
       = (Return (Some formed), r'))
  ∧ (∀ r',
       simulate_single_draw sample_df_pots sample_confs sample_pots 1000 tt
       = (Return None, r') →
       ∃ r'', simulate_single_draw sample_df_pots sample_confs sample_pots
                1 tt = (Return None, r'')).
Proof.
  assert (Hle : (1 ≤ 1000)%Z) by lia.
  split; [exact Hle|].
  apply (larger_budget_keeps_result (R := unit) sample_df_pots sample_confs
           sample_pots 1 1000 tt Hle).
Defined.

Lemma attempts_loop_unit conf_dict pot_dict n :
  (attempts_loop (R := unit) conf_dict pot_dict (S n) tt).1
  = (attempts_loop (R := unit) conf_dict pot_dict 1 tt).1.
Proof.
  cbn [attempts_loop].
  destruct (draw_attempt (R := unit) conf_dict pot_dict tt)
    as [[formed| |e] []] eqn:E; [done| |done].
  induction n as [|n IH]; [done|].
  cbn [attempts_loop]. by rewrite E.
Qed.

(** X10: under a source that always answers with the first candidate every
    attempt repeats the first one, so the budget does not matter: any
    budget of at least one attempt gives the result of a single attempt. *)
Theorem first_candidate_budget_irrelevant {R : Type} `{!RandomSource R}
    df_pots conf_dict pot_dict max_attempts (r : R) :
  always_first R →
  (1 ≤ max_attempts)%Z →
  (simulate_single_draw df_pots conf_dict pot_dict max_attempts r).1
  = (simulate_single_draw df_pots conf_dict pot_dict 1 r).1.
Proof.
  intros Hfirst Hpos. unfold simulate_single_draw.
  rewrite !(attempts_loop_first Hfirst).
  destruct (Z.to_nat max_attempts) as [|n] eqn:Hn; [lia|].
  change (Z.to_nat 1) with 1. apply attempts_loop_unit.
Qed.

Lemma first_candidate_budget_irrelevant_witness :
  always_first nat ∧ (1 ≤ 4)%Z
  ∧ (simulate_single_draw sample_df_pots sample_confs stuck_pots 4 0).1
    = (simulate_single_draw sample_df_pots sample_confs stuck_pots 1 0).1.
Proof.
  assert (H1 : always_first nat) by (split; reflexivity).
  assert (H2 : (1 ≤ 4)%Z) by lia.
  split; [exact H1|]. split; [exact H2|].
  apply (first_candidate_budget_irrelevant sample_df_pots sample_confs
           stuck_pots 4 0 H1 H2).
Defined.

(** ** The driver: counts, the tracked team and the pots table *)

Lemma count_target_group_cases items df_pots target_team counter counter' :
  count_target_group items df_pots target_team counter = Some counter' →
  counter' = counter ∨ ∃ key, counter' = combination_incr counter key.
Proof.
  induction items as [|[g ts] items IH]; cbn [count_target_group].
  - intros [= <-]. by left.
  - case_bool_decide; [|done].
    destruct (identify_pots df_pots ts (None, None, None, None))
      as [[[[p1 p2] p3] p4]|]; simpl; [|done].
    intros [= <-]. right. by eexists.
Qed.

Lemma count_target_group_absent items df_pots target_team counter :
  (∀ group teams, (group, teams) ∈ items → target_team ∉ teams) →
  count_target_group items df_pots target_team counter = Some counter.
Proof.
  induction items as [|[g ts] items IH]; intros Habsent;
    cbn [count_target_group]; [done|].
  case_bool_decide as Hin.
  - destruct (Habsent g ts); [left | done].
  - apply IH. intros group teams Hmem. apply (Habsent group teams).
    by right.
Qed.

Lemma identify_pots_None df_pots teams : ∀ found team,
  team ∈ teams → pot_of df_pots team = None →
  identify_pots df_pots teams found = None.
Proof.
  induction teams as [|t teams IH]; intros found team Hin Hnone.
  - by apply elem_of_nil in Hin.
  - cbn [identify_pots]. destruct (pot_of df_pots t) as [pot|] eqn:Hpot;
      [|done]. cbn [mbind option_bind].
    destruct found as [[[p1 p2] p3] p4].
    apply elem_of_cons in Hin as [->|Hin]; [congruence|].
    by apply (IH _ team).
Qed.


Lemma count_target_group_None items df_pots target_team counter :
  (∃ group teams, (group, teams) ∈ items ∧ target_team ∈ teams) →
  pot_of df_pots target_team = None →
  count_target_group items df_pots target_team counter = None.
Proof.
  induction items as [|[g ts] items IH]; intros (group & teams & Hin & Ht)
    Hnone.
  - by apply elem_of_nil in Hin.
  - cbn [count_target_group]. case_bool_decide as Hhere.
    + by rewrite (identify_pots_None df_pots ts _ target_team Hhere Hnone).
    + apply IH; [|done]. exists group, teams. split; [|done].
      apply elem_of_cons in Hin as [[= -> ->]|Hin]; done.
Qed.


Lemma elem_of_all_occupants formed group teams team :
  (group, teams) ∈ formed → team ∈ teams → team ∈ all_occupants formed.
Proof.
  intros Hin Ht. unfold all_occupants. apply list_elem_of_bind.
  by exists (group, teams).
Qed.

Lemma attempt_summary_nonempty conf_dict pot_dict formed :
  attempt_summary conf_dict pot_dict formed → truthy (Some formed) = true.
Proof.
  intros Hkeys%attempt_summary_keys. by destruct formed.
Qed.

Section DriverCounts.
Context {R : Type} `{!RandomSource R}.
Variable df_pots : list (string * string).
Variable conf_dict : gmap string (list string).
Variable pot_dict : gmap string (list string).
Variable target_team : string.

Lemma simulation_step_counts acc (r : R) acc' r' :
  simulation_step df_pots conf_dict pot_dict target_team acc r
  = (Return acc', r') →
  successful acc' + failed acc' = S (successful acc + failed acc)
  ∧ successful acc ≤ successful acc'
  ∧ table_total (combinations acc) ≤ table_total (combinations acc')
  ∧ table_total (combinations acc') + successful acc
    ≤ table_total (combinations acc) + successful acc'.
Proof.
  unfold simulation_step.
  destruct (simulate_single_draw _ _ _ _ r) as [[result|e] r1]; [|done].
  destruct (truthy result).
  - destruct (count_target_group _ _ _ _) as [counter|] eqn:Hcount; [|done].
    intros [= <- <-]. cbn [combinations successful failed].
    apply count_target_group_cases in Hcount as [->|[key ->]].
    + lia.
    + rewrite table_total_incr. lia.
  - intros [= <- <-]. cbn [combinations successful failed]. lia.
Qed.

Lemma simulation_loop_counts n : ∀ acc (r : R) results r',
  simulation_loop df_pots conf_dict pot_dict target_team n acc r
  = (Return results, r') →
  successful results + failed results = successful acc + failed acc + n
  ∧ successful acc ≤ successful results
  ∧ table_total (combinations acc) ≤ table_total (combinations results)
  ∧ table_total (combinations results) + successful acc
    ≤ table_total (combinations acc) + successful results.
Proof.
  induction n as [|n IH]; intros acc r results r'; cbn [simulation_loop].
  - intros [= <- <-]. lia.
  - destruct (simulation_step _ _ _ _ acc r) as [[acc'|e] r1] eqn:Hstep;
      [|done].
    intros Hloop. apply simulation_step_counts in Hstep.
    apply IH in Hloop. lia.
Qed.

End DriverCounts.

(** X11: every run of a completed mass simulation is counted exactly once,
    as a success or as a failure: [successful + failed] is the number of
    runs (0 for a negative [num_simulations]), whoever the tracked team
    is. *)
Theorem run_mass_simulation_counts_every_run {R : Type} `{!RandomSource R}
    df_pots conf_dict pot_dict num_simulations target_team (r : R)
    results r' :
  run_mass_simulation df_pots conf_dict pot_dict num_simulations target_team r
  = (Return results, r') →
  successful results + failed results = Z.to_nat num_simulations.
Proof.
  intros Hrun. apply simulation_loop_counts in Hrun. simpl in Hrun. lia.
Qed.

Lemma run_mass_simulation_counts_every_run_witness :
  successful untracked_results + failed untracked_results = Z.to_nat 3.
Proof.
  apply (run_mass_simulation_counts_every_run (R := unit) sample_df_pots
           sample_confs sample_pots 3 "Atlantis" tt untracked_results tt).
  vm_compute. reflexivity.
Defined.

(** X12: the frequency table never counts more than the successful runs:
    the sum of its counts is at most [successful], for every tracked team,
    in any pot or in none. *)
Theorem run_mass_simulation_table_at_most_successful {R : Type}
    `{!RandomSource R} df_pots conf_dict pot_dict num_simulations
    target_team (r : R) results r' :
  run_mass_simulation df_pots conf_dict pot_dict num_simulations target_team r
  = (Return results, r') →
  table_total (combinations results) ≤ successful results.
Proof.
  intros Hrun. apply simulation_loop_counts in Hrun.
  cbn [combinations successful] in Hrun.
  assert (table_total (∅ : gmap combination nat) = 0) as Hzero by done.
  lia.
Qed.

Lemma run_mass_simulation_table_at_most_successful_witness :
  table_total (combinations sample_results) ≤ successful sample_results.
Proof.
  apply (run_mass_simulation_table_at_most_successful (R := unit)
           sample_df_pots sample_confs sample_pots 3 "Argentina" tt
           sample_results tt).
  vm_compute. reflexivity.
Defined.

Lemma simulate_all_occupants {R : Type} `{!RandomSource R}
    `{!RandomSourceLawful R} df_pots conf_dict pot_dict max_attempts (r : R)
    formed r' pot1 pot2 pot3 pot4 :
  pot_dict !! "Pot 1" = Some pot1 → pot_dict !! "Pot 2" = Some pot2 →
  pot_dict !! "Pot 3" = Some pot3 → pot_dict !! "Pot 4" = Some pot4 →
  simulate_single_draw df_pots conf_dict pot_dict max_attempts r
  = (Return (Some formed), r') →
  all_occupants formed ≡ₚ pot1 ++ pot4 ++ pot3 ++ pot2.
Proof.
  intros E1 E2 E3 E4 (i & _ & _ & Hok)%attempts_loop_Some.
  apply draw_attempt_Ok in Hok.
  by eapply attempt_stages_all_occupants.
Qed.

Section DriverTarget.
Context {R : Type} `{!RandomSource R} `{!RandomSourceLawful R}.
Variable df_pots : list (string * string).
Variable conf_dict : gmap string (list string).
Variable pot_dict : gmap string (list string).
Variable target_team : string.

Lemma simulation_loop_untracked pot1 pot2 pot3 pot4 n :
  pot_dict !! "Pot 1" = Some pot1 → pot_dict !! "Pot 2" = Some pot2 →
  pot_dict !! "Pot 3" = Some pot3 → pot_dict !! "Pot 4" = Some pot4 →
  target_team ∉ pot1 ++ pot4 ++ pot3 ++ pot2 →
  ∀ acc (r : R) results r',
    simulation_loop df_pots conf_dict pot_dict target_team n acc r
    = (Return results, r') →
    combinations results = combinations acc.
Proof.
  intros E1 E2 E3 E4 Habsent.
  induction n as [|n IH]; intros acc r results r'; cbn [simulation_loop].
  - by intros [= <- <-].
  - unfold simulation_step.
    destruct (simulate_single_draw _ _ _ _ r) as [[result|e] r1] eqn:Hsim;
      [|done].
    destruct (truthy result) eqn:Htruthy.
    + destruct result as [formed|]; [|done]. cbn [default from_option id].
      rewrite count_target_group_absent.
      * intros Hloop%IH. by rewrite Hloop.
      * intros group teams Hin Ht.
        apply Habsent.
        rewrite <- (simulate_all_occupants _ _ _ _ _ _ _ _ _ _ _
                      E1 E2 E3 E4 Hsim).
        by eapply elem_of_all_occupants.
    + intros Hloop%IH. by rewrite Hloop.
Qed.

End DriverTarget.

(** X13: a tracked team that is in none of the four pots is never found in
    a group, so the frequency table the driver returns is empty, however
    many runs succeed. *)
Theorem run_mass_simulation_untracked_team {R : Type} `{!RandomSource R}
    `{!RandomSourceLawful R} df_pots conf_dict pot_dict num_simulations
    target_team (r : R) results r' pot1 pot2 pot3 pot4 :
  pot_dict !! "Pot 1" = Some pot1 → pot_dict !! "Pot 2" = Some pot2 →
  pot_dict !! "Pot 3" = Some pot3 → pot_dict !! "Pot 4" = Some pot4 →
  target_team ∉ pot1 ++ pot4 ++ pot3 ++ pot2 →
  run_mass_simulation df_pots conf_dict pot_dict num_simulations target_team r
  = (Return results, r') →
  combinations results = ∅.
Proof.
  intros E1 E2 E3 E4 Habsent Hrun. unfold run_mass_simulation in Hrun.
  by rewrite (simulation_loop_untracked _ _ _ _ _ _ _ _ _ E1 E2 E3 E4 Habsent
                _ _ _ _ Hrun).
Qed.

Lemma run_mass_simulation_untracked_team_witness :
  combinations untracked_results = ∅.
Proof.
  apply (run_mass_simulation_untracked_team (R := unit) sample_df_pots
           sample_confs sample_pots 3 "Atlantis" tt untracked_results tt
           sample_pot1 sample_pot2 sample_pot3 sample_pot4).
  - vm_compute; reflexivity.
  - vm_compute; reflexivity.
  - vm_compute; reflexivity.
  - vm_compute; reflexivity.
  - intros Hin. apply (bool_decide_pack _) in Hin. vm_compute in Hin.
    exact Hin.
  - vm_compute; reflexivity.
Defined.

(** X14: when the tracked team is drawn (it is in one of the pots) but has
    no row in the pots table [df_pots], the first run whose draw succeeds
    raises [IndexError]: here, when the first draw succeeds, the whole mass
    simulation ends with that exception. *)
Theorem run_mass_simulation_missing_row {R : Type} `{!RandomSource R}
    `{!RandomSourceLawful R} df_pots conf_dict pot_dict num_simulations
    target_team (r : R) formed r1 pot_name teams :
  pot_name ∈ ["Pot 1"; "Pot 2"; "Pot 3"; "Pot 4"] →
  pot_dict !! pot_name = Some teams →
  target_team ∈ teams →
  pot_of df_pots target_team = None →
  simulate_single_draw df_pots conf_dict pot_dict
    MAX_ATTEMPTS_PER_SIMULATION r = (Return (Some formed), r1) →
  (0 < num_simulations)%Z →
  run_mass_simulation df_pots conf_dict pot_dict num_simulations target_team r
  = (Raise IndexError, r1).
Proof.
  intros Hpot Hlookup Htarget Hrow Hsim Hpos. unfold run_mass_simulation.
  destruct (Z.to_nat num_simulations) as [|n] eqn:Hn; [lia|].
  cbn [simulation_loop]. unfold simulation_step. rewrite Hsim.
  pose proof (simulate_single_draw_summary _ _ _ _ _ _ _ Hsim) as Hsum.
  rewrite (attempt_summary_nonempty _ _ _ Hsum). cbn [default from_option id].
  rewrite count_target_group_None; [done| |done].
  by eapply attempt_summary_covers.
Qed.

Lemma run_mass_simulation_missing_row_witness :
  run_mass_simulation [] sample_confs sample_pots 3 "Argentina" tt
  = (Raise IndexError, tt).
Proof.
  apply (run_mass_simulation_missing_row (R := unit) [] sample_confs
           sample_pots 3 "Argentina" tt sample_draw tt "Pot 1" sample_pot1).
  - set_solver.
  - vm_compute; reflexivity.
  - unfold sample_pot1. set_solver.
  - reflexivity.
  - vm_compute; reflexivity.
  - lia.
Defined.

Section DriverReturns.
Context {R : Type} `{!RandomSource R} `{!RandomSourceLawful R}.
Variable df_pots : list (string * string).
Variable conf_dict : gmap string (list string).
Variable pot_dict : gmap string (list string).
Variable target_team : string.


End DriverReturns.


Lemma sample_table_agrees : table_agrees sample_df_pots sample_pots.
Proof.
  intros pot_name teams team Hpot Hlookup Hteam.
  repeat (apply elem_of_cons in Hpot as [->|Hpot]);
    [..|by apply elem_of_nil in Hpot];
    vm_compute in Hlookup; injection Hlookup as <-;
    revert team Hteam; apply Forall_forall; compute_done.
Defined.



(** ** The keys of the frequency table *)

Lemma dict_elem_lookup d k v :
  NoDup (dict_keys d) → (k, v) ∈ d → dict_lookup d k = Some v.
Proof.
  unfold dict_keys. induction d as [|[k' v'] d IH]; csimpl.
  - by intros _ ?%elem_of_nil.
  - intros [Hk' Hnd]%NoDup_cons [[= -> ->]|Hin]%elem_of_cons.
    + by rewrite String.eqb_refl.
    + destruct (String.eqb_spec k' k) as [->|Hne]; [|by apply IH].
      destruct Hk'. apply list_elem_of_fmap. by exists (k, v).
Qed.

Lemma attempt_summary_full_groups conf_dict pot_dict formed
    pot1 pot2 pot3 pot4 group :
  attempt_summary conf_dict pot_dict formed →
  pot_dict !! "Pot 1" = Some pot1 → pot_dict !! "Pot 2" = Some pot2 →
  pot_dict !! "Pot 3" = Some pot3 → pot_dict !! "Pot 4" = Some pot4 →
  length pot1 = TEAMS_PER_POT → length pot2 = TEAMS_PER_POT →
  length pot3 = TEAMS_PER_POT → length pot4 = TEAMS_PER_POT →
  group ∈ GROUPS →
  ∃ t1 t4 t3 t2,
    occupants formed group = [t1; t4; t3; t2]
    ∧ t1 ∈ pot1 ∧ t4 ∈ pot4 ∧ t3 ∈ pot3 ∧ t2 ∈ pot2.
Proof.
  intros [p1 p4 p3 p2 placed1 placed4 placed3 placed2
            after1 after4 after3 after2 E1' E4' E3' E2'
            Hp1 Hp4 Hp3 Hp2 Hph1 Hph4 Hph3 Hph2 _ _]
    E1 E2 E3 E4 L1 L2 L3 L4 Hgroup.
  assert (p1 = pot1) as -> by congruence.
  assert (p2 = pot2) as -> by congruence.
  assert (p3 = pot3) as -> by congruence.
  assert (p4 = pot4) as -> by congruence.
  destruct (phase_full _ _ _ _ Hph1) with (g := group)
    as (t1 & Ht1 & Ho1); [apply init_state_filled | | done |].
  { rewrite Hp1, L1. done. }
  destruct (phase_full _ _ _ _ Hph4) with (g := group)
    as (t4 & Ht4 & Ho4); [| | done |].
  { eapply phase_other_empty; [exact Hph1|done|apply init_state_filled]. }
  { rewrite Hp4, L4. done. }
  destruct (phase_full _ _ _ _ Hph3) with (g := group)
    as (t3 & Ht3 & Ho3); [| | done |].
  { eapply phase_other_empty; [exact Hph4|done|].
    eapply phase_other_empty; [exact Hph1|done|apply init_state_filled]. }
  { rewrite Hp3, L3. done. }
  destruct (phase_full _ _ _ _ Hph2) with (g := group)
    as (t2 & Ht2 & Ho2); [| | done |].
  { eapply phase_other_empty; [exact Hph3|done|].
    eapply phase_other_empty; [exact Hph4|done|].
    eapply phase_other_empty; [exact Hph1|done|apply init_state_filled]. }
  { rewrite Hp2, L2. done. }
  exists t1, t4, t3, t2.
  rewrite Ho2, Ho3, Ho4, Ho1, occupants_init.
  split; [done|]. rewrite <- Hp1, <- Hp4, <- Hp3, <- Hp2. done.
Qed.

Lemma identify_pots_full df_pots pot_dict pot1 pot2 pot3 pot4 t1 t4 t3 t2 :
  table_agrees df_pots pot_dict →
  pot_dict !! "Pot 1" = Some pot1 → pot_dict !! "Pot 2" = Some pot2 →
  pot_dict !! "Pot 3" = Some pot3 → pot_dict !! "Pot 4" = Some pot4 →
  t1 ∈ pot1 → t4 ∈ pot4 → t3 ∈ pot3 → t2 ∈ pot2 →
  identify_pots df_pots [t1; t4; t3; t2] (None, None, None, None)
  = Some (Some t1, Some t2, Some t3, Some t4).
Proof.
  intros Hagree E1 E2 E3 E4 H1 H4 H3 H2.
  assert (Hfour : ∀ p, p ∈ ["Pot 1"; "Pot 2"; "Pot 3"; "Pot 4"]
                       ↔ p = "Pot 1" ∨ p = "Pot 2" ∨ p = "Pot 3" ∨ p = "Pot 4").
  { intros p. rewrite !elem_of_cons, elem_of_nil. tauto. }
  pose proof (Hagree "Pot 1" pot1 t1 ltac:(apply Hfour; tauto) E1 H1) as P1.
  pose proof (Hagree "Pot 4" pot4 t4 ltac:(apply Hfour; tauto) E4 H4) as P4.
  pose proof (Hagree "Pot 3" pot3 t3 ltac:(apply Hfour; tauto) E3 H3) as P3.
  pose proof (Hagree "Pot 2" pot2 t2 ltac:(apply Hfour; tauto) E2 H2) as P2.
  cbn [identify_pots]. rewrite P1, P4, P3, P2. reflexivity.
Qed.

Lemma count_target_group_key items df_pots pot_dict target_team
    pot1 pot2 pot3 pot4 counter counter' :
  table_agrees df_pots pot_dict →
  pot_dict !! "Pot 1" = Some pot1 → pot_dict !! "Pot 2" = Some pot2 →
  pot_dict !! "Pot 3" = Some pot3 → pot_dict !! "Pot 4" = Some pot4 →
  (∀ group teams, (group, teams) ∈ items →
     ∃ t1 t4 t3 t2, teams = [t1; t4; t3; t2]
                    ∧ t1 ∈ pot1 ∧ t4 ∈ pot4 ∧ t3 ∈ pot3 ∧ t2 ∈ pot2) →
  count_target_group items df_pots target_team counter = Some counter' →
  counter' = counter
  ∨ ∃ key, key_from_pots pot2 pot3 pot4 key
           ∧ counter' = combination_incr counter key.
Proof.
  intros Hagree E1 E2 E3 E4.
  induction items as [|[g ts] items IH]; intros Hfull;
    cbn [count_target_group].
  - intros [= <-]. by left.
  - case_bool_decide.
    + destruct (Hfull g ts) as (t1 & t4 & t3 & t2 & -> & H1 & H4 & H3 & H2);
        [left|].
      rewrite (identify_pots_full _ _ _ _ _ _ _ _ _ _ Hagree E1 E2 E3 E4
                 H1 H4 H3 H2). simpl.
      intros [= <-]. right. exists (Some t2, Some t3, Some t4).
      split; [|done]. by exists t2, t3, t4.
    + apply IH. intros group teams Hin. apply (Hfull group teams). by right.
Qed.

Section DriverKeys.
Context {R : Type} `{!RandomSource R} `{!RandomSourceLawful R}.
Variable df_pots : list (string * string).
Variable conf_dict : gmap string (list string).
Variable pot_dict : gmap string (list string).
Variable target_team : string.

Lemma simulation_loop_keys pot1 pot2 pot3 pot4 n :
  table_agrees df_pots pot_dict →
  pot_dict !! "Pot 1" = Some pot1 → pot_dict !! "Pot 2" = Some pot2 →
  pot_dict !! "Pot 3" = Some pot3 → pot_dict !! "Pot 4" = Some pot4 →
  length pot1 = TEAMS_PER_POT → length pot2 = TEAMS_PER_POT →
  length pot3 = TEAMS_PER_POT → length pot4 = TEAMS_PER_POT →
  ∀ acc (r : R) results r',
    (∀ key count, combinations acc !! key = Some count →
       key_from_pots pot2 pot3 pot4 key ∧ 0 < count) →
    simulation_loop df_pots conf_dict pot_dict target_team n acc r
    = (Return results, r') →
    ∀ key count, combinations results !! key = Some count →
      key_from_pots pot2 pot3 pot4 key ∧ 0 < count.
Proof.
  intros Hagree E1 E2 E3 E4 L1 L2 L3 L4.
  induction n as [|n IH]; intros acc r results r' Hacc;
    cbn [simulation_loop].
  - by intros [= <- <-].
  - unfold simulation_step.
    destruct (simulate_single_draw _ _ _ _ r) as [[result|e] r1] eqn:Hsim;
      [|done].
    destruct (truthy result) eqn:Htruthy; [|by apply IH].
    destruct result as [formed|]; [|done]. cbn [default from_option id].
    destruct (count_target_group formed df_pots target_team
                (combinations acc)) as [counter|] eqn:Hcount; [|done].
    apply IH. cbn [combinations].
    pose proof (simulate_single_draw_summary _ _ _ _ _ _ _ Hsim) as Hsum.
    pose proof (attempt_summary_keys _ _ _ Hsum) as Hkeys.
    assert (Hfull : ∀ group teams, (group, teams) ∈ formed →
              ∃ t1 t4 t3 t2, teams = [t1; t4; t3; t2]
                             ∧ t1 ∈ pot1 ∧ t4 ∈ pot4 ∧ t3 ∈ pot3 ∧ t2 ∈ pot2).
    { intros group teams Hin.
      assert (group ∈ GROUPS) as Hgroup.
      { rewrite <- Hkeys. apply list_elem_of_fmap. by exists (group, teams). }
      destruct (attempt_summary_full_groups _ _ _ _ _ _ _ group Hsum
                  E1 E2 E3 E4 L1 L2 L3 L4 Hgroup)
        as (t1 & t4 & t3 & t2 & Hocc & Hmem).
      exists t1, t4, t3, t2. split; [|done].
      assert (dict_lookup formed group = Some teams) as Hlook.
      { apply dict_elem_lookup; [|done]. rewrite Hkeys. apply GROUPS_NoDup. }
      unfold occupants in Hocc. rewrite Hlook in Hocc. done. }
    destruct (count_target_group_key _ _ _ _ _ _ _ _ _ _ Hagree E1 E2 E3 E4
                Hfull Hcount) as [->|(key & Hkey & ->)]; [done|].
    intros key' count. unfold combination_incr.
    destruct (decide (key = key')) as [->|Hne].
    + rewrite lookup_insert_eq. intros [= <-]. split; [done | lia].
    + rewrite lookup_insert_ne by done. apply Hacc.
Qed.

End DriverKeys.

(** X16: with four pots of 12 teams and a pots table that gives every team
    its pot, every key of the returned frequency table is a full triple: a
    team of Pot 2, a team of Pot 3 and a team of Pot 4, in this order, none
    of them [None]; and every stored count is positive. *)
Theorem run_mass_simulation_keys {R : Type} `{!RandomSource R}
    `{!RandomSourceLawful R} df_pots conf_dict pot_dict num_simulations
    target_team (r : R) results r' pot1 pot2 pot3 pot4 key count :
  table_agrees df_pots pot_dict →
  pot_dict !! "Pot 1" = Some pot1 → pot_dict !! "Pot 2" = Some pot2 →
  pot_dict !! "Pot 3" = Some pot3 → pot_dict !! "Pot 4" = Some pot4 →
  length pot1 = TEAMS_PER_POT → length pot2 = TEAMS_PER_POT →
  length pot3 = TEAMS_PER_POT → length pot4 = TEAMS_PER_POT →
  run_mass_simulation df_pots conf_dict pot_dict num_simulations target_team r
  = (Return results, r') →
  combinations results !! key = Some count →
  key_from_pots pot2 pot3 pot4 key ∧ 0 < count.
Proof.
  intros Hagree E1 E2 E3 E4 L1 L2 L3 L4 Hrun.
  unfold run_mass_simulation in Hrun.
  assert (Hempty : ∀ key count,
            (∅ : gmap combination nat) !! key = Some count →
            key_from_pots pot2 pot3 pot4 key ∧ 0 < count).
  { intros key' count'. by rewrite lookup_empty. }
  apply (simulation_loop_keys _ _ _ _ _ _ _ _ _ Hagree E1 E2 E3 E4
           L1 L2 L3 L4
           {| combinations := ∅; successful := 0; failed := 0 |} r results r'
           Hempty Hrun).
Qed.

Lemma run_mass_simulation_keys_witness :
  key_from_pots sample_pot2 sample_pot3 sample_pot4
    (Some "Iran", Some "Tunisia", Some "Playoff D")
  ∧ 0 < 3.
Proof.
  apply (run_mass_simulation_keys (R := unit) sample_df_pots sample_confs
           sample_pots 3 "Argentina" tt sample_results tt
           sample_pot1 sample_pot2 sample_pot3 sample_pot4).
  - exact sample_table_agrees.
  - vm_compute; reflexivity.
  - vm_compute; reflexivity.
  - vm_compute; reflexivity.
  - vm_compute; reflexivity.
  - reflexivity.
  - reflexivity.
  - reflexivity.
  - reflexivity.
  - vm_compute; reflexivity.
  - vm_compute; reflexivity.
Defined.

(** ** data_loader.py: the dictionaries and the validation *)

Lemma elem_of_unique_from seen values x :
  x ∈ unique_from seen values ↔ x ∈ values ∧ x ∉ seen.
Proof.
  revert seen. induction values as [|y values IH]; intros seen;
    cbn [unique_from].
  - rewrite elem_of_nil. tauto.
  - case_bool_decide as Hseen.
    + rewrite IH, elem_of_cons. split; [tauto|].
      intros [[->|?] ?]; [done | tauto].
    + rewrite !elem_of_cons, IH. split.
      * intros [->|[? Hnot]]; [tauto|]. split; [tauto | set_solver].
      * intros [[->|?] ?]; [by left|].
        destruct (decide (x = y)) as [->|Hne]; [by left | right].
        split; [done | set_solver].
Qed.

Lemma elem_of_unique values x : x ∈ unique values ↔ x ∈ values.
Proof. unfold unique. rewrite elem_of_unique_from. set_solver. Qed.

Lemma foldl_insert_lookup {V} (f : string → V) keys :
  ∀ (m : gmap string V) k,
    foldl (λ m k, <[k := f k]> m) m keys !! k
    = if decide (k ∈ keys) then Some (f k) else m !! k.
Proof.
  induction keys as [|k0 keys IH]; intros m k; cbn [foldl].
  - destruct (decide (k ∈ [])) as [Hin|_]; [by apply elem_of_nil in Hin|done].
  - rewrite IH. destruct (decide (k ∈ keys)) as [Hin|Hnot].
    + rewrite decide_True; [done | by right].
    + destruct (decide (k = k0)) as [->|Hne].
      * rewrite lookup_insert_eq, decide_True; [done | left].
      * rewrite lookup_insert_ne by done.
        rewrite decide_False; [done|].
        intros [?|?]%elem_of_cons; done.
Qed.

Lemma elem_of_teams_of_pot df_pots pot team :
  team ∈ teams_of_pot df_pots pot ↔ (team, pot) ∈ df_pots.
Proof.
  unfold teams_of_pot. rewrite list_elem_of_fmap. split.
  - intros ([t p] & -> & [Hp Hin]%list_elem_of_filter). simpl in *.
    by subst.
  - intros Hin. exists (team, pot). split; [done|].
    by apply list_elem_of_filter.
Qed.

Lemma elem_of_confederations_of df_confederations team conf :
  conf ∈ confederations_of df_confederations team
  ↔ (team, conf) ∈ df_confederations.
Proof.
  unfold confederations_of. rewrite list_elem_of_fmap. split.
  - intros ([t c] & -> & [Ht Hin]%list_elem_of_filter). simpl in *.
    by subst.
  - intros Hin. exists (team, conf). split; [done|].
    by apply list_elem_of_filter.
Qed.

Lemma create_pot_dict_lookup df_pots pot :
  create_pot_dict df_pots !! pot
  = if decide (pot ∈ df_pots.*2) then Some (teams_of_pot df_pots pot)
    else None.
Proof.
  unfold create_pot_dict. rewrite foldl_insert_lookup, lookup_empty.
  destruct (decide (pot ∈ unique df_pots.*2)) as [Hin|Hnot];
    rewrite elem_of_unique in *.
  - by rewrite decide_True.
  - by rewrite decide_False.
Qed.

Lemma create_confederation_dict_lookup df_confederations team :
  create_confederation_dict df_confederations !! team
  = if decide (team ∈ df_confederations.*1)
    then Some (confederations_of df_confederations team)
    else None.
Proof.
  unfold create_confederation_dict.
  rewrite foldl_insert_lookup, lookup_empty.
  destruct (decide (team ∈ unique df_confederations.*1)) as [Hin|Hnot];
    rewrite elem_of_unique in *.
  - by rewrite decide_True.
  - by rewrite decide_False.
Qed.

Lemma pot_of_Some df_pots team pot :
  pot_of df_pots team = Some pot → (team, pot) ∈ df_pots.
Proof.
  induction df_pots as [|[t p] rows IH]; cbn [pot_of]; [done|].
  destruct (String.eqb_spec t team) as [->|Hne].
  - intros [= ->]. left.
  - intros Hrow. right. by apply IH.
Qed.


Lemma pot_of_unique_row df_pots team pot :
  NoDup df_pots.*1 → (team, pot) ∈ df_pots → pot_of df_pots team = Some pot.
Proof.
  induction df_pots as [|[t p] rows IH]; csimpl.
  - by intros _ ?%elem_of_nil.
  - intros [Ht Hnd]%NoDup_cons [[= -> ->]|Hin]%elem_of_cons.
    + by rewrite String.eqb_refl.
    + destruct (String.eqb_spec t team) as [->|Hne]; [|by apply IH].
      destruct Ht. apply list_elem_of_fmap. by exists (team, pot).
Qed.

(** X17: [create_pot_dict] has a key for exactly the pots that occur in the
    table; the list under a pot is never empty and holds, in row order,
    exactly the teams of the rows of that pot. *)
Theorem create_pot_dict_spec df_pots pot :
  (create_pot_dict df_pots !! pot = None ↔ pot ∉ df_pots.*2)
  ∧ ∀ teams,
      create_pot_dict df_pots !! pot = Some teams →
      teams = teams_of_pot df_pots pot
      ∧ teams ≠ []
      ∧ ∀ team, team ∈ teams ↔ (team, pot) ∈ df_pots.
Proof.
  rewrite create_pot_dict_lookup. split.
  - by destruct (decide (pot ∈ df_pots.*2)).
  - intros teams. destruct (decide (pot ∈ df_pots.*2)) as [Hin|]; [|done].
    intros [= <-]. split; [done|]. split.
    + apply list_elem_of_fmap in Hin as ([t p] & -> & Hrow). simpl.
      assert (t ∈ teams_of_pot df_pots p) as Hmem
        by by apply elem_of_teams_of_pot.
      intros Hnil. rewrite Hnil in Hmem. by apply elem_of_nil in Hmem.
    + intros team. apply elem_of_teams_of_pot.
Qed.

(** X18: looking a team up in the dictionary [create_confederation_dict]
    builds, with the engine's default [[]], gives the confederations of the
    team's rows in row order: a label is among them exactly when the table
    has that row, and a team with a key never has the empty list. *)
Theorem create_confederation_dict_spec df_confederations team :
  conf_get (create_confederation_dict df_confederations) team
  = confederations_of df_confederations team
  ∧ (∀ conf, conf ∈ conf_get (create_confederation_dict df_confederations)
                      team
             ↔ (team, conf) ∈ df_confederations)
  ∧ (create_confederation_dict df_confederations !! team ≠ Some [])
  ∧ (is_Some (create_confederation_dict df_confederations !! team)
     ↔ team ∈ df_confederations.*1).
Proof.
  assert (Hget : conf_get (create_confederation_dict df_confederations) team
                 = confederations_of df_confederations team).
  { unfold conf_get. rewrite create_confederation_dict_lookup.
    destruct (decide (team ∈ df_confederations.*1)) as [|Hnot]; [done|].
    simpl. symmetry. apply elem_of_nil_inv. intros conf Hconf.
    apply elem_of_confederations_of in Hconf. apply Hnot.
    apply list_elem_of_fmap. by exists (team, conf). }
  split; [done|]. split; [|split].
  - intros conf. rewrite Hget. apply elem_of_confederations_of.
  - rewrite create_confederation_dict_lookup.
    destruct (decide (team ∈ df_confederations.*1)) as [Hin|]; [|done].
    intros [= Hnil].
    apply list_elem_of_fmap in Hin as ([t c] & -> & Hrow). simpl in Hnil.
    assert (c ∈ confederations_of df_confederations t) as Hmem
      by by apply elem_of_confederations_of.
    rewrite Hnil in Hmem. by apply elem_of_nil in Hmem.
  - rewrite create_confederation_dict_lookup.
    destruct (decide (team ∈ df_confederations.*1)) as [Hin|Hnot].
    + split; [done | by eauto].
    + split; [by intros [? ?] | done].
Qed.

(** X19: when no team occurs in two rows of the pots table, the table and
    the dictionary [create_pot_dict] builds from it agree: the pot the
    driver finds for a team of a pot list is the pot of that list. *)
Theorem create_pot_dict_agrees df_pots :
  NoDup df_pots.*1 →
  table_agrees df_pots (create_pot_dict df_pots).
Proof.
  intros Hnd pot_name teams team _ Hlookup Hteam.
  rewrite create_pot_dict_lookup in Hlookup.
  destruct (decide (pot_name ∈ df_pots.*2)); [|done].
  injection Hlookup as <-. apply pot_of_unique_row; [done|].
  by apply elem_of_teams_of_pot.
Qed.

Lemma create_pot_dict_agrees_witness :
  NoDup small_df_pots.*1
  ∧ table_agrees small_df_pots (create_pot_dict small_df_pots).
Proof.
  assert (Hnd : NoDup small_df_pots.*1) by compute_done.
  split; [exact Hnd|].
  apply (create_pot_dict_agrees small_df_pots Hnd).
Defined.

Lemma verify_fixed_hosts_Some hosts df_pots :
  verify_fixed_hosts hosts df_pots = Some ()
  ↔ ∀ host group, (host, group) ∈ hosts → host ∈ df_pots.*1.
Proof.
  induction hosts as [|[h g] hosts IH]; cbn [verify_fixed_hosts].
  - split; [|done]. intros _ host group Hin. by apply elem_of_nil in Hin.
  - case_bool_decide as Hh.
    + rewrite IH. split.
      * intros Hall host group [[= -> ->]|Hin]%elem_of_cons; [done|].
        by apply (Hall host group).
      * intros Hall host group Hin. apply (Hall host group). by right.
    + split; [done|]. intros Hall. destruct Hh. apply (Hall h g). left.
Qed.

Lemma validate_data_Some df_pots df_confederations b :
  validate_data df_pots df_confederations = Some b
  ↔ b = true
    ∧ (∀ team, team ∈ df_pots.*1 → team ∈ df_confederations.*1)
    ∧ (∀ host group, (host, group) ∈ FIXED_HOSTS → host ∈ df_pots.*1).
Proof.
  unfold validate_data.
  set (missing := (list_to_set (unique df_pots.*1) : gset string)
                  ∖ list_to_set (unique df_confederations.*1)).
  assert (Hmissing : size missing = 0
            ↔ ∀ team, team ∈ df_pots.*1 → team ∈ df_confederations.*1).
  { rewrite size_empty_iff. unfold missing. split.
    - intros Hempty team Hteam.
      destruct (decide (team ∈ df_confederations.*1)) as [|Hnot]; [done|].
      assert (team ∈ (∅ : gset string)) as Hin; [|set_solver].
      rewrite <- Hempty. apply elem_of_difference.
      rewrite !elem_of_list_to_set, !elem_of_unique. done.
    - intros Hall. apply set_equiv. intros team.
      rewrite elem_of_difference, !elem_of_list_to_set, !elem_of_unique.
      split; [|set_solver]. intros [Hin Hnot]. destruct Hnot. by apply Hall. }
  case_bool_decide as Hpos.
  - split; [done|]. intros (_ & Hall & _). apply Hmissing in Hall. lia.
  - destruct (verify_fixed_hosts FIXED_HOSTS df_pots) as [[]|] eqn:Hhosts;
      cbn [mbind option_bind].
    + pose proof (proj1 (verify_fixed_hosts_Some _ _) Hhosts) as Hall.
      split.
      * intros [= <-]. split; [done|]. split; [|done].
        apply Hmissing. lia.
      * by intros (-> & _ & _).
    + split; [done|]. intros (_ & _ & Hall).
      pose proof (proj2 (verify_fixed_hosts_Some _ _) Hall). congruence.
Qed.

(** X20: [validate_data] returns (and then returns [True]) exactly when
    every team of the pots table has a row in the confederations table and
    every fixed host occurs in the pots table; in every other case it
    raises.  It does not ask that a host be in Pot 1, nor that a pot have
    12 teams. *)
Theorem validate_data_iff df_pots df_confederations :
  (validate_data df_pots df_confederations = Some true
   ↔ (∀ team, team ∈ df_pots.*1 → team ∈ df_confederations.*1)
     ∧ (∀ host group, (host, group) ∈ FIXED_HOSTS → host ∈ df_pots.*1))
  ∧ validate_data df_pots df_confederations ≠ Some false
  ∧ validate_data
      [("Mexico", "Pot 2"); ("Canada", "Pot 1"); ("United States", "Pot 1")]
      [("Mexico", "CONCACAF"); ("Canada", "CONCACAF");
       ("United States", "CONCACAF")] = Some true.
Proof.
  split; [|split].
  - rewrite validate_data_Some. tauto.
  - intros Hfalse%validate_data_Some. by destruct Hfalse.
  - vm_compute. reflexivity.
Qed.

(** X21: on validated tables the dictionaries the loader builds leave no
    team without confederation: every team of every pot list has a
    non-empty label list, so the checker's vacuous case does not arise, and
    every fixed host is in some pot list. *)
Theorem validated_teams_have_confederations df_pots df_confederations :
  validate_data df_pots df_confederations = Some true →
  (∀ pot teams team,
     create_pot_dict df_pots !! pot = Some teams → team ∈ teams →
     conf_get (create_confederation_dict df_confederations) team ≠ [])
  ∧ (∀ host group, (host, group) ∈ FIXED_HOSTS →
     ∃ pot teams, create_pot_dict df_pots !! pot = Some teams
                  ∧ host ∈ teams).
Proof.
  intros (_ & Hconfs & Hhosts)%validate_data_Some. split.
  - intros pot teams team Hlookup Hteam.
    rewrite create_pot_dict_lookup in Hlookup.
    destruct (decide (pot ∈ df_pots.*2)); [|done].
    injection Hlookup as <-. apply elem_of_teams_of_pot in Hteam.
    assert (team ∈ df_pots.*1) as Hin.
    { apply list_elem_of_fmap. by exists (team, pot). }
    apply Hconfs in Hin.
    apply list_elem_of_fmap in Hin as ([t c] & -> & Hrow). simpl.
    assert (c ∈ conf_get (create_confederation_dict df_confederations) t)
      as Hmem.
    { unfold conf_get. rewrite create_confederation_dict_lookup.
      rewrite decide_True.
      - simpl. by apply elem_of_confederations_of.
      - apply list_elem_of_fmap. by exists (t, c). }
    intros Hnil. rewrite Hnil in Hmem. by apply elem_of_nil in Hmem.
  - intros host group Hin. specialize (Hhosts host group Hin).
    apply list_elem_of_fmap in Hhosts as ([t p] & -> & Hrow). simpl.
    exists p, (teams_of_pot df_pots p). split.
    + rewrite create_pot_dict_lookup, decide_True; [done|].
      apply list_elem_of_fmap. by exists (t, p).
    + by apply elem_of_teams_of_pot.
Qed.

Lemma validated_teams_have_confederations_witness :
  (∀ pot teams team,
     create_pot_dict small_df_pots !! pot = Some teams → team ∈ teams →
     conf_get (create_confederation_dict small_df_confederations) team ≠ [])
  ∧ (∀ host group, (host, group) ∈ FIXED_HOSTS →
     ∃ pot teams, create_pot_dict small_df_pots !! pot = Some teams
                  ∧ host ∈ teams).
Proof.
  apply (validated_teams_have_confederations small_df_pots
           small_df_confederations).
  vm_compute. reflexivity.
Defined.



(** ** The seed placement, exactly *)

Lemma assign_fixed_hosts_filled hosts : ∀ pot1 st rest st',
  NoDup hosts.*1 →
  assign_fixed_hosts hosts pot1 st = Some (rest, st') →
  ∀ g, g ∈ filled_for (groups_filled_by_pot st') "Pot 1"
       ↔ g ∈ filled_for (groups_filled_by_pot st) "Pot 1"
         ∨ ∃ host, (host, g) ∈ hosts ∧ host ∈ pot1.
Proof.
  induction hosts as [|[host0 g0] hosts IH]; intros pot1 st rest st' Hnd;
    cbn [assign_fixed_hosts].
  - intros [= <- <-] g. split; [by left|].
    intros [?|(host & Hin & _)]; [done | by apply elem_of_nil in Hin].
  - rewrite fmap_cons in Hnd. apply NoDup_cons in Hnd as [Hhost0 Hnd].
    case_bool_decide as Hin.
    + destruct (place host0 "Pot 1" g0 st) as [st1|] eqn:Hplace; [|done].
      cbn [mbind option_bind]. intros Hrun g.
      rewrite (IH _ _ _ _ Hnd Hrun g).
      destruct (place_spec _ _ _ _ _ Hplace) as (_ & _ & _ & _ & _ & Hf).
      rewrite Hf. destruct (decide ("Pot 1" = "Pot 1")); [|done].
      rewrite elem_of_union, elem_of_singleton. split.
      * intros [[? | ->]|(host & Hmem & Hpot)].
        -- by left.
        -- right. exists host0. split; [left | done].
        -- right. exists host. split; [by right|].
           apply elem_of_remove_first_ne in Hpot; [done|].
           intros ->. apply Hhost0, list_elem_of_fmap. by exists (host, g).
      * intros [?|(host & [[= -> ->]|Hmem]%elem_of_cons & Hpot)].
        -- by left; left.
        -- by left; right.
        -- right. exists host. split; [done|].
           apply elem_of_remove_first_ne; [|done].
           intros ->. apply Hhost0, list_elem_of_fmap. by exists (host, g).
    + intros Hrun g. rewrite (IH _ _ _ _ Hnd Hrun g). split.
      * intros [?|(host & Hmem & Hpot)]; [by left|].
        right. exists host. split; [by right | done].
      * intros [?|(host & [[= -> ->]|Hmem]%elem_of_cons & Hpot)];
          [by left | done |].
        right. by exists host.
Qed.

Lemma FIXED_HOSTS_group_unique host1 host2 group :
  (host1, group) ∈ FIXED_HOSTS → (host2, group) ∈ FIXED_HOSTS →
  host1 = host2.
Proof.
  unfold FIXED_HOSTS. intros H1 H2.
  repeat (apply elem_of_cons in H1 as [[= -> ->]|H1]);
    [..|by apply elem_of_nil in H1];
    repeat (apply elem_of_cons in H2 as [[= ->]|H2]);
    try done; by apply elem_of_nil in H2.
Qed.

(** X23: the seed placement always succeeds and seeds exactly the fixed
    hosts that [pot_dict['Pot 1']] lists: a group is filled for Pot 1
    afterwards exactly when it is the group of such a host, the group of a
    fixed host that is not in Pot 1 stays empty and open, and every seeded
    host is taken out of the teams that remain to be drawn. *)
Theorem seed_placement_exact pot1 :
  ∃ rest seeded,
    assign_fixed_hosts FIXED_HOSTS pot1 init_state = Some (rest, seeded)
    ∧ (∀ group,
         group ∈ filled_for (groups_filled_by_pot seeded) "Pot 1"
         ↔ ∃ host, (host, group) ∈ FIXED_HOSTS ∧ host ∈ pot1)
    ∧ (∀ host group, (host, group) ∈ FIXED_HOSTS → host ∉ pot1 →
         occupants (groups_formed seeded) group = []
         ∧ group ∉ filled_for (groups_filled_by_pot seeded) "Pot 1")
    ∧ length rest + size (filled_for (groups_filled_by_pot seeded) "Pot 1")
      = length pot1.
Proof.
  destruct (seed_placement pot1)
    as (hs & rest & seeded & Hseed & Hph & Hperm & Hhosts).
  exists rest, seeded. split; [done|].
  assert (Hfilled : ∀ group,
            group ∈ filled_for (groups_filled_by_pot seeded) "Pot 1"
            ↔ ∃ host, (host, group) ∈ FIXED_HOSTS ∧ host ∈ pot1).
  { intros group.
    rewrite (assign_fixed_hosts_filled FIXED_HOSTS pot1 init_state rest
               seeded ltac:(compute_done) Hseed group).
    rewrite init_state_filled. set_solver. }
  split; [done|]. split.
  - intros host group Hin Habsent.
    assert (group ∉ filled_for (groups_filled_by_pot seeded) "Pot 1")
      as Hnot.
    { rewrite Hfilled. intros (host' & Hin' & Hpot).
      by rewrite (FIXED_HOSTS_group_unique _ _ _ Hin Hin') in Habsent. }
    split; [|done].
    rewrite (phase_old _ _ _ _ Hph group) by by right.
    apply occupants_init.
  - rewrite (phase_size _ _ _ _ Hph), init_state_filled, size_empty.
    rewrite Hperm, length_app. lia.
Qed.
